(** * FluidCB trace analyzer: path-command parser, coordinate resolver,
      junction and connectivity builder

    A shallow embedding of [src/trace-analyzer.ts].  JavaScript numbers are
    IEEE-754 binary64 values and are modelled by Rocq's primitive [float]
    (the same format, the same rounding); strings are byte strings over
    ASCII; arrays are lists; the insertion-ordered [Map] of the junction
    builder is an association list; objects that the source mutates in place
    are threaded explicitly through the functions that mutate them. *)

From Stdlib Require Import ZArith List String Ascii Bool Lia Floats.
From Stdlib Require Import DecimalString DecimalPos DecimalZ.
Import ListNotations.

#[local] Open Scope string_scope.
#[local] Open Scope list_scope.
#[local] Set Warnings "-inexact-float".

(** ** The JavaScript built-ins the source calls *)

Module JS.

(** *** Strings *)

Definition charCode (c : ascii) : N := N_of_ascii c.

(** [\s] of regular expressions and the white space of [trim] and
    [parseFloat], restricted to ASCII: TAB, LF, VT, FF, CR and SPACE. *)
Definition isWhiteSpace (c : ascii) : bool :=
  let n := charCode c in
  ((9 <=? n) && (n <=? 13) || (n =? 32))%N.

Definition isDigit (c : ascii) : bool :=
  let n := charCode c in ((48 <=? n) && (n <=? 57))%N.

Definition digitValue (c : ascii) : Z := (Z.of_N (charCode c) - 48)%Z.

Definition upperChar (c : ascii) : ascii :=
  let n := charCode c in
  if ((97 <=? n) && (n <=? 122))%N then ascii_of_N (n - 32) else c.

Definition lowerChar (c : ascii) : ascii :=
  let n := charCode c in
  if ((65 <=? n) && (n <=? 90))%N then ascii_of_N (n + 32) else c.

Fixpoint mapChars (f : ascii -> ascii) (s : string) : string :=
  match s with
  | EmptyString => EmptyString
  | String c s' => String (f c) (mapChars f s')
  end.

Definition toUpperCase : string -> string := mapChars upperChar.
Definition toLowerCase : string -> string := mapChars lowerChar.

Fixpoint trimStart (s : string) : string :=
  match s with
  | String c s' => if isWhiteSpace c then trimStart s' else s
  | EmptyString => EmptyString
  end.

Fixpoint trimEnd (s : string) : string :=
  match s with
  | EmptyString => EmptyString
  | String c s' =>
      match trimEnd s' with
      | EmptyString => if isWhiteSpace c then EmptyString else String c EmptyString
      | r => String c r
      end
  end.

Definition trim (s : string) : string := trimEnd (trimStart s).

(** [s.split(re)] for a regular expression [re = /[...]+/] whose class is
    [isSep]: the pieces between maximal runs of separators, empty pieces at
    either end included.  [inRun] tells that the previous character was a
    separator; the head of the result is the piece being read. *)
Fixpoint splitRuns (isSep : ascii -> bool) (inRun : bool) (s : string) : list string :=
  match s with
  | EmptyString => [EmptyString]
  | String c s' =>
      if isSep c then
        if inRun then splitRuns isSep true s'
        else EmptyString :: splitRuns isSep true s'
      else
        match splitRuns isSep false s' with
        | piece :: pieces => String c piece :: pieces
        | [] => [String c EmptyString]
        end
  end.

(** [s.split(/[\s,]+/)]. *)
Definition split_ws_comma (s : string) : list string :=
  splitRuns (fun c => isWhiteSpace c || Ascii.eqb c ",") false s.

(** [s.split(',')]: every comma separates. *)
Fixpoint split_comma (s : string) : list string :=
  match s with
  | EmptyString => [EmptyString]
  | String c s' =>
      if Ascii.eqb c "," then EmptyString :: split_comma s'
      else match split_comma s' with
           | piece :: pieces => String c piece :: pieces
           | [] => [String c EmptyString]
           end
  end.

(** A string is truthy when it is not empty. *)
Definition truthyString (s : string) : bool := negb (String.eqb s EmptyString).

(** *** Numbers *)

(** [a > b]; false as soon as one side is NaN. *)
Definition gt (a b : float) : bool := PrimFloat.ltb b a.

(** Truthiness of a number: [0], [-0] and [NaN] are falsy. *)
Definition truthyNumber (v : float) : bool :=
  negb (PrimFloat.eqb v 0) && PrimFloat.eqb v v.

(** [DecimalDigits]: the value of the digits read, how many were read, and
    the rest of the string. *)
Fixpoint scanDigits (s : string) (acc : Z) (n : nat) : Z * nat * string :=
  match s with
  | String c s' =>
      if isDigit c then scanDigits s' (10 * acc + digitValue c)%Z (S n)
      else (acc, n, s)
  | EmptyString => (acc, n, s)
  end.

(** [ExponentPart], when one can be read at the head of [s]; [0] otherwise
    (the literal then ends before the [e]). *)
Definition scanExponent (s : string) : Z :=
  match s with
  | String c s' =>
      if Ascii.eqb c "e" || Ascii.eqb c "E" then
        let '(negative, s'') :=
          match s' with
          | String "+" t => (false, t)
          | String "-" t => (true, t)
          | _ => (false, s')
          end in
        let '(v, n, _) := scanDigits s'' 0%Z 0 in
        match n with
        | O => 0%Z
        | S _ => if negative then (- v)%Z else v
        end
      else 0%Z
  | EmptyString => 0%Z
  end.

(** The longest prefix of [s] that is a [StrUnsignedDecimalLiteral] other
    than [Infinity], as a decimal mantissa and a decimal exponent. *)
Definition scanUnsignedDecimal (s : string) : option (Z * Z) :=
  let '(ip, ni, r1) := scanDigits s 0%Z 0 in
  match r1 with
  | String "." r2 =>
      let '(m, nf, r3) := scanDigits r2 ip 0 in
      match ni, nf with
      | O, O => None
      | _, _ => Some (m, (scanExponent r3 - Z.of_nat nf)%Z)
      end
  | _ =>
      match ni with
      | O => None
      | S _ => Some (ip, scanExponent r1)
      end
  end.

(** The Number value of [m * 10^e10], [m >= 0]: the binary64 value nearest
    to it, ties to even, computed by the correctly rounded division of
    [SpecFloat] on exact integers. *)
Definition decimalToNumber (negative : bool) (m e10 : Z) : float :=
  match m with
  | Zpos p =>
      SF2Prim
        (SFdiv prec emax
           (S754_finite negative (p * Z.to_pos (10 ^ Z.max e10 0)) 0)
           (S754_finite false (Z.to_pos (10 ^ Z.max (- e10) 0)) 0))
  | _ => if negative then (-0)%float else 0%float
  end.

Definition scanUnsigned (negative : bool) (s : string) : float :=
  if String.prefix "Infinity" s then
    (if negative then neg_infinity else infinity)
  else
    match scanUnsignedDecimal s with
    | Some (m, e10) => decimalToNumber negative m e10
    | None => nan
    end.

(** [parseFloat(s)]: leading white space is skipped, the longest prefix
    that is a [StrDecimalLiteral] is converted, and [NaN] is returned when
    there is none. *)
Definition parseFloat (s : string) : float :=
  match trimStart s with
  | String "+" t => scanUnsigned false t
  | String "-" t => scanUnsigned true t
  | t => scanUnsigned false t
  end.

(** The values [Math.round] returns: NaN, the infinities and the integral
    numbers.  Both zeros are [Integral 0]; they print alike. *)
Inductive Rounded : Type :=
| RNaN
| RInfinity (negative : bool)
| Integral (z : Z).

(** [Math.round(v)]: the integer nearest to [v], a tie going towards
    +Infinity, that is [floor (v + 1/2)] computed exactly on the binary
    expansion [+-m * 2^e] of [v]. *)
Definition Math_round (v : float) : Rounded :=
  match Prim2SF v with
  | S754_nan => RNaN
  | S754_infinity s => RInfinity s
  | S754_zero _ => Integral 0
  | S754_finite s m e =>
      let n := if s then Zneg m else Zpos m in
      if (0 <=? e)%Z then Integral (n * 2 ^ e)
      else Integral ((2 * n + 2 ^ (- e)) / 2 ^ (- e + 1))
  end.

(** [`${r}`] for a value of [Math.round]: decimal digits with a leading
    minus sign.  (From 1e21 on JavaScript prints the same integer in
    exponent notation; the digits written here name the same number.) *)
Definition Rounded_toString (r : Rounded) : string :=
  match r with
  | RNaN => "NaN"
  | RInfinity false => "Infinity"
  | RInfinity true => "-Infinity"
  | Integral z => NilZero.string_of_int (Z.to_int z)
  end.

Definition Math_abs : float -> float := PrimFloat.abs.

(** *** Arrays of strings *)

Definition includes (l : list string) (s : string) : bool :=
  existsb (String.eqb s) l.

(** [[...new Set(l)]]: the elements in the order of their first
    occurrence. *)
Fixpoint uniq (l : list string) : list string :=
  match l with
  | [] => []
  | s :: l' => s :: filter (fun t => negb (String.eqb t s)) (uniq l')
  end.

End JS.

(** ** Data model ([types.ts] and the types of [trace-analyzer.ts]) *)

(** [Point] is imported from [./types]; the later version of [types.ts]
    declares it as [{x: number, y: number}], and the code reads and writes
    these two fields. *)
Record Point : Type := mkPoint { x : float; y : float }.

(** [PathCommand] is imported from [./types]; the later version of
    [types.ts] declares it as [{type, points, isRelative}].  The code stores
    the command letter as it stands in the path data in [type], a
    one-character string. *)
Record PathCommand : Type := mkPathCommand {
  type : string;
  points : list Point;
  isRelative : bool
}.

Record Trace : Type := mkTrace {
  id : string;
  pathData : string;
  width : float;
  stroke : option string;
  fill : option string;
  layer : option string;
  transform : option string
}.

Record ParserOptions : Type := mkOptions {
  verbose : option bool;
  minJunctionDistance : option float
}.

(** The object [analyzeTrace] returns: the fields of the trace ([...trace])
    and the derived ones.  [startPoint], [endPoint] and [connectedTraces]
    can be absent; the junction and connectivity builders test them. *)
Record AnalyzedTrace : Type := mkAnalyzed {
  trace : Trace;
  commands : list PathCommand;
  allPoints : list Point;   (* the field [points]; [PathCommand] has the name *)
  startPoint : option Point;
  endPoint : option Point;
  connectedTraces : option (list string);
  direction : string
}.

(** [Junction] is imported from [./types]; the later version of [types.ts]
    declares it as [{point, traceIds}], and the code builds [traceIds] as an
    array. *)
Record Junction : Type := mkJunction {
  point : Point;
  traceIds : list string
}.

(** ** [parsePathCommands] *)

(** The character class of [commandRegex]. *)
Definition isCommandLetter (c : ascii) : bool :=
  existsb (Ascii.eqb c)
    (list_ascii_of_string "MLHVCSQTAZmlhvcsqtaz").

(** Group 2 of [commandRegex], [[^MLHVCSQTAZmlhvcsqtaz]*]: the longest run
    of characters that are not command letters. *)
Fixpoint takeParams (s : string) : string :=
  match s with
  | String c s' => if isCommandLetter c then EmptyString else String c (takeParams s')
  | EmptyString => EmptyString
  end.

(** The successive matches [commandRegex.exec(pathData)] of the [while]
    loop, as pairs [(commandType, paramsStr)].  A match starts at a command
    letter and runs up to the next one, where the next match starts;
    characters before the first command letter are skipped. *)
Fixpoint commandMatches (s : string) : list (string * string) :=
  match s with
  | EmptyString => []
  | String c s' =>
      if isCommandLetter c
      then (String c EmptyString, takeParams s') :: commandMatches s'
      else commandMatches s'
  end.

(** [paramsStr.trim().split(/[\s,]+/).filter(p => p).map(parseFloat)] *)
Definition parseParams (paramsStr : string) : list float :=
  map JS.parseFloat
    (filter JS.truthyString (JS.split_ws_comma (JS.trim paramsStr))).

(** The loop of cases M and L: [params] two at a time, an unpaired last one
    dropped. *)
Fixpoint pairPoints (params : list float) : list Point :=
  match params with
  | a :: b :: rest => mkPoint a b :: pairPoints rest
  | _ => []
  end.

(** One iteration of the [while] loop: the command built from a match. *)
Definition parseCommand (commandType paramsStr : string) : PathCommand :=
  let isRelative := String.eqb (JS.toLowerCase commandType) commandType in
  let params := parseParams paramsStr in
  let upper := JS.toUpperCase commandType in
  let points :=
    if String.eqb upper "M" || String.eqb upper "L" then pairPoints params
    else if String.eqb upper "H" then map (fun p => mkPoint p 0) params
    else if String.eqb upper "V" then map (fun p => mkPoint 0 p) params
    else [] in
  mkPathCommand commandType points isRelative.

Definition parsePathCommands (pathData : string) : list PathCommand :=
  map (fun m => parseCommand (fst m) (snd m)) (commandMatches pathData).

(** ** [convertToAbsoluteCoordinates] *)

(** The four variables the closure of [commands.map] carries. *)
Record Cursor : Type := mkCursor {
  currentX : float;
  currentY : float;
  subpathStartX : float;
  subpathStartY : float
}.

Definition initialCursor : Cursor := mkCursor 0 0 0 0.

Definition current (c : Cursor) : Point := mkPoint (currentX c) (currentY c).
Definition subpathStart (c : Cursor) : Point :=
  mkPoint (subpathStartX c) (subpathStartY c).

(** Case M, from index [i] on: the points pushed and the variables after
    the loop. *)
Fixpoint resolveMoveTo (rel : bool) (i : nat) (pts : list Point) (c : Cursor)
  : list Point * Cursor :=
  match pts with
  | [] => ([], c)
  | p :: rest =>
      let vx := if rel then (currentX c + x p)%float else x p in
      let vy := if rel then (currentY c + y p)%float else y p in
      let c' :=
        match i with
        | O => mkCursor vx vy vx vy
        | S _ => mkCursor vx vy (subpathStartX c) (subpathStartY c)
        end in
      let '(out, c'') := resolveMoveTo rel (S i) rest c' in
      (mkPoint vx vy :: out, c'')
  end.

(** Case L. *)
Fixpoint resolveLineTo (rel : bool) (pts : list Point) (c : Cursor)
  : list Point * Cursor :=
  match pts with
  | [] => ([], c)
  | p :: rest =>
      let vx := if rel then (currentX c + x p)%float else x p in
      let vy := if rel then (currentY c + y p)%float else y p in
      let '(out, c') :=
        resolveLineTo rel rest
          (mkCursor vx vy (subpathStartX c) (subpathStartY c)) in
      (mkPoint vx vy :: out, c')
  end.

(** Case H. *)
Fixpoint resolveHorizontal (rel : bool) (pts : list Point) (c : Cursor)
  : list Point * Cursor :=
  match pts with
  | [] => ([], c)
  | p :: rest =>
      let vx := if rel then (currentX c + x p)%float else x p in
      let '(out, c') :=
        resolveHorizontal rel rest
          (mkCursor vx (currentY c) (subpathStartX c) (subpathStartY c)) in
      (mkPoint vx (currentY c) :: out, c')
  end.

(** Case V. *)
Fixpoint resolveVertical (rel : bool) (pts : list Point) (c : Cursor)
  : list Point * Cursor :=
  match pts with
  | [] => ([], c)
  | p :: rest =>
      let vy := if rel then (currentY c + y p)%float else y p in
      let '(out, c') :=
        resolveVertical rel rest
          (mkCursor (currentX c) vy (subpathStartX c) (subpathStartY c)) in
      (mkPoint (currentX c) vy :: out, c')
  end.

(** The points one call of the callback pushes, and the variables after
    it.  A type that matches no case pushes nothing and assigns nothing. *)
Definition resolvePoints (cmd : PathCommand) (c : Cursor) : list Point * Cursor :=
  let upper := JS.toUpperCase (type cmd) in
  if String.eqb upper "M" then resolveMoveTo (isRelative cmd) 0 (points cmd) c
  else if String.eqb upper "L" then resolveLineTo (isRelative cmd) (points cmd) c
  else if String.eqb upper "H" then resolveHorizontal (isRelative cmd) (points cmd) c
  else if String.eqb upper "V" then resolveVertical (isRelative cmd) (points cmd) c
  else if String.eqb upper "Z" then
    ([subpathStart c],
     mkCursor (subpathStartX c) (subpathStartY c) (subpathStartX c) (subpathStartY c))
  else ([], c).

(** The callback of [commands.map]. *)
Definition resolveCommand (cmd : PathCommand) (c : Cursor) : PathCommand * Cursor :=
  let '(pts, c') := resolvePoints cmd c in
  (mkPathCommand (type cmd) pts false, c').

(** [commands.map(...)] started with the variables [c]. *)
Fixpoint resolveFrom (c : Cursor) (cmds : list PathCommand)
  : list PathCommand * Cursor :=
  match cmds with
  | [] => ([], c)
  | cmd :: rest =>
      let '(r, c') := resolveCommand cmd c in
      let '(rs, c'') := resolveFrom c' rest in
      (r :: rs, c'')
  end.

Definition convertToAbsoluteCoordinates (cmds : list PathCommand) : list PathCommand :=
  fst (resolveFrom initialCursor cmds).

(** ** [getPointsFromCommands] *)

Definition getPointsFromCommands (cmds : list PathCommand) : list Point :=
  fold_left (fun pts cmd => pts ++ points cmd) cmds [].

(** ** [analyzeTrace] *)

(** The direction test on the displacement from [start] to [end]. *)
Definition classifyDirection (start end_ : Point) : string :=
  let dx := JS.Math_abs (x end_ - x start)%float in
  let dy := JS.Math_abs (y end_ - y start)%float in
  if JS.gt dx (dy * 2)%float then "horizontal"
  else if JS.gt dy (dx * 2)%float then "vertical"
  else "diagonal".

Definition analyzeTrace (t : Trace) : AnalyzedTrace :=
  let commands := parsePathCommands (pathData t) in
  let absoluteCommands := convertToAbsoluteCoordinates commands in
  let points := getPointsFromCommands absoluteCommands in
  let startPoint := if (0 <? List.length points)%nat then nth_error points 0 else None in
  let endPoint :=
    if (0 <? List.length points)%nat then nth_error points (List.length points - 1) else None in
  let direction :=
    if (2 <=? List.length points)%nat then
      match startPoint, endPoint with
      | Some s, Some e => classifyDirection s e
      | _, _ => "unknown"
      end
    else "unknown" in
  mkAnalyzed t absoluteCommands points startPoint endPoint (Some []) direction.

(** ** [findJunctions] *)

(** [options.minJunctionDistance || 0.1]: an absent or falsy tolerance is
    replaced by the default. *)
Definition defaultMinDistance : float := 0.1%float.

Definition minDistanceOf (options : ParserOptions) : float :=
  match minJunctionDistance options with
  | Some v => if JS.truthyNumber v then v else defaultMinDistance
  | None => defaultMinDistance
  end.

(** [pointMap : Map<string, string[]>] in insertion order. *)
Definition PointMap : Type := list (string * list string).

Definition Map_has (key : string) (m : PointMap) : bool :=
  existsb (fun entry => String.eqb (fst entry) key) m.

(** [m.set(key, v)]: an existing key keeps its place. *)
Fixpoint Map_set (key : string) (v : list string) (m : PointMap) : PointMap :=
  match m with
  | [] => [(key, v)]
  | (k, w) :: m' =>
      if String.eqb k key then (k, v) :: m' else (k, w) :: Map_set key v m'
  end.

(** [m.get(key)!.push(tid)]: the array stored under [key] grows in place.
    (The source calls it on a key that is present.) *)
Fixpoint Map_push (key tid : string) (m : PointMap) : PointMap :=
  match m with
  | [] => []
  | (k, w) :: m' =>
      if String.eqb k key then (k, w ++ [tid]) :: m' else (k, w) :: Map_push key tid m'
  end.

(** The template literal
    [`${Math.round(p.x / minDistance)},${Math.round(p.y / minDistance)}`]. *)
Definition bucketKey (minDistance : float) (p : Point) : string :=
  JS.Rounded_toString (JS.Math_round (x p / minDistance)%float)
  ++ "," ++
  JS.Rounded_toString (JS.Math_round (y p / minDistance)%float).

(** One of the two [if] blocks of the first [forEach], for an end point
    that may be absent. *)
Definition addEndpoint (minDistance : float) (tid : string) (p : option Point)
    (pointMap : PointMap) : PointMap :=
  match p with
  | Some pt =>
      let key := bucketKey minDistance pt in
      let pointMap' :=
        if Map_has key pointMap then pointMap else Map_set key [] pointMap in
      Map_push key tid pointMap'
  | None => pointMap
  end.

(** The first [forEach]. *)
Definition collectEndpoints (minDistance : float) (analyzedTraces : list AnalyzedTrace)
  : PointMap :=
  fold_left
    (fun pointMap t =>
       addEndpoint minDistance (id (trace t)) (endPoint t)
         (addEndpoint minDistance (id (trace t)) (startPoint t) pointMap))
    analyzedTraces [].

(** The callback of [pointMap.forEach]: the junctions it pushes.  [[x, y]]
    destructures the first two elements; a missing one is modelled by NaN. *)
Definition junctionOf (minDistance : float) (entry : string * list string)
  : list Junction :=
  let '(key, ids) := entry in
  if (1 <? List.length ids)%nat then
    let coords :=
      map (fun n => (JS.parseFloat n * minDistance)%float) (JS.split_comma key) in
    [mkJunction (mkPoint (nth 0 coords nan) (nth 1 coords nan)) (JS.uniq ids)]
  else [].

Definition findJunctions (analyzedTraces : list AnalyzedTrace) (options : ParserOptions)
  : list Junction :=
  let minDistance := minDistanceOf options in
  flat_map (junctionOf minDistance) (collectEndpoints minDistance analyzedTraces).

(** ** [updateTraceConnectivity] *)

(** Assignment to [t.connectedTraces]. *)
Definition setConnected (t : AnalyzedTrace) (l : list string) : AnalyzedTrace :=
  mkAnalyzed (trace t) (commands t) (allPoints t) (startPoint t) (endPoint t)
    (Some l) (direction t).

(** The first [forEach]: a missing array is created. *)
Definition initConnected (t : AnalyzedTrace) : AnalyzedTrace :=
  match connectedTraces t with
  | Some _ => t
  | None => setConnected t []
  end.

(** The body of the test on the trace found: [id2] is pushed unless the
    array is missing or holds it already. *)
Definition pushConnected (id2 : string) (t : AnalyzedTrace) : AnalyzedTrace :=
  match connectedTraces t with
  | Some l => if JS.includes l id2 then t else setConnected t (l ++ [id2])
  | None => t
  end.

(** [analyzedTraces.find(t => t.id === id1)] and the update of the object it
    returns: the first trace with that id, none when [find] is undefined. *)
Fixpoint connectIn (id1 id2 : string) (analyzedTraces : list AnalyzedTrace)
  : list AnalyzedTrace :=
  match analyzedTraces with
  | [] => []
  | t :: rest =>
      if String.eqb (id (trace t)) id1 then pushConnected id2 t :: rest
      else t :: connectIn id1 id2 rest
  end.

(** The body of the innermost [forEach]. *)
Definition connectPair (analyzedTraces : list AnalyzedTrace) (id1 id2 : string)
  : list AnalyzedTrace :=
  if String.eqb id1 id2 then analyzedTraces else connectIn id1 id2 analyzedTraces.

(** The two nested [forEach] over [junction.traceIds]. *)
Definition connectJunction (analyzedTraces : list AnalyzedTrace) (junction : Junction)
  : list AnalyzedTrace :=
  fold_left
    (fun ts1 id1 =>
       fold_left (fun ts2 id2 => connectPair ts2 id1 id2) (traceIds junction) ts1)
    (traceIds junction) analyzedTraces.

(** The traces after the call; the source updates them in place. *)
Definition updateTraceConnectivity (analyzedTraces : list AnalyzedTrace)
    (junctions : list Junction) : list AnalyzedTrace :=
  fold_left connectJunction junctions (map initConnected analyzedTraces).

(** ** The junction builder and [analyzeTracesInSVG] *)

(** Junction grouping followed by the connectivity update, on traces that
    are already analysed: the traces after the run and the junctions. *)
Definition buildJunctions (analyzedTraces : list AnalyzedTrace) (options : ParserOptions)
  : list AnalyzedTrace * list Junction :=
  let junctions := findJunctions analyzedTraces options in
  (updateTraceConnectivity analyzedTraces junctions, junctions).

(** [analyzeTracesInSVG] from the traces [extractTraces] returned. *)
Definition analyzeExtractedTraces (rawTraces : list Trace) (options : ParserOptions)
  : list AnalyzedTrace * list Junction :=
  buildJunctions (map analyzeTrace rawTraces) options.

(** ** Notions of the specification *)

(** The command letters the resolver has no case for. *)
Definition isUnsupported (ty : string) : bool :=
  let upper := JS.toUpperCase ty in
  String.eqb upper "C" || String.eqb upper "S" || String.eqb upper "Q"
  || String.eqb upper "T" || String.eqb upper "A".

(** What an unsupported command resolves to. *)
Definition emptied (cmd : PathCommand) : PathCommand :=
  mkPathCommand (type cmd) [] false.

Definition origin : Point := mkPoint 0 0.

(** The first resolved point of the most recent MoveTo that resolved a
    point, read off a resolved command sequence; [(0,0)] when there is none. *)
Definition subpathStartOf (resolved : list PathCommand) : Point :=
  fold_left
    (fun start cmd =>
       if String.eqb (JS.toUpperCase (type cmd)) "M"
       then match points cmd with p :: _ => p | [] => start end
       else start)
    resolved origin.

(** *** The round-trip law *)

(** The displacement from [prev] to [p], two consecutive absolute points,
    equals the raw point [raw] of a relative command on the axes the command
    supplies: [x] for H, [y] for V, both for M and L. *)
Definition reproduces (upper : string) (raw prev p : Point) : bool :=
  if String.eqb upper "H" then PrimFloat.eqb (x p - x prev) (x raw)
  else if String.eqb upper "V" then PrimFloat.eqb (y p - y prev) (y raw)
  else PrimFloat.eqb (x p - x prev) (x raw) && PrimFloat.eqb (y p - y prev) (y raw).

(** The raw points of one command walked along the absolute points [pts]:
    whether every displacement that is checked ([check], the command is
    relative; no check on a point that has no predecessor) reproduces its
    raw point, the last absolute point passed, and the points left. *)
Fixpoint roundTripPoints (check : bool) (upper : string) (raws : list Point)
    (prev : option Point) (pts : list Point) : bool * option Point * list Point :=
  match raws with
  | [] => (true, prev, pts)
  | raw :: raws' =>
      match pts with
      | [] => (false, prev, [])
      | p :: pts' =>
          let ok :=
            match prev with
            | Some q => negb check || reproduces upper raw q p
            | None => true
            end in
          let '(oks, last, rest) := roundTripPoints check upper raws' (Some p) pts' in
          (ok && oks, last, rest)
      end
  end.

Definition isLineCommand (upper : string) : bool :=
  String.eqb upper "M" || String.eqb upper "L"
  || String.eqb upper "H" || String.eqb upper "V".

(** The raw commands walked along the flattened absolute points: a
    ClosePath passes the one point it emitted, a command of another letter
    passes none. *)
Fixpoint roundTrip (raw : list PathCommand) (prev : option Point) (pts : list Point)
  : bool :=
  match raw with
  | [] => true
  | cmd :: rest =>
      let upper := JS.toUpperCase (type cmd) in
      if isLineCommand upper then
        let '(ok, last, pts') :=
          roundTripPoints (isRelative cmd) upper (points cmd) prev pts in
        ok && roundTrip rest last pts'
      else if String.eqb upper "Z" then
        match pts with
        | p :: pts' => roundTrip rest (Some p) pts'
        | [] => false
        end
      else roundTrip rest prev pts
  end.

(** The round-trip law on a path-data string: parse, resolve, flatten, and
    compare the differences of consecutive absolute points with the raw
    points of the relative commands. *)
Definition roundTripLaw (pathData : string) : bool :=
  let raw := parsePathCommands pathData in
  roundTrip raw None (getPointsFromCommands (convertToAbsoluteCoordinates raw)).

(** The additions [cursor + delta] of one relative command lose nothing:
    subtracting the cursor from the sum gives the delta back.  [started]
    tells that a point was emitted before, [cur] is the cursor. *)
Fixpoint exactPoints (upper : string) (raws : list Point) (started : bool) (cur : Point)
  : bool :=
  match raws with
  | [] => true
  | raw :: raws' =>
      let next :=
        if String.eqb upper "H" then mkPoint (x cur + x raw) (y cur)
        else if String.eqb upper "V" then mkPoint (x cur) (y cur + y raw)
        else mkPoint (x cur + x raw) (y cur + y raw) in
      (negb started || reproduces upper raw cur next)
      && exactPoints upper raws' true next
  end.

(** The same along a run of the resolver from the variables [c]. *)
Fixpoint additionsExact (cmds : list PathCommand) (started : bool) (c : Cursor) : bool :=
  match cmds with
  | [] => true
  | cmd :: rest =>
      let upper := JS.toUpperCase (type cmd) in
      (if isLineCommand upper && isRelative cmd
       then exactPoints upper (points cmd) started (current c)
       else true)
      && additionsExact rest
           (started || match fst (resolvePoints cmd c) with [] => false | _ => true end)
           (snd (resolvePoints cmd c))
  end.

(** *** Connectivity *)

Definition traceId (t : AnalyzedTrace) : string := id (trace t).

(** The ids a trace is connected to; none when the array is missing. *)
Definition connected (t : AnalyzedTrace) : list string :=
  match connectedTraces t with
  | Some l => l
  | None => []
  end.

(** Connectivity is symmetric between the traces of the sequence and no
    trace lists an id twice. *)
Definition symmetricConnectivity (ts : list AnalyzedTrace) : Prop :=
  forall A B : AnalyzedTrace,
    In A ts -> In B ts ->
    (In (traceId A) (connected B) <-> In (traceId B) (connected A)).

Definition duplicateFree (ts : list AnalyzedTrace) : Prop :=
  forall A : AnalyzedTrace, In A ts -> NoDup (connected A).

(** Enriched trace sequences: what the analyzer returns, and what a run of
    the connectivity builder leaves, whatever the junctions it is given. *)
Inductive Enriched : list AnalyzedTrace -> Prop :=
| Enriched_analyzed (rawTraces : list Trace) :
    Enriched (map analyzeTrace rawTraces)
| Enriched_connected (ts : list AnalyzedTrace) (junctions : list Junction) :
    Enriched ts -> Enriched (updateTraceConnectivity ts junctions).

(** [analyzedTraces.find(t => t.id === i)] *)
Definition findTrace (i : string) (ts : list AnalyzedTrace) : option AnalyzedTrace :=
  find (fun t => String.eqb (traceId t) i) ts.

(** The pairs [(id1, id2)] in the order the nested [forEach] visit them. *)
Definition pairsOf (junction : Junction) : list (string * string) :=
  flat_map (fun id1 => map (pair id1) (traceIds junction)) (traceIds junction).

(** *** Distance and buckets *)

(** The Euclidean distance of two points, in binary64. *)
Definition distance (p q : Point) : float :=
  sqrt ((x q - x p) * (x q - x p) + (y q - y p) * (y q - y p))%float.

(** *** Completions *)

(** What a call does to its caller: it returns a value or throws. *)
Inductive Completion (A : Type) : Type :=
| Normal (value : A)
| Throw (error : string).

Arguments Normal {A} value.
Arguments Throw {A} error.

(** *** Auxiliary definitions of the proofs *)

(** The predecessor the round-trip walk carries is the cursor of the
    resolver, once a point has been emitted. *)
Definition tracks (started : bool) (c : Cursor) (prev : option Point) : Prop :=
  prev = if started then Some (current c) else None.

Definition nonEmpty (pts : list Point) : bool :=
  match pts with [] => false | _ => true end.

(** [m * 2^52] as a positive number: [m] followed by 52 zero bits. *)
Definition shl52 (m : positive) : positive :=
  (m~0~0~0~0~0~0~0~0~0~0~0~0~0~0~0~0~0~0~0~0~0~0~0~0~0~0
    ~0~0~0~0~0~0~0~0~0~0~0~0~0~0~0~0~0~0~0~0~0~0~0~0~0~0)%positive.

(** A string without comma. *)
Fixpoint noComma (s : string) : bool :=
  match s with
  | EmptyString => true
  | String c s' => negb (Ascii.eqb c ",") && noComma s'
  end.

(** Every trace has its array of connected ids. *)
Definition allInitialised (ts : list AnalyzedTrace) : Prop :=
  forall t : AnalyzedTrace, In t ts -> connectedTraces t <> None.

(** What the junction builder reads of a trace. *)
Definition endpointsOf (t : AnalyzedTrace) : string * option Point * option Point :=
  (traceId t, startPoint t, endPoint t).

(** The trace [find] returns for [i] lists [z]. *)
Definition linked (ts : list AnalyzedTrace) (i z : string) : Prop :=
  exists t : AnalyzedTrace, findTrace i ts = Some t /\ In z (connected t).

(** The innermost body run on a list of pairs. *)
Definition connectAll (ts : list AnalyzedTrace) (pairs : list (string * string))
  : list AnalyzedTrace :=
  fold_left (fun ts' p => connectPair ts' (fst p) (snd p)) pairs ts.

(** Reading back what [JS.Rounded_toString] wrote. *)
Definition Rounded_ofString (s : string) : option JS.Rounded :=
  match NilZero.int_of_string s with
  | Some d => Some (JS.Integral (Z.of_int d))
  | None =>
      if String.eqb s "NaN" then Some JS.RNaN
      else if String.eqb s "Infinity" then Some (JS.RInfinity false)
      else if String.eqb s "-Infinity" then Some (JS.RInfinity true)
      else None
  end.

(** ** Further notions, for the properties beyond the round trip *)

(** The lower-case command letters. *)
Definition isLowerCommand (c : ascii) : bool :=
  existsb (Ascii.eqb c) (list_ascii_of_string "mlhvcsqtaz").

(** The command letters of a string, in order, with their case. *)
Fixpoint commandLetters (s : string) : list (string * bool) :=
  match s with
  | EmptyString => []
  | String c s' =>
      if isCommandLetter c
      then (String c EmptyString, isLowerCommand c) :: commandLetters s'
      else commandLetters s'
  end.

(** A string without command letter. *)
Fixpoint noCommandLetter (s : string) : bool :=
  match s with
  | EmptyString => true
  | String c s' => negb (isCommandLetter c) && noCommandLetter s'
  end.

(** How many points the resolver emits for a command. *)
Definition resolvedCount (cmd : PathCommand) : nat :=
  let upper := JS.toUpperCase (type cmd) in
  if isLineCommand upper then List.length (points cmd)
  else if String.eqb upper "Z" then 1
  else 0.

(** The end points a trace brings to the junction builder, as pairs of a
    bucket key and the id of the trace, the start point first. *)
Definition contributionsOf (minDistance : float) (t : AnalyzedTrace)
  : list (string * string) :=
  match startPoint t with
  | Some p => [(bucketKey minDistance p, traceId t)]
  | None => []
  end
  ++ match endPoint t with
     | Some p => [(bucketKey minDistance p, traceId t)]
     | None => []
     end.

Definition contributions (minDistance : float) (ts : list AnalyzedTrace)
  : list (string * string) :=
  flat_map (contributionsOf minDistance) ts.

(** The ids brought to the bucket [key], in order. *)
Definition idsAt (key : string) (cs : list (string * string)) : list string :=
  map snd (filter (fun c => String.eqb (fst c) key) cs).

(** [m.get(key)] *)
Definition Map_get (key : string) (m : PointMap) : option (list string) :=
  option_map snd (find (fun entry => String.eqb (fst entry) key) m).

(** One end point added to the map: the body of one [if] block of the
    first [forEach] of [findJunctions]. *)
Definition addContribution (m : PointMap) (c : string * string) : PointMap :=
  Map_push (fst c) (snd c)
    (if Map_has (fst c) m then m else Map_set (fst c) [] m).

(** The point [findJunctions] computes back from a bucket key. *)
Definition pointOfKey (minDistance : float) (key : string) : Point :=
  let coords :=
    map (fun n => (JS.parseFloat n * minDistance)%float) (JS.split_comma key) in
  mkPoint (nth 0 coords nan) (nth 1 coords nan).

(** A trace that has an end point. *)
Definition hasEndpoint (t : AnalyzedTrace) : bool :=
  match startPoint t, endPoint t with
  | None, None => false
  | _, _ => true
  end.

(** The point [p] is the start or the end of [t]. *)
Definition endpointOf (t : AnalyzedTrace) (p : Point) : Prop :=
  startPoint t = Some p \/ endPoint t = Some p.

(** How many ids the buckets of a map hold in all. *)
Definition heldIds (m : PointMap) : nat :=
  list_sum (map (fun entry => List.length (snd entry)) m).

(** Everything of an analysed trace but its connected ids. *)
Definition restOf (t : AnalyzedTrace)
  : Trace * list PathCommand * list Point * option Point * option Point * string :=
  (trace t, commands t, allPoints t, startPoint t, endPoint t, direction t).

(** [t'] is [t] with ids appended to its connected ids. *)
Definition grownFrom (t t' : AnalyzedTrace) : Prop :=
  restOf t' = restOf t
  /\ exists added : list string, connected t' = connected t ++ added.

(** No trace lists its own id. *)
Definition noSelfConnection (ts : list AnalyzedTrace) : Prop :=
  forall t : AnalyzedTrace, In t ts -> ~ In (traceId t) (connected t).

(** ** What can throw *)

(** None of the functions has a [throw] statement, and [parseFloat],
    [Math.round], [split], [trim] and the template literal return a value
    on every string and number.  What is left to throw is a [TypeError]
    for a read through [undefined], at the two places where the source
    silences the type checker with a non-null assertion:
    [pointMap.get(key)!.push(id)] in [findJunctions], and [start.x],
    [end.x] on [analyzedTrace.startPoint!], [analyzedTrace.endPoint!] in
    [analyzeTrace].  The definitions below run the same code with these
    reads checked. *)
Definition TypeError : string := "TypeError".

(** Sequencing: a throw ends the run. *)
Definition andThen {A B : Type} (c : Completion A) (f : A -> Completion B)
  : Completion B :=
  match c with
  | Normal value => f value
  | Throw error => Throw error
  end.

(** [pointMap.get(key)!.push(tid)]: [get] returns [undefined] for a key
    that is absent, and the call of [push] on [undefined] throws. *)
Definition Map_push_call (key tid : string) (m : PointMap) : Completion PointMap :=
  match Map_get key m with
  | Some _ => Normal (Map_push key tid m)
  | None => Throw TypeError
  end.

(** One [if] block of the first [forEach] of [findJunctions]. *)
Definition addEndpoint_call (minDistance : float) (tid : string) (p : option Point)
    (pointMap : PointMap) : Completion PointMap :=
  match p with
  | Some pt =>
      let key := bucketKey minDistance pt in
      let pointMap' :=
        if Map_has key pointMap then pointMap else Map_set key [] pointMap in
      Map_push_call key tid pointMap'
  | None => Normal pointMap
  end.

(** The first [forEach], from the map [pointMap]. *)
Fixpoint collectEndpoints_call (minDistance : float)
    (analyzedTraces : list AnalyzedTrace) (pointMap : PointMap)
  : Completion PointMap :=
  match analyzedTraces with
  | [] => Normal pointMap
  | t :: rest =>
      andThen (addEndpoint_call minDistance (id (trace t)) (startPoint t) pointMap)
        (fun m1 =>
           andThen (addEndpoint_call minDistance (id (trace t)) (endPoint t) m1)
             (fun m2 => collectEndpoints_call minDistance rest m2))
  end.

(** [findJunctions] seen from the caller. *)
Definition findJunctions_call (analyzedTraces : list AnalyzedTrace)
    (options : ParserOptions) : Completion (list Junction) :=
  let minDistance := minDistanceOf options in
  andThen (collectEndpoints_call minDistance analyzedTraces [])
    (fun pointMap => Normal (flat_map (junctionOf minDistance) pointMap)).

(** [analyzeTrace] seen from the caller: with two points or more, [start]
    and [end] are read through. *)
Definition analyzeTrace_call (t : Trace) : Completion AnalyzedTrace :=
  let commands := parsePathCommands (pathData t) in
  let absoluteCommands := convertToAbsoluteCoordinates commands in
  let points := getPointsFromCommands absoluteCommands in
  let startPoint := if (0 <? List.length points)%nat then nth_error points 0 else None in
  let endPoint :=
    if (0 <? List.length points)%nat then nth_error points (List.length points - 1) else None in
  let analyzedTrace := mkAnalyzed t absoluteCommands points startPoint endPoint (Some []) in
  if (2 <=? List.length points)%nat then
    match startPoint, endPoint with
    | Some s, Some e => Normal (analyzedTrace (classifyDirection s e))
    | _, _ => Throw TypeError
    end
  else Normal (analyzedTrace "unknown").

(** [rawTraces.map(trace => analyzeTrace(trace))] *)
Fixpoint analyzeTraces_call (rawTraces : list Trace) : Completion (list AnalyzedTrace) :=
  match rawTraces with
  | [] => Normal []
  | t :: rest =>
      andThen (analyzeTrace_call t)
        (fun a => andThen (analyzeTraces_call rest) (fun others => Normal (a :: others)))
  end.

(** [analyzeTracesInSVG] from the extracted traces, seen from the caller.
    [updateTraceConnectivity] reads [trace.connectedTraces] behind the
    tests [trace && trace.connectedTraces]. *)
Definition analyzeExtractedTraces_call (rawTraces : list Trace) (options : ParserOptions)
  : Completion (list AnalyzedTrace * list Junction) :=
  andThen (analyzeTraces_call rawTraces)
    (fun analyzedTraces =>
       andThen (findJunctions_call analyzedTraces options)
         (fun junctions =>
            Normal (updateTraceConnectivity analyzedTraces junctions, junctions))).

(** ** [extractTraces] ([svg-parser.ts]) *)

(** The double quote. *)
Definition doubleQuote : ascii := "034"%char.

(** [\w]: letters, digits and the underscore. *)
Definition isWordChar (c : ascii) : bool :=
  let n := JS.charCode c in
  ((48 <=? n) && (n <=? 57) || (65 <=? n) && (n <=? 90)
   || (97 <=? n) && (n <=? 122) || (n =? 95))%N.

(** [s] without the prefix [p], when it starts with it. *)
Fixpoint stripPrefix (p s : string) : option string :=
  match p, s with
  | EmptyString, _ => Some s
  | String a p', String b s' => if Ascii.eqb a b then stripPrefix p' s' else None
  | String _ _, EmptyString => None
  end.

(** The longest prefix of characters of a class, and what follows it. *)
Fixpoint spanClass (f : ascii -> bool) (s : string) : string * string :=
  match s with
  | String c s' =>
      if f c then let '(run, rest) := spanClass f s' in (String c run, rest)
      else (EmptyString, s)
  | EmptyString => (EmptyString, EmptyString)
  end.

(** The text before the first occurrence of [c] and the text after it;
    nothing when [c] does not occur. *)
Fixpoint untilChar (c : ascii) (s : string) : option (string * string) :=
  match s with
  | EmptyString => None
  | String a s' =>
      if Ascii.eqb a c then Some (EmptyString, s')
      else match untilChar c s' with
           | Some (before, rest) => Some (String a before, rest)
           | None => None
           end
  end.

(** A match of [pathRegex], the text [<path], white space [\s+], a group
    of characters other than [>] and a [>], that starts at the head of
    [s]: group 1 and the length of the match.  [\s+] takes the whole run of
    white space (what follows it matches or not whatever the run gave
    up), and group 1 runs up to the first [>]. *)
Definition pathMatchAt (s : string) : option (string * nat) :=
  match stripPrefix "<path" s with
  | None => None
  | Some r =>
      let '(ws, r') := spanClass JS.isWhiteSpace r in
      match ws with
      | EmptyString => None
      | String _ _ =>
          match untilChar ">" r' with
          | None => None
          | Some (group, _) =>
              Some (group, 5 + String.length ws + String.length group + 1)
          end
      end
  end.

(** The successive matches [pathRegex.exec(svgContent)] of the outer
    [while] loop, as their group 1: the leftmost match from where the
    last one ended.  [skip] counts the characters of the last match that
    are still to be passed. *)
Fixpoint pathMatchesFrom (skip : nat) (s : string) : list string :=
  match s with
  | EmptyString => []
  | String c s' =>
      match skip with
      | S k => pathMatchesFrom k s'
      | O =>
          match pathMatchAt (String c s') with
          | Some (group, len) => group :: pathMatchesFrom (len - 1) s'
          | None => pathMatchesFrom 0 s'
          end
      end
  end.

Definition pathMatches (svgContent : string) : list string :=
  pathMatchesFrom 0 svgContent.

(** A match of [attrRegex], a run of word characters [\w+], an equal sign
    and a text without double quote between double quotes, that starts at
    the head of [s]: the groups 1 and 2 and the length of the match.
    [\w+] takes the whole run of word characters: a shorter run is
    followed by a word character, not by [=]. *)
Definition attrMatchAt (s : string) : option (string * string * nat) :=
  let '(name, r) := spanClass isWordChar s in
  match name with
  | EmptyString => None
  | String _ _ =>
      match r with
      | String a (String b r2) =>
          if Ascii.eqb a "=" && Ascii.eqb b doubleQuote then
            match untilChar doubleQuote r2 with
            | Some (value, _) =>
                Some (name, value, String.length name + 2 + String.length value + 1)
            | None => None
            end
          else None
      | _ => None
      end
  end.

(** The successive matches [attrRegex.exec(pathAttrs)] of the inner
    [while] loop, as pairs [(attrName, attrValue)].  The loop ends on
    [null], which sets [lastIndex] back to 0 for the next path. *)
Fixpoint attrMatchesFrom (skip : nat) (s : string) : list (string * string) :=
  match s with
  | EmptyString => []
  | String c s' =>
      match skip with
      | S k => attrMatchesFrom k s'
      | O =>
          match attrMatchAt (String c s') with
          | Some (name, value, len) => (name, value) :: attrMatchesFrom (len - 1) s'
          | None => attrMatchesFrom 0 s'
          end
      end
  end.

Definition attrMatches (pathAttrs : string) : list (string * string) :=
  attrMatchesFrom 0 pathAttrs.

(** The [switch] on the attribute name. *)
Definition applyAttribute (t : Trace) (attr : string * string) : Trace :=
  let '(attrName, attrValue) := attr in
  if String.eqb attrName "d" then
    mkTrace (id t) attrValue (width t) (stroke t) (fill t) (layer t) (transform t)
  else if String.eqb attrName "stroke-width" then
    mkTrace (id t) (pathData t) (JS.parseFloat attrValue) (stroke t) (fill t)
      (layer t) (transform t)
  else if String.eqb attrName "id" then
    mkTrace attrValue (pathData t) (width t) (stroke t) (fill t) (layer t) (transform t)
  else if String.eqb attrName "stroke" then
    mkTrace (id t) (pathData t) (width t) (Some attrValue) (fill t) (layer t) (transform t)
  else if String.eqb attrName "fill" then
    mkTrace (id t) (pathData t) (width t) (stroke t) (Some attrValue) (layer t) (transform t)
  else if String.eqb attrName "transform" then
    mkTrace (id t) (pathData t) (width t) (stroke t) (fill t) (layer t) (Some attrValue)
  else t.

(** [`trace-${pathCount}`] *)
Definition defaultId (pathCount : nat) : string :=
  "trace-" ++ NilZero.string_of_uint (Nat.to_uint pathCount).

(** The trace built for the [pathCount]-th path element. *)
Definition traceOfPath (pathCount : nat) (pathAttrs : string) : Trace :=
  fold_left applyAttribute (attrMatches pathAttrs)
    (mkTrace (defaultId pathCount) EmptyString 1 None None None None).

(** The outer loop over the matches, [pathCount] being the count so far: a
    trace is pushed when it has path data. *)
Fixpoint extractFrom (pathCount : nat) (groups : list string) : list Trace :=
  match groups with
  | [] => []
  | pathAttrs :: rest =>
      let t := traceOfPath (S pathCount) pathAttrs in
      if JS.truthyString (pathData t) then t :: extractFrom (S pathCount) rest
      else extractFrom (S pathCount) rest
  end.

(** [extractTraces]; [options.verbose] only switches logging on. *)
Definition extractTraces (svgContent : string) (options : ParserOptions) : list Trace :=
  extractFrom 0 (pathMatches svgContent).

(** [analyzeTracesInSVG], without its logging. *)
Definition analyzeTracesInSVG (svgContent : string) (options : ParserOptions)
  : list AnalyzedTrace * list Junction :=
  analyzeExtractedTraces (extractTraces svgContent options) options.

(** A name made of word characters. *)
Fixpoint allWordChars (s : string) : bool :=
  match s with
  | EmptyString => true
  | String c s' => isWordChar c && allWordChars s'
  end.

(** A piece of text between double quotes. *)
Definition quoted (s : string) : string :=
  String doubleQuote (s ++ String doubleQuote EmptyString).

(** The values the attribute matches give to the name [name], in order. *)
Definition valuesOf (name : string) (attrs : list (string * string)) : list string :=
  map snd (filter (fun a => String.eqb (fst a) name) attrs).

(** *** The round trip, point by point *)

(** Where a relative command leads from the point [q] by the raw point
    [raw]: the additions of the resolver, on the axes the command
    supplies. *)
Definition advance (upper : string) (q raw : Point) : Point :=
  if String.eqb upper "H" then mkPoint (x q + x raw) (y q)
  else if String.eqb upper "V" then mkPoint (x q) (y q + y raw)
  else mkPoint (x q + x raw) (y q + y raw).

(** The addition of [raw] to [q] loses nothing: subtracting [q] from the
    sum gives [raw] back. *)
Definition additionExact (upper : string) (q raw : Point) : bool :=
  reproduces upper raw q (advance upper q raw).

(** One raw point of a command M, L, H or V of the source with the
    absolute point resolved for it and the point before that one in the
    flattened polyline, if there is one. *)
Record Step : Type := mkStep {
  stepRelative : bool;
  stepUpper : string;
  stepRaw : Point;
  stepPrev : option Point;
  stepPoint : Point
}.

(** The displacement of the step is checked when its command is relative
    and the point has a predecessor; it then has to reproduce the raw
    point. *)
Definition stepReproduces (s : Step) : bool :=
  match stepPrev s with
  | Some q => negb (stepRelative s) || reproduces (stepUpper s) (stepRaw s) q (stepPoint s)
  | None => true
  end.

(** The steps of one command along the absolute points [pts], the last
    point passed and the points left; nothing when the points run out. *)
Fixpoint stepsOfPoints (rel : bool) (upper : string) (raws : list Point)
    (prev : option Point) (pts : list Point)
  : option (list Step * option Point * list Point) :=
  match raws with
  | [] => Some ([], prev, pts)
  | raw :: raws' =>
      match pts with
      | [] => None
      | p :: pts' =>
          match stepsOfPoints rel upper raws' (Some p) pts' with
          | Some (steps, last, rest) =>
              Some (mkStep rel upper raw prev p :: steps, last, rest)
          | None => None
          end
      end
  end.

(** The steps of the raw commands along the flattened absolute points, in
    the way [roundTrip] walks them. *)
Fixpoint stepsOf (raw : list PathCommand) (prev : option Point) (pts : list Point)
  : option (list Step) :=
  match raw with
  | [] => Some []
  | cmd :: rest =>
      let upper := JS.toUpperCase (type cmd) in
      if isLineCommand upper then
        match stepsOfPoints (isRelative cmd) upper (points cmd) prev pts with
        | Some (steps, last, pts') =>
            match stepsOf rest last pts' with
            | Some others => Some (steps ++ others)
            | None => None
            end
        | None => None
        end
      else if String.eqb upper "Z" then
        match pts with
        | p :: pts' => stepsOf rest (Some p) pts'
        | [] => None
        end
      else stepsOf rest prev pts
  end.

(** The steps of a path-data string: parse, resolve, flatten, and pair. *)
Definition roundTripSteps (pathData : string) : option (list Step) :=
  let raw := parsePathCommands pathData in
  stepsOf raw None (getPointsFromCommands (convertToAbsoluteCoordinates raw)).

(** The raw points of the commands M, L, H and V, in order. *)
Definition rawPoints (cmds : list PathCommand) : list Point :=
  flat_map
    (fun cmd => if isLineCommand (JS.toUpperCase (type cmd)) then points cmd else [])
    cmds.

(** A step of a relative command leads from its predecessor by its raw
    point. *)
Definition advances (s : Step) : Prop :=
  stepRelative s = true ->
  forall q : Point,
    stepPrev s = Some q -> stepPoint s = advance (stepUpper s) q (stepRaw s).

(** * Properties *)

(** ** The embedding on known values *)

Example parseFloat_values :
  JS.parseFloat "5.02" = 5.02%float
  /\ JS.parseFloat " -1.5e1x" = (-15)%float
  /\ JS.parseFloat ".5" = 0.5%float
  /\ JS.parseFloat "10-5" = 10%float
  /\ JS.parseFloat "abc" = nan
  /\ JS.parseFloat "9007199254740993" = 9007199254740992%float.
Proof. vm_compute. repeat split. Qed.

Example Math_round_values :
  JS.Math_round 2.5 = JS.Integral 3
  /\ JS.Math_round (-2.5) = JS.Integral (-2)
  /\ JS.Math_round 0.49999999999999994 = JS.Integral 0
  /\ JS.Math_round (-0.2) = JS.Integral 0
  /\ JS.Math_round (5.02 / 0.1) = JS.Integral 50
  /\ JS.Math_round nan = JS.RNaN.
Proof. vm_compute. repeat split. Qed.

Example split_values :
  JS.split_ws_comma "10 20,30" = ["10"; "20"; "30"]
  /\ JS.split_ws_comma ", a" = [""; "a"]
  /\ JS.split_ws_comma "" = [""]
  /\ parseParams " 1,2  3 " = [1; 2; 3]%float
  /\ parseParams "" = [].
Proof. vm_compute. repeat split. Qed.

(** The scenarios of the specification. *)

Example scenario_horizontal :
  let t := analyzeTrace (mkTrace "trace-1" "M0,0 H10" 1 None None None None) in
  allPoints t = [mkPoint 0 0; mkPoint 10 0] /\ direction t = "horizontal".
Proof. vm_compute. split; reflexivity. Qed.

Example scenario_empty_path :
  let t := analyzeTrace (mkTrace "trace-1" "" 1 None None None None) in
  allPoints t = [] /\ startPoint t = None /\ endPoint t = None
  /\ direction t = "unknown"
  /\ findJunctions [t; t] (mkOptions None None) = [].
Proof. vm_compute. repeat split. Qed.

Example scenario_two_traces_meet :
  analyzeExtractedTraces
    [mkTrace "a" "M0,0 L5.02,5.0" 1 None None None None;
     mkTrace "b" "M5.0,5.0 L9,9" 1 None None None None]
    (mkOptions None None)
  = ([setConnected
        (analyzeTrace (mkTrace "a" "M0,0 L5.02,5.0" 1 None None None None)) ["b"];
      setConnected
        (analyzeTrace (mkTrace "b" "M5.0,5.0 L9,9" 1 None None None None)) ["a"]],
     [mkJunction (mkPoint 5 5) ["a"; "b"]]).
Proof. vm_compute. reflexivity. Qed.

Example relative_commands_follow_the_cursor :
  getPointsFromCommands
    (convertToAbsoluteCoordinates
       (parsePathCommands "m 5 5 C1,2 3,4 5,6 l 1 1 h 3 v -2 z"))
  = [mkPoint 5 5; mkPoint 6 6; mkPoint 9 6; mkPoint 9 4; mkPoint 5 5].
Proof. vm_compute. reflexivity. Qed.


(** ** The command parser *)

Lemma takeParams_app (c : ascii) (s2 : string) :
  isCommandLetter c = true ->
  forall s1 : string, takeParams (s1 ++ String c s2)%string = takeParams s1.
Proof.
  intros Hc. induction s1 as [|a s1 IH]; cbn [append takeParams].
  - now rewrite Hc.
  - destruct (isCommandLetter a); [reflexivity|]. now rewrite IH.
Qed.

(** A command letter starts a match wherever it stands. *)
Lemma commandMatches_app (c : ascii) (s2 : string) :
  isCommandLetter c = true ->
  forall s1 : string,
    commandMatches (s1 ++ String c s2)%string =
    commandMatches s1 ++ commandMatches (String c s2).
Proof.
  intros Hc. induction s1 as [|a s1 IH]; [reflexivity|].
  cbn [append]. cbn [commandMatches].
  destruct (isCommandLetter a).
  - rewrite takeParams_app by exact Hc. rewrite IH. reflexivity.
  - exact IH.
Qed.

Lemma parsePathCommands_app (c : ascii) (s1 s2 : string) :
  isCommandLetter c = true ->
  parsePathCommands (s1 ++ String c s2)%string =
  parsePathCommands s1 ++ parsePathCommands (String c s2).
Proof.
  intros Hc. unfold parsePathCommands.
  now rewrite commandMatches_app, map_app.
Qed.

Lemma unsupported_is_command_letter (c : ascii) :
  isUnsupported (String c EmptyString) = true -> isCommandLetter c = true.
Proof.
  destruct c as [[] [] [] [] [] [] [] []]; vm_compute; intros H;
    first [reflexivity | discriminate H].
Qed.

Lemma parseCommand_unsupported (ty paramsStr : string) :
  isUnsupported ty = true ->
  parseCommand ty paramsStr =
  mkPathCommand ty [] (String.eqb (JS.toLowerCase ty) ty).
Proof.
  unfold isUnsupported, parseCommand. intros H.
  repeat (apply orb_prop in H; destruct H as [H|H]);
    apply String.eqb_eq in H; rewrite H; reflexivity.
Qed.

(** C5, as the code has it: wherever a letter C, S, Q, T or A (either case)
    stands in the path data, the parser emits a command of that letter with
    no point, its numeric parameters being dropped; the commands before it
    and after it are those the parser reads from the text before and after
    the letter. *)
Theorem unsupported_letter_is_a_command_without_points
    (c : ascii) (s1 s2 : string) :
  isUnsupported (String c EmptyString) = true ->
  parsePathCommands (s1 ++ String c s2)%string =
  parsePathCommands s1
  ++ mkPathCommand (String c EmptyString) []
       (String.eqb (JS.toLowerCase (String c EmptyString)) (String c EmptyString))
  :: parsePathCommands s2.
Proof.
  intros Hu.
  rewrite parsePathCommands_app by exact (unsupported_is_command_letter c Hu).
  f_equal. unfold parsePathCommands at 1.
  cbn [commandMatches]. rewrite (unsupported_is_command_letter c Hu).
  cbn [map fst snd]. rewrite parseCommand_unsupported by exact Hu.
  reflexivity.
Qed.

Lemma unsupported_letter_is_a_command_without_points_witness :
  parsePathCommands "M0,0 C1,2 3,4 5,6 L7,8" =
  parsePathCommands "M0,0 "
  ++ mkPathCommand "C" [] false :: parsePathCommands "1,2 3,4 5,6 L7,8".
Proof.
  exact (unsupported_letter_is_a_command_without_points
           "C"%char "M0,0 " "1,2 3,4 5,6 L7,8" eq_refl).
Defined.

(** C5, as the specification states it, fails: the six numbers that follow
    the letter C are parsed and then dropped, and the command holds no
    point. *)
Lemma unsupported_parameters_are_dropped :
  commandMatches "M0,0 C1,2 3,4 5,6 L7,8"
  = [("M", "0,0 "); ("C", "1,2 3,4 5,6 "); ("L", "7,8")]
  /\ parseParams "1,2 3,4 5,6 " = [1; 2; 3; 4; 5; 6]%float
  /\ parsePathCommands "M0,0 C1,2 3,4 5,6 L7,8"
     = [mkPathCommand "M" [mkPoint 0 0] false;
        mkPathCommand "C" [] false;
        mkPathCommand "L" [mkPoint 7 8] false].
Proof. vm_compute. repeat split. Qed.


(** ** The coordinate resolver *)

(** The loops of the resolver return a pair; a proof about the variables
    they leave names the pair of the recursive call and goes through it. *)
Ltac through_loop IH :=
  match goal with
  | |- context [match ?call with pair _ _ => _ end] =>
      let out := fresh "out" in
      let c' := fresh "c" in
      let E := fresh "E" in
      destruct call as [out c'] eqn:E; cbn [fst snd];
      change c' with (snd (out, c')); rewrite <- E, IH; reflexivity
  end.

Lemma resolveMoveTo_later_keeps_start (rel : bool) (pts : list Point) :
  forall (i : nat) (c : Cursor),
    subpathStart (snd (resolveMoveTo rel (S i) pts c)) = subpathStart c.
Proof.
  induction pts as [|p rest IH]; intros i c; [reflexivity|].
  cbn [resolveMoveTo]. through_loop IH.
Qed.

Lemma resolveMoveTo_first_sets_start (rel : bool) (pts : list Point) (c : Cursor) :
  subpathStart (snd (resolveMoveTo rel 0 pts c)) =
  match fst (resolveMoveTo rel 0 pts c) with p :: _ => p | [] => subpathStart c end.
Proof.
  destruct pts as [|p rest]; [reflexivity|].
  cbn [resolveMoveTo]. through_loop resolveMoveTo_later_keeps_start.
Qed.

Lemma resolveLineTo_keeps_start (rel : bool) (pts : list Point) :
  forall c : Cursor, subpathStart (snd (resolveLineTo rel pts c)) = subpathStart c.
Proof.
  induction pts as [|p rest IH]; intros c; [reflexivity|].
  cbn [resolveLineTo]. through_loop IH.
Qed.

Lemma resolveHorizontal_keeps_start (rel : bool) (pts : list Point) :
  forall c : Cursor, subpathStart (snd (resolveHorizontal rel pts c)) = subpathStart c.
Proof.
  induction pts as [|p rest IH]; intros c; [reflexivity|].
  cbn [resolveHorizontal]. through_loop IH.
Qed.

Lemma resolveVertical_keeps_start (rel : bool) (pts : list Point) :
  forall c : Cursor, subpathStart (snd (resolveVertical rel pts c)) = subpathStart c.
Proof.
  induction pts as [|p rest IH]; intros c; [reflexivity|].
  cbn [resolveVertical]. through_loop IH.
Qed.

(** One step of [subpathStartOf] follows the variable [subpathStart]. *)
Lemma resolveCommand_start (cmd : PathCommand) (c : Cursor) :
  subpathStart (snd (resolveCommand cmd c)) =
  (if String.eqb (JS.toUpperCase (type (fst (resolveCommand cmd c)))) "M"
   then match points (fst (resolveCommand cmd c)) with
        | p :: _ => p
        | [] => subpathStart c
        end
   else subpathStart c).
Proof.
  unfold resolveCommand, resolvePoints.
  destruct (String.eqb (JS.toUpperCase (type cmd)) "M") eqn:EM;
    [ pose proof (resolveMoveTo_first_sets_start (isRelative cmd) (points cmd) c) as H
    | destruct (String.eqb (JS.toUpperCase (type cmd)) "L");
      [ pose proof (resolveLineTo_keeps_start (isRelative cmd) (points cmd) c) as H
      | destruct (String.eqb (JS.toUpperCase (type cmd)) "H");
        [ pose proof (resolveHorizontal_keeps_start (isRelative cmd) (points cmd) c) as H
        | destruct (String.eqb (JS.toUpperCase (type cmd)) "V");
          [ pose proof (resolveVertical_keeps_start (isRelative cmd) (points cmd) c) as H
          | destruct (String.eqb (JS.toUpperCase (type cmd)) "Z");
            cbn [fst snd type points]; rewrite EM; reflexivity ] ] ] ];
    match type of H with
    | context [snd ?call] =>
        destruct call as [out c2]; cbn [fst snd type points] in *;
        rewrite EM; exact H
    end.
Qed.

Lemma resolveFrom_app (l1 l2 : list PathCommand) :
  forall c : Cursor,
    resolveFrom c (l1 ++ l2) =
    (fst (resolveFrom c l1) ++ fst (resolveFrom (snd (resolveFrom c l1)) l2),
     snd (resolveFrom (snd (resolveFrom c l1)) l2)).
Proof.
  induction l1 as [|cmd rest IH]; intros c.
  - cbn [app resolveFrom fst snd]. destruct (resolveFrom c l2); reflexivity.
  - cbn [app resolveFrom].
    destruct (resolveCommand cmd c) as [r c1].
    rewrite IH.
    destruct (resolveFrom c1 rest) as [rs c2]. cbn [fst snd].
    reflexivity.
Qed.

Lemma resolveFrom_length (cmds : list PathCommand) :
  forall c : Cursor, List.length (fst (resolveFrom c cmds)) = List.length cmds.
Proof.
  induction cmds as [|cmd rest IH]; intros c; [reflexivity|].
  cbn [resolveFrom]. destruct (resolveCommand cmd c) as [r c1].
  specialize (IH c1). destruct (resolveFrom c1 rest) as [rs c2].
  cbn [fst List.length] in *. now rewrite IH.
Qed.

(** The variable [subpathStart] after a run is the point [subpathStartOf]
    reads off the resolved commands. *)
Lemma resolveFrom_start (cmds : list PathCommand) :
  forall c : Cursor,
    subpathStart (snd (resolveFrom c cmds)) =
    fold_left
      (fun start cmd =>
         if String.eqb (JS.toUpperCase (type cmd)) "M"
         then match points cmd with p :: _ => p | [] => start end
         else start)
      (fst (resolveFrom c cmds)) (subpathStart c).
Proof.
  induction cmds as [|cmd rest IH]; intros c; [reflexivity|].
  cbn [resolveFrom].
  pose proof (resolveCommand_start cmd c) as H1.
  destruct (resolveCommand cmd c) as [r c1]. cbn [fst snd] in H1.
  specialize (IH c1). destruct (resolveFrom c1 rest) as [rs c2].
  cbn [fst snd fold_left] in *. rewrite IH, H1. reflexivity.
Qed.

Lemma resolveCommand_closePath (z : PathCommand) (c : Cursor) :
  JS.toUpperCase (type z) = "Z" ->
  resolveCommand z c =
  (mkPathCommand (type z) [subpathStart c] false,
   mkCursor (subpathStartX c) (subpathStartY c) (subpathStartX c) (subpathStartY c)).
Proof.
  intros H. unfold resolveCommand, resolvePoints. rewrite H. reflexivity.
Qed.

(** C6: whatever precedes it, a ClosePath command resolves to exactly one
    point, the first resolved point of the most recent MoveTo that resolved
    a point ((0,0) when there is none), and the cursor after it is that
    point. *)
Theorem closePath_emits_subpath_start
    (pre post : list PathCommand) (z : PathCommand) :
  JS.toUpperCase (type z) = "Z" ->
  let start := subpathStartOf (convertToAbsoluteCoordinates pre) in
  nth_error (convertToAbsoluteCoordinates (pre ++ z :: post)) (List.length pre)
    = Some (mkPathCommand (type z) [start] false)
  /\ current (snd (resolveFrom initialCursor (pre ++ [z]))) = start
  /\ subpathStart (snd (resolveFrom initialCursor (pre ++ [z]))) = start.
Proof.
  intros Hz start.
  assert (Hstart : subpathStart (snd (resolveFrom initialCursor pre)) = start).
  { unfold start, subpathStartOf, convertToAbsoluteCoordinates.
    rewrite resolveFrom_start. reflexivity. }
  unfold convertToAbsoluteCoordinates.
  rewrite !resolveFrom_app. cbn [fst snd resolveFrom].
  rewrite (resolveCommand_closePath z _ Hz).
  destruct (resolveFrom _ post) as [rs c2]. cbn [fst snd].
  repeat split.
  - rewrite nth_error_app2 by (rewrite resolveFrom_length; lia).
    rewrite resolveFrom_length, Nat.sub_diag. cbn [nth_error].
    now rewrite Hstart.
  - rewrite <- Hstart. reflexivity.
  - rewrite <- Hstart. reflexivity.
Qed.

Lemma closePath_emits_subpath_start_witness :
  let pre := [mkPathCommand "M" [mkPoint 3 4; mkPoint 5 5] false;
              mkPathCommand "l" [mkPoint 1 1; mkPoint 2 0; mkPoint 0 7] true] in
  let z := mkPathCommand "z" [] true in
  nth_error (convertToAbsoluteCoordinates (pre ++ z :: [])) 2
    = Some (mkPathCommand "z" [mkPoint 3 4] false)
  /\ current (snd (resolveFrom initialCursor (pre ++ [z]))) = mkPoint 3 4
  /\ subpathStart (snd (resolveFrom initialCursor (pre ++ [z]))) = mkPoint 3 4.
Proof.
  exact (closePath_emits_subpath_start
           [mkPathCommand "M" [mkPoint 3 4; mkPoint 5 5] false;
            mkPathCommand "l" [mkPoint 1 1; mkPoint 2 0; mkPoint 0 7] true]
           [] (mkPathCommand "z" [] true) eq_refl).
Defined.

Lemma resolveCommand_unsupported (u : PathCommand) (c : Cursor) :
  isUnsupported (type u) = true -> resolveCommand u c = (emptied u, c).
Proof.
  unfold isUnsupported. intros H.
  unfold resolveCommand, resolvePoints, emptied.
  repeat (apply orb_prop in H; destruct H as [H|H]);
    apply String.eqb_eq in H; rewrite H; reflexivity.
Qed.

(** C10: a command whose letter is C, S, Q, T or A (either case) resolves
    to its letter with no point and leaves the cursor and the subpath start
    as they were; the commands after it are resolved from the cursor that
    the commands before it left. *)
Theorem unsupported_command_leaves_cursor
    (pre post : list PathCommand) (u : PathCommand) (c : Cursor) :
  isUnsupported (type u) = true ->
  resolveCommand u c = (mkPathCommand (type u) [] false, c)
  /\ resolveFrom c (pre ++ u :: post) =
     (fst (resolveFrom c pre) ++ mkPathCommand (type u) [] false
        :: fst (resolveFrom (snd (resolveFrom c pre)) post),
      snd (resolveFrom (snd (resolveFrom c pre)) post)).
Proof.
  intros Hu. split.
  - exact (resolveCommand_unsupported u c Hu).
  - rewrite resolveFrom_app. cbn [resolveFrom].
    rewrite (resolveCommand_unsupported u _ Hu).
    destruct (resolveFrom (snd (resolveFrom c pre)) post) as [rs c2].
    reflexivity.
Qed.

Lemma unsupported_command_leaves_cursor_witness :
  let pre := [mkPathCommand "M" [mkPoint 1 2] false] in
  let post := [mkPathCommand "l" [mkPoint 10 10] true] in
  let u := mkPathCommand "c" [mkPoint 7 7; mkPoint 8 8; mkPoint 9 9] true in
  isUnsupported (type u) = true
  /\ resolveCommand u initialCursor = (mkPathCommand "c" [] false, initialCursor)
  /\ resolveFrom initialCursor (pre ++ u :: post) =
     ([mkPathCommand "M" [mkPoint 1 2] false;
       mkPathCommand "c" [] false;
       mkPathCommand "l" [mkPoint 11 12] false],
      mkCursor 11 12 1 2).
Proof.
  split; [reflexivity|].
  exact (unsupported_command_leaves_cursor
           [mkPathCommand "M" [mkPoint 1 2] false]
           [mkPathCommand "l" [mkPoint 10 10] true]
           (mkPathCommand "c" [mkPoint 7 7; mkPoint 8 8; mkPoint 9 9] true)
           initialCursor eq_refl).
Defined.

(** ** The round-trip law *)

Lemma getPoints_fold (cmds : list PathCommand) :
  forall acc : list Point,
    fold_left (fun pts cmd => pts ++ points cmd) cmds acc =
    acc ++ getPointsFromCommands cmds.
Proof.
  unfold getPointsFromCommands.
  induction cmds as [|cmd rest IH]; intros acc; cbn [fold_left].
  - now rewrite app_nil_r.
  - rewrite IH, (IH ([] ++ points cmd)). cbn [app]. now rewrite app_assoc.
Qed.

Lemma getPoints_cons (cmd : PathCommand) (cmds : list PathCommand) :
  getPointsFromCommands (cmd :: cmds) = points cmd ++ getPointsFromCommands cmds.
Proof.
  unfold getPointsFromCommands at 1. cbn [fold_left]. now rewrite getPoints_fold.
Qed.

(** Case L never reads the subpath start. *)
Lemma resolveLineTo_ignores_start (rel : bool) (pts : list Point) :
  forall a b sx sy tx ty : float,
    fst (resolveLineTo rel pts (mkCursor a b sx sy))
    = fst (resolveLineTo rel pts (mkCursor a b tx ty))
    /\ current (snd (resolveLineTo rel pts (mkCursor a b sx sy)))
       = current (snd (resolveLineTo rel pts (mkCursor a b tx ty))).
Proof.
  induction pts as [|p rest IH]; intros a b sx sy tx ty; [split; reflexivity|].
  cbn [resolveLineTo currentX currentY subpathStartX subpathStartY].
  specialize (IH (if rel then (a + x p)%float else x p)
                 (if rel then (b + y p)%float else y p) sx sy tx ty).
  destruct (resolveLineTo rel rest (mkCursor _ _ sx sy)) as [o1 d1].
  destruct (resolveLineTo rel rest (mkCursor _ _ tx ty)) as [o2 d2].
  cbn [fst snd] in *. destruct IH as [-> ->]. split; reflexivity.
Qed.

(** Case M emits the points of case L and leaves the same cursor. *)
Lemma resolveMoveTo_as_lineTo (rel : bool) (pts : list Point) :
  forall (i : nat) (c : Cursor),
    fst (resolveMoveTo rel i pts c) = fst (resolveLineTo rel pts c)
    /\ current (snd (resolveMoveTo rel i pts c)) = current (snd (resolveLineTo rel pts c)).
Proof.
  induction pts as [|p rest IH]; intros i c; [split; reflexivity|].
  cbn [resolveMoveTo resolveLineTo].
  set (vx := if rel then (currentX c + x p)%float else x p).
  set (vy := if rel then (currentY c + y p)%float else y p).
  set (c' := match i with
             | O => mkCursor vx vy vx vy
             | S _ => mkCursor vx vy (subpathStartX c) (subpathStartY c)
             end).
  specialize (IH (S i) c').
  assert (H : fst (resolveLineTo rel rest c')
              = fst (resolveLineTo rel rest
                       (mkCursor vx vy (subpathStartX c) (subpathStartY c)))
              /\ current (snd (resolveLineTo rel rest c'))
                 = current (snd (resolveLineTo rel rest
                                   (mkCursor vx vy (subpathStartX c) (subpathStartY c))))).
  { unfold c'. destruct i; apply resolveLineTo_ignores_start. }
  destruct (resolveMoveTo rel (S i) rest c') as [o1 d1].
  destruct (resolveLineTo rel rest (mkCursor vx vy _ _)) as [o2 d2].
  cbn [fst snd] in *.
  destruct IH as [IH1 IH2]. destruct H as [H1 H2].
  rewrite IH1, IH2, H1, H2. split; reflexivity.
Qed.

(** One point of the walk, shared by the three loops: the induction
    hypothesis [IH] is given the exactness of the remaining additions, and
    the check on the point emitted follows from the exactness of its own
    addition.  [reduce] unfolds [exactPoints] by one point in [Hex]. *)
Ltac walk_point IH Htr Hex reduce :=
  let last := fresh "last" in
  let IH1 := fresh "IH1" in
  let IH2 := fresh "IH2" in
  destruct IH as [last [IH1 IH2]];
  [ let Hrel := fresh "Hrel" in
    intros Hrel; specialize (Hex Hrel); reduce;
    apply andb_prop in Hex; destruct Hex as [_ Hex]; subst; exact Hex
  | exists last; rewrite IH1, orb_true_r; split; [|exact IH2];
    unfold tracks in Htr; subst;
    match goal with
    | |- (?ok && true, _, _) = _ => replace ok with true; [reflexivity|]
    end;
    match goal with
    | |- true = match (if ?started then _ else _) with _ => _ end =>
        destruct started; cbv beta iota; [|reflexivity]
    end;
    match goal with
    | |- true = negb ?rel || _ => destruct rel; [|reflexivity]
    end;
    specialize (Hex eq_refl); reduce;
    apply andb_prop in Hex; destruct Hex as [Hex _];
    cbn [negb orb] in *; symmetry; exact Hex ].

(** The walk along the points case L emitted. *)
Lemma roundTripPoints_lineTo (upper : string) (rel : bool) (rest : list Point)
    (raws : list Point) :
  String.eqb upper "H" = false -> String.eqb upper "V" = false ->
  forall (c : Cursor) (started : bool) (prev : option Point),
    tracks started c prev ->
    (rel = true -> exactPoints upper raws started (current c) = true) ->
    exists last : option Point,
      roundTripPoints rel upper raws prev (fst (resolveLineTo rel raws c) ++ rest)
      = (true, last, rest)
      /\ tracks (started || nonEmpty (fst (resolveLineTo rel raws c)))
           (snd (resolveLineTo rel raws c)) last.
Proof.
  intros HH HV.
  induction raws as [|raw raws' IH]; intros c started prev Htr Hex.
  - exists prev. cbn. now rewrite orb_false_r.
  - cbn [resolveLineTo].
    set (vx := if rel then (currentX c + x raw)%float else x raw).
    set (vy := if rel then (currentY c + y raw)%float else y raw).
    set (c1 := mkCursor vx vy (subpathStartX c) (subpathStartY c)).
    specialize (IH c1 true (Some (mkPoint vx vy)) eq_refl).
    destruct (resolveLineTo rel raws' c1) as [out c2] eqn:E.
    cbn [fst snd app roundTripPoints] in *.
    walk_point IH Htr Hex ltac:(cbn [exactPoints] in Hex; rewrite HH, HV in Hex).
Qed.

Lemma roundTripPoints_horizontal (rel : bool) (rest : list Point) (raws : list Point) :
  forall (c : Cursor) (started : bool) (prev : option Point),
    tracks started c prev ->
    (rel = true -> exactPoints "H" raws started (current c) = true) ->
    exists last : option Point,
      roundTripPoints rel "H" raws prev (fst (resolveHorizontal rel raws c) ++ rest)
      = (true, last, rest)
      /\ tracks (started || nonEmpty (fst (resolveHorizontal rel raws c)))
           (snd (resolveHorizontal rel raws c)) last.
Proof.
  induction raws as [|raw raws' IH]; intros c started prev Htr Hex.
  - exists prev. cbn. now rewrite orb_false_r.
  - cbn [resolveHorizontal].
    set (vx := if rel then (currentX c + x raw)%float else x raw).
    set (c1 := mkCursor vx (currentY c) (subpathStartX c) (subpathStartY c)).
    specialize (IH c1 true (Some (mkPoint vx (currentY c))) eq_refl).
    destruct (resolveHorizontal rel raws' c1) as [out c2] eqn:E.
    cbn [fst snd app roundTripPoints] in *.
    walk_point IH Htr Hex
      ltac:(cbn [exactPoints String.eqb Ascii.eqb Bool.eqb] in Hex).
Qed.

Lemma roundTripPoints_vertical (rel : bool) (rest : list Point) (raws : list Point) :
  forall (c : Cursor) (started : bool) (prev : option Point),
    tracks started c prev ->
    (rel = true -> exactPoints "V" raws started (current c) = true) ->
    exists last : option Point,
      roundTripPoints rel "V" raws prev (fst (resolveVertical rel raws c) ++ rest)
      = (true, last, rest)
      /\ tracks (started || nonEmpty (fst (resolveVertical rel raws c)))
           (snd (resolveVertical rel raws c)) last.
Proof.
  induction raws as [|raw raws' IH]; intros c started prev Htr Hex.
  - exists prev. cbn. now rewrite orb_false_r.
  - cbn [resolveVertical].
    set (vy := if rel then (currentY c + y raw)%float else y raw).
    set (c1 := mkCursor (currentX c) vy (subpathStartX c) (subpathStartY c)).
    specialize (IH c1 true (Some (mkPoint (currentX c) vy)) eq_refl).
    destruct (resolveVertical rel raws' c1) as [out c2] eqn:E.
    cbn [fst snd app roundTripPoints] in *.
    walk_point IH Htr Hex
      ltac:(cbn [exactPoints String.eqb Ascii.eqb Bool.eqb] in Hex).
Qed.

Lemma resolveFrom_cons_points (cmd : PathCommand) (rest : list PathCommand) (c : Cursor) :
  getPointsFromCommands (fst (resolveFrom c (cmd :: rest))) =
  fst (resolvePoints cmd c)
  ++ getPointsFromCommands (fst (resolveFrom (snd (resolvePoints cmd c)) rest)).
Proof.
  cbn [resolveFrom]. unfold resolveCommand.
  destruct (resolvePoints cmd c) as [pts c1]. cbn [fst snd].
  destruct (resolveFrom c1 rest) as [rs c2]. cbn [fst snd].
  now rewrite getPoints_cons.
Qed.

(** When every addition of the run is exact, the walk along the resolved
    points succeeds. *)
Lemma roundTrip_resolveFrom (cmds : list PathCommand) :
  forall (c : Cursor) (started : bool) (prev : option Point),
    tracks started c prev ->
    additionsExact cmds started c = true ->
    roundTrip cmds prev (getPointsFromCommands (fst (resolveFrom c cmds))) = true.
Proof.
  induction cmds as [|cmd rest IH]; intros c started prev Htr Hex; [reflexivity|].
  rewrite resolveFrom_cons_points.
  cbn [additionsExact roundTrip] in *.
  apply andb_prop in Hex. destruct Hex as [Hcmd Hrest].
  unfold resolvePoints in *. unfold isLineCommand in *.
  set (upper := JS.toUpperCase (type cmd)) in *.
  destruct (String.eqb upper "M") eqn:EM.
  { apply String.eqb_eq in EM. rewrite EM in *. cbn [orb andb] in *.
    destruct (resolveMoveTo_as_lineTo (isRelative cmd) (points cmd) 0 c) as [Hf Hc].
    rewrite Hf in *.
    destruct (roundTripPoints_lineTo "M" (isRelative cmd)
                (getPointsFromCommands
                   (fst (resolveFrom (snd (resolveMoveTo (isRelative cmd) 0 (points cmd) c)) rest)))
                (points cmd) eq_refl eq_refl c started prev Htr)
      as [last [H1 H2]].
    { intros Hrel. rewrite Hrel in Hcmd. exact Hcmd. }
    rewrite H1. cbn [andb].
    apply (IH _ (started || nonEmpty (fst (resolveLineTo (isRelative cmd) (points cmd) c)))).
    - unfold tracks in *. rewrite Hc. exact H2.
    - exact Hrest. }
  destruct (String.eqb upper "L") eqn:EL.
  { apply String.eqb_eq in EL. rewrite EL in *. cbn [orb andb] in *.
    destruct (roundTripPoints_lineTo "L" (isRelative cmd)
                (getPointsFromCommands
                   (fst (resolveFrom (snd (resolveLineTo (isRelative cmd) (points cmd) c)) rest)))
                (points cmd) eq_refl eq_refl c started prev Htr)
      as [last [H1 H2]].
    { intros Hrel. rewrite Hrel in Hcmd. exact Hcmd. }
    rewrite H1. cbn [andb]. exact (IH _ _ _ H2 Hrest). }
  destruct (String.eqb upper "H") eqn:EH.
  { apply String.eqb_eq in EH. rewrite EH in *. cbn [orb andb] in *.
    destruct (roundTripPoints_horizontal (isRelative cmd)
                (getPointsFromCommands
                   (fst (resolveFrom (snd (resolveHorizontal (isRelative cmd) (points cmd) c)) rest)))
                (points cmd) c started prev Htr)
      as [last [H1 H2]].
    { intros Hrel. rewrite Hrel in Hcmd. exact Hcmd. }
    rewrite H1. cbn [andb]. exact (IH _ _ _ H2 Hrest). }
  destruct (String.eqb upper "V") eqn:EV.
  { apply String.eqb_eq in EV. rewrite EV in *. cbn [orb andb] in *.
    destruct (roundTripPoints_vertical (isRelative cmd)
                (getPointsFromCommands
                   (fst (resolveFrom (snd (resolveVertical (isRelative cmd) (points cmd) c)) rest)))
                (points cmd) c started prev Htr)
      as [last [H1 H2]].
    { intros Hrel. rewrite Hrel in Hcmd. exact Hcmd. }
    rewrite H1. cbn [andb]. exact (IH _ _ _ H2 Hrest). }
  cbn [orb] in *.
  destruct (String.eqb upper "Z") eqn:EZ; cbn [fst snd app] in *.
  - apply (IH _ true); [reflexivity|].
    now rewrite orb_true_r in Hrest.
  - apply (IH _ started); [exact Htr|].
    now rewrite orb_false_r in Hrest.
Qed.

(** The law holds of the whole path when every addition of the run is
    exact. *)
Lemma roundTripLaw_when_all_additions_exact (pathData : string) :
  additionsExact (parsePathCommands pathData) false initialCursor = true ->
  roundTripLaw pathData = true.
Proof.
  intros Hex. unfold roundTripLaw, convertToAbsoluteCoordinates.
  exact (roundTrip_resolveFrom _ initialCursor false None eq_refl Hex).
Qed.

Example roundTripLaw_on_exact_additions :
  roundTripLaw "M 10 10 l 5 0 v 5 h -5 z m 1.5 1 l 2 2" = true.
Proof.
  apply roundTripLaw_when_all_additions_exact. vm_compute. reflexivity.
Qed.

(** *** Point by point *)

Lemma stepsOfPoints_sound (rel : bool) (upper : string) (raws : list Point) :
  forall (prev : option Point) (pts : list Point)
         (steps : list Step) (last : option Point) (rest : list Point),
    stepsOfPoints rel upper raws prev pts = Some (steps, last, rest) ->
    map stepRaw steps = raws
    /\ roundTripPoints rel upper raws prev pts
       = (forallb stepReproduces steps, last, rest).
Proof.
  induction raws as [|raw raws' IH]; intros prev pts steps last rest H.
  - injection H as <- <- <-. split; reflexivity.
  - cbn [stepsOfPoints] in H. destruct pts as [|p pts']; [discriminate H|].
    destruct (stepsOfPoints rel upper raws' (Some p) pts') as [[[ss l] r]|] eqn:E;
      [|discriminate H].
    injection H as <- <- <-.
    destruct (IH _ _ _ _ _ E) as [H1 H2].
    cbn [map stepRaw roundTripPoints forallb]. rewrite H1, H2. split; [reflexivity|].
    unfold stepReproduces at 1. cbn [stepPrev stepRelative stepUpper stepRaw stepPoint].
    reflexivity.
Qed.

Lemma stepsOf_sound (cmds : list PathCommand) :
  forall (prev : option Point) (pts : list Point) (steps : list Step),
    stepsOf cmds prev pts = Some steps ->
    map stepRaw steps = rawPoints cmds
    /\ roundTrip cmds prev pts = forallb stepReproduces steps.
Proof.
  unfold rawPoints.
  induction cmds as [|cmd rest IH]; intros prev pts steps H.
  - injection H as <-. split; reflexivity.
  - cbn [stepsOf roundTrip flat_map] in *.
    destruct (isLineCommand (JS.toUpperCase (type cmd))).
    + destruct (stepsOfPoints (isRelative cmd) (JS.toUpperCase (type cmd))
                  (points cmd) prev pts) as [[[ss last] pts']|] eqn:E;
        [|discriminate H].
      destruct (stepsOf rest last pts') as [others|] eqn:E'; [|discriminate H].
      injection H as <-.
      destruct (stepsOfPoints_sound _ _ _ _ _ _ _ _ E) as [H1 H2].
      destruct (IH _ _ _ E') as [H3 H4].
      rewrite H2, H4, map_app, forallb_app, H1, H3. split; reflexivity.
    + destruct (String.eqb (JS.toUpperCase (type cmd)) "Z").
      * destruct pts as [|p pts']; [discriminate H|].
        exact (IH _ _ _ H).
      * exact (IH _ _ _ H).
Qed.

(** The first step of a loop of the resolver: the predecessor the walk
    carries is the cursor. *)
Lemma advances_from_cursor (upper : string) (rel : bool) (raw : Point)
    (c : Cursor) (started : bool) (prev : option Point) (p : Point) :
  tracks started c prev ->
  (rel = true -> p = advance upper (current c) raw) ->
  advances (mkStep rel upper raw prev p).
Proof.
  intros Htr Hp Hrel q Hq.
  cbn [stepRelative stepPrev stepPoint stepUpper stepRaw] in *.
  unfold tracks in Htr. rewrite Hq in Htr.
  destruct started; [|discriminate Htr].
  injection Htr as ->. exact (Hp Hrel).
Qed.

Lemma stepsOfPoints_lineTo (upper : string) (rel : bool) (rest : list Point)
    (raws : list Point) :
  String.eqb upper "H" = false -> String.eqb upper "V" = false ->
  forall (c : Cursor) (started : bool) (prev : option Point),
    tracks started c prev ->
    exists (steps : list Step) (last : option Point),
      stepsOfPoints rel upper raws prev (fst (resolveLineTo rel raws c) ++ rest)
      = Some (steps, last, rest)
      /\ tracks (started || nonEmpty (fst (resolveLineTo rel raws c)))
           (snd (resolveLineTo rel raws c)) last
      /\ Forall advances steps.
Proof.
  intros HH HV.
  induction raws as [|raw raws' IH]; intros c started prev Htr.
  - exists [], prev. cbn. rewrite orb_false_r. repeat split; [exact Htr | constructor].
  - cbn [resolveLineTo].
    set (vx := if rel then (currentX c + x raw)%float else x raw).
    set (vy := if rel then (currentY c + y raw)%float else y raw).
    set (c1 := mkCursor vx vy (subpathStartX c) (subpathStartY c)).
    destruct (IH c1 true (Some (mkPoint vx vy)) eq_refl) as [ss [last [H1 [H2 H3]]]].
    destruct (resolveLineTo rel raws' c1) as [out c2] eqn:E.
    cbn [fst snd app stepsOfPoints nonEmpty] in *. rewrite H1.
    exists (mkStep rel upper raw prev (mkPoint vx vy) :: ss), last.
    rewrite orb_true_r. split; [reflexivity|]. split; [exact H2|].
    constructor; [|exact H3].
    apply (advances_from_cursor upper rel raw c started prev _ Htr).
    intros Hrel. unfold advance, vx, vy. rewrite HH, HV, Hrel. reflexivity.
Qed.

Lemma stepsOfPoints_horizontal (rel : bool) (rest : list Point) (raws : list Point) :
  forall (c : Cursor) (started : bool) (prev : option Point),
    tracks started c prev ->
    exists (steps : list Step) (last : option Point),
      stepsOfPoints rel "H" raws prev (fst (resolveHorizontal rel raws c) ++ rest)
      = Some (steps, last, rest)
      /\ tracks (started || nonEmpty (fst (resolveHorizontal rel raws c)))
           (snd (resolveHorizontal rel raws c)) last
      /\ Forall advances steps.
Proof.
  induction raws as [|raw raws' IH]; intros c started prev Htr.
  - exists [], prev. cbn. rewrite orb_false_r. repeat split; [exact Htr | constructor].
  - cbn [resolveHorizontal].
    set (vx := if rel then (currentX c + x raw)%float else x raw).
    set (c1 := mkCursor vx (currentY c) (subpathStartX c) (subpathStartY c)).
    destruct (IH c1 true (Some (mkPoint vx (currentY c))) eq_refl)
      as [ss [last [H1 [H2 H3]]]].
    destruct (resolveHorizontal rel raws' c1) as [out c2] eqn:E.
    cbn [fst snd app stepsOfPoints nonEmpty] in *. rewrite H1.
    exists (mkStep rel "H" raw prev (mkPoint vx (currentY c)) :: ss), last.
    rewrite orb_true_r. split; [reflexivity|]. split; [exact H2|].
    constructor; [|exact H3].
    apply (advances_from_cursor "H" rel raw c started prev _ Htr).
    intros Hrel. unfold vx. rewrite Hrel. reflexivity.
Qed.

Lemma stepsOfPoints_vertical (rel : bool) (rest : list Point) (raws : list Point) :
  forall (c : Cursor) (started : bool) (prev : option Point),
    tracks started c prev ->
    exists (steps : list Step) (last : option Point),
      stepsOfPoints rel "V" raws prev (fst (resolveVertical rel raws c) ++ rest)
      = Some (steps, last, rest)
      /\ tracks (started || nonEmpty (fst (resolveVertical rel raws c)))
           (snd (resolveVertical rel raws c)) last
      /\ Forall advances steps.
Proof.
  induction raws as [|raw raws' IH]; intros c started prev Htr.
  - exists [], prev. cbn. rewrite orb_false_r. repeat split; [exact Htr | constructor].
  - cbn [resolveVertical].
    set (vy := if rel then (currentY c + y raw)%float else y raw).
    set (c1 := mkCursor (currentX c) vy (subpathStartX c) (subpathStartY c)).
    destruct (IH c1 true (Some (mkPoint (currentX c) vy)) eq_refl)
      as [ss [last [H1 [H2 H3]]]].
    destruct (resolveVertical rel raws' c1) as [out c2] eqn:E.
    cbn [fst snd app stepsOfPoints nonEmpty] in *. rewrite H1.
    exists (mkStep rel "V" raw prev (mkPoint (currentX c) vy) :: ss), last.
    rewrite orb_true_r. split; [reflexivity|]. split; [exact H2|].
    constructor; [|exact H3].
    apply (advances_from_cursor "V" rel raw c started prev _ Htr).
    intros Hrel. unfold vy. rewrite Hrel. reflexivity.
Qed.

(** The resolved points pair with the raw points, and every step of a
    relative command leads from its predecessor by its raw point: the
    cursor of the resolver is the last point it emitted, across commands,
    after a ClosePath and after a command of another letter. *)
Lemma stepsOf_resolveFrom (cmds : list PathCommand) :
  forall (c : Cursor) (started : bool) (prev : option Point),
    tracks started c prev ->
    exists steps : list Step,
      stepsOf cmds prev (getPointsFromCommands (fst (resolveFrom c cmds))) = Some steps
      /\ Forall advances steps.
Proof.
  induction cmds as [|cmd rest IH]; intros c started prev Htr.
  { exists []. split; [reflexivity | constructor]. }
  rewrite resolveFrom_cons_points.
  cbn [stepsOf]. unfold resolvePoints, isLineCommand.
  set (upper := JS.toUpperCase (type cmd)).
  destruct (String.eqb upper "M") eqn:EM.
  { apply String.eqb_eq in EM. rewrite EM. cbn [orb].
    destruct (resolveMoveTo_as_lineTo (isRelative cmd) (points cmd) 0 c) as [Hf Hc].
    rewrite Hf.
    destruct (stepsOfPoints_lineTo "M" (isRelative cmd)
                (getPointsFromCommands
                   (fst (resolveFrom (snd (resolveMoveTo (isRelative cmd) 0 (points cmd) c)) rest)))
                (points cmd) eq_refl eq_refl c started prev Htr)
      as [ss [last [H1 [H2 H3]]]].
    rewrite H1.
    destruct (IH (snd (resolveMoveTo (isRelative cmd) 0 (points cmd) c))
                (started || nonEmpty (fst (resolveLineTo (isRelative cmd) (points cmd) c)))
                last) as [others [H4 H5]].
    { unfold tracks in *. rewrite Hc. exact H2. }
    rewrite H4. exists (ss ++ others). split; [reflexivity|].
    apply Forall_app. split; assumption. }
  destruct (String.eqb upper "L") eqn:EL.
  { apply String.eqb_eq in EL. rewrite EL. cbn [orb].
    destruct (stepsOfPoints_lineTo "L" (isRelative cmd)
                (getPointsFromCommands
                   (fst (resolveFrom (snd (resolveLineTo (isRelative cmd) (points cmd) c)) rest)))
                (points cmd) eq_refl eq_refl c started prev Htr)
      as [ss [last [H1 [H2 H3]]]].
    rewrite H1. destruct (IH _ _ _ H2) as [others [H4 H5]].
    rewrite H4. exists (ss ++ others). split; [reflexivity|].
    apply Forall_app. split; assumption. }
  destruct (String.eqb upper "H") eqn:EH.
  { apply String.eqb_eq in EH. rewrite EH. cbn [orb].
    destruct (stepsOfPoints_horizontal (isRelative cmd)
                (getPointsFromCommands
                   (fst (resolveFrom (snd (resolveHorizontal (isRelative cmd) (points cmd) c)) rest)))
                (points cmd) c started prev Htr)
      as [ss [last [H1 [H2 H3]]]].
    rewrite H1. destruct (IH _ _ _ H2) as [others [H4 H5]].
    rewrite H4. exists (ss ++ others). split; [reflexivity|].
    apply Forall_app. split; assumption. }
  destruct (String.eqb upper "V") eqn:EV.
  { apply String.eqb_eq in EV. rewrite EV. cbn [orb].
    destruct (stepsOfPoints_vertical (isRelative cmd)
                (getPointsFromCommands
                   (fst (resolveFrom (snd (resolveVertical (isRelative cmd) (points cmd) c)) rest)))
                (points cmd) c started prev Htr)
      as [ss [last [H1 [H2 H3]]]].
    rewrite H1. destruct (IH _ _ _ H2) as [others [H4 H5]].
    rewrite H4. exists (ss ++ others). split; [reflexivity|].
    apply Forall_app. split; assumption. }
  cbn [orb].
  destruct (String.eqb upper "Z") eqn:EZ; cbn [fst snd app].
  - apply (IH _ true). reflexivity.
  - apply (IH _ started). exact Htr.
Qed.

(** C7, as the code has it, point by point.  The resolved polyline pairs
    with the raw points of the commands M, L, H and V of the source, and
    the law of the whole path is the conjunction of its steps.  For each
    point of a relative command that has a predecessor in the polyline,
    the resolved point is the binary64 sum of the predecessor and the raw
    delta, so the displacement re-derived from the two points reproduces
    the delta exactly when this one addition was exact, that is, when
    subtracting the predecessor from the sum gives the delta back,
    whatever the other additions of the path did. *)
Theorem roundTrip_when_additions_exact (pathData : string) :
  exists steps : list Step,
    roundTripSteps pathData = Some steps
    /\ map stepRaw steps = rawPoints (parsePathCommands pathData)
    /\ roundTripLaw pathData = forallb stepReproduces steps
    /\ (forall (s : Step) (q : Point),
           In s steps -> stepRelative s = true -> stepPrev s = Some q ->
           stepPoint s = advance (stepUpper s) q (stepRaw s)
           /\ reproduces (stepUpper s) (stepRaw s) q (stepPoint s)
              = additionExact (stepUpper s) q (stepRaw s)).
Proof.
  unfold roundTripSteps, roundTripLaw, convertToAbsoluteCoordinates.
  destruct (stepsOf_resolveFrom (parsePathCommands pathData) initialCursor false None
              eq_refl) as [steps [H1 H2]].
  exists steps. split; [exact H1|].
  destruct (stepsOf_sound _ _ _ _ H1) as [H3 H4].
  split; [exact H3|]. split; [exact H4|].
  intros s q Hs Hrel Hq.
  rewrite Forall_forall in H2.
  pose proof (H2 s Hs Hrel q Hq) as Hp.
  split; [exact Hp|]. unfold additionExact. now rewrite <- Hp.
Qed.

(** On [M0.1,0 l0.2,0 l1,0] the first addition [0.1 + 0.2] is rounded and
    the second, of 1, is exact: the second delta is reproduced, the first
    is not. *)
Lemma roundTrip_when_additions_exact_witness :
  let q1 := mkPoint 0.1 0 in
  let q2 := mkPoint (0.1 + 0.2) 0 in
  let q3 := mkPoint (0.1 + 0.2 + 1) 0 in
  roundTripSteps "M0.1,0 l0.2,0 l1,0"
  = Some [mkStep false "M" (mkPoint 0.1 0) None q1;
          mkStep true "L" (mkPoint 0.2 0) (Some q1) q2;
          mkStep true "L" (mkPoint 1 0) (Some q2) q3]
  /\ (q3 = advance "L" q2 (mkPoint 1 0)
      /\ reproduces "L" (mkPoint 1 0) q2 q3 = additionExact "L" q2 (mkPoint 1 0))
  /\ additionExact "L" q2 (mkPoint 1 0) = true
  /\ additionExact "L" q1 (mkPoint 0.2 0) = false.
Proof.
  intros q1 q2 q3.
  destruct (roundTrip_when_additions_exact "M0.1,0 l0.2,0 l1,0")
    as [steps [Hsteps [_ [_ Hpoint]]]].
  assert (E : roundTripSteps "M0.1,0 l0.2,0 l1,0"
              = Some [mkStep false "M" (mkPoint 0.1 0) None q1;
                      mkStep true "L" (mkPoint 0.2 0) (Some q1) q2;
                      mkStep true "L" (mkPoint 1 0) (Some q2) q3])
    by (vm_compute; reflexivity).
  split; [exact E|].
  rewrite E in Hsteps. injection Hsteps as <-.
  split.
  - apply (Hpoint (mkStep true "L" (mkPoint 1 0) (Some q2) q3) q2).
    + right. right. left. reflexivity.
    + reflexivity.
    + reflexivity.
  - split; vm_compute; reflexivity.
Defined.

(** C7, as the specification states it, fails: [0.1 + 0.2] is rounded, and
    the displacement from [(0.1, 0)] to the resolved [(0.1 + 0.2, 0)] is
    not the delta [0.2] of the source. *)
Lemma roundTrip_fails_on_rounded_sum :
  parsePathCommands "M0.1,0 l0.2,0"
  = [mkPathCommand "M" [mkPoint 0.1 0] false; mkPathCommand "l" [mkPoint 0.2 0] true]
  /\ getPointsFromCommands
       (convertToAbsoluteCoordinates (parsePathCommands "M0.1,0 l0.2,0"))
     = [mkPoint 0.1 0; mkPoint (0.1 + 0.2) 0]
  /\ PrimFloat.eqb (0.1 + 0.2 - 0.1) 0.2 = false
  /\ roundTripLaw "M0.1,0 l0.2,0" = false.
Proof. vm_compute. repeat split. Qed.

(** ** The direction of a trace *)

Module Binary64.

(** Facts of binary64 arithmetic, from the specification [SpecFloat] of
    the primitive operations. *)

Lemma two_spec : Prim2SF 2 = S754_finite false 4503599627370496 (-51).
Proof. reflexivity. Qed.

Lemma digits_shl52 (m : positive) :
  Z.pos (digits2_pos (shl52 m)) = (Z.pos (digits2_pos m) + 52)%Z.
Proof. unfold shl52. cbn [digits2_pos]. lia. Qed.

Lemma shr_shl52_by_52 (m : positive) (e : Z) :
  shr (shr_record_of_loc (Z.pos (shl52 m)) loc_Exact) e 52 =
  ({| shr_m := Z.pos m; shr_r := false; shr_s := false |}, (e + 52)%Z).
Proof. reflexivity. Qed.

Lemma shr_shl52_by_51 (m : positive) (e : Z) :
  shr (shr_record_of_loc (Z.pos (shl52 m)) loc_Exact) e 51 =
  ({| shr_m := Z.pos m~0; shr_r := false; shr_s := false |}, (e + 51)%Z).
Proof. reflexivity. Qed.

(** Twice a finite non-negative number is not below it: the product is
    the same mantissa one exponent up, or twice the mantissa of a
    subnormal number, or +Infinity. *)
Lemma double_finite_not_below (m : positive) (e : Z) :
  bounded prec emax m e = true ->
  SFltb (SFmul prec emax (S754_finite false m e)
           (S754_finite false 4503599627370496 (-51)))
        (S754_finite false m e) = false.
Proof.
  intros Hb. unfold bounded, canonical_mantissa, fexp in Hb.
  apply andb_prop in Hb. destruct Hb as [Hc He].
  apply Z.eqb_eq in Hc. apply Z.leb_le in He.
  change (SpecFloat.emin prec emax) with (-1074)%Z in Hc.
  change prec with 53%Z in *. change emax with 1024%Z in *.
  unfold SFmul, binary_round_aux, shr_fexp, Zdigits2.
  rewrite (Pos.mul_comm m).
  change (4503599627370496 * m)%positive with (shl52 m).
  rewrite digits_shl52.
  set (d := Z.pos (digits2_pos m)) in *.
  unfold fexp. change (SpecFloat.emin 53 1024) with (-1074)%Z.
  assert (Hd : (0 < d)%Z) by (unfold d; lia).
  destruct (Z.max_spec (d + e - 53) (-1074)) as [[Hlt Hm]|[Hge Hm]].
  - (* subnormal: the mantissa doubles *)
    replace (Z.max (d + 52 + (e + -51) - 53) (-1074) - (e + -51))%Z
      with 51%Z by lia.
    rewrite shr_shl52_by_51.
    cbn [shr_m loc_of_shr_record shr_r shr_s round_nearest_even].
    cbn [Zdigits2 digits2_pos]. rewrite Pos2Z.inj_succ. fold d.
    replace (Z.max (Z.succ d + (e + -51 + 51) - 53) (-1074) - (e + -51 + 51))%Z
      with 0%Z by lia.
    cbn [shr shr_record_of_loc shr_m xorb].
    replace (e + -51 + 51 <=? 1024 - 53)%Z with true
      by (symmetry; apply Z.leb_le; lia).
    unfold SFltb, SFcompare.
    replace (e + -51 + 51)%Z with e by lia. rewrite Z.compare_refl.
    change (Pos.compare_cont Eq m~0 m) with (Pos.compare m~0 m).
    replace (m~0 ?= m)%positive with Gt
      by (symmetry; apply Pos.compare_gt_iff; lia).
    reflexivity.
  - (* normal: the exponent goes up by one, or the product overflows *)
    replace (Z.max (d + 52 + (e + -51) - 53) (-1074) - (e + -51))%Z
      with 52%Z by lia.
    rewrite shr_shl52_by_52.
    cbn [shr_m loc_of_shr_record shr_r shr_s round_nearest_even].
    cbn [Zdigits2]. fold d.
    replace (Z.max (d + (e + -51 + 52) - 53) (-1074) - (e + -51 + 52))%Z
      with 0%Z by lia.
    cbn [shr shr_record_of_loc shr_m xorb].
    unfold SFltb.
    destruct (e + -51 + 52 <=? 1024 - 53)%Z; [|reflexivity].
    unfold SFcompare.
    replace (e + -51 + 52 ?= e)%Z with Gt
      by (symmetry; apply Z.compare_gt_iff; lia).
    reflexivity.
Qed.

(** For every number [v], [Math.abs(v) > Math.abs(v) * 2] is false. *)
Lemma abs_not_above_double (v : float) :
  JS.gt (JS.Math_abs v) (JS.Math_abs v * 2)%float = false.
Proof.
  unfold JS.gt, JS.Math_abs.
  rewrite ltb_spec, mul_spec, abs_spec, two_spec.
  pose proof (Prim2SF_valid v) as Hv.
  destruct (Prim2SF v) as [s|s| |s m e]; try reflexivity.
  cbn [SFabs]. apply double_finite_not_below. exact Hv.
Qed.

End Binary64.

Lemma classifyDirection_tie (s e : Point) :
  JS.Math_abs (x e - x s)%float = JS.Math_abs (y e - y s)%float ->
  classifyDirection s e = "diagonal".
Proof.
  intros H. unfold classifyDirection.
  rewrite H at 1. rewrite Binary64.abs_not_above_double.
  rewrite <- H. rewrite Binary64.abs_not_above_double.
  reflexivity.
Qed.

(** C8: the path [M0,0 L10,0 L10,10] is analysed to the points
    (0,0), (10,0), (10,10), start (0,0), end (10,10) and direction
    [diagonal]; and for every trace with two points or more whose start and
    end satisfy [|dx| = |dy|], neither threshold test holds and the
    direction is [diagonal]. *)
Theorem direction_tie_is_diagonal :
  (forall t : Trace,
      pathData t = "M0,0 L10,0 L10,10" ->
      allPoints (analyzeTrace t) = [mkPoint 0 0; mkPoint 10 0; mkPoint 10 10]
      /\ startPoint (analyzeTrace t) = Some (mkPoint 0 0)
      /\ endPoint (analyzeTrace t) = Some (mkPoint 10 10)
      /\ direction (analyzeTrace t) = "diagonal")
  /\ (forall (t : Trace) (s e : Point),
        (2 <= List.length (allPoints (analyzeTrace t)))%nat ->
        startPoint (analyzeTrace t) = Some s ->
        endPoint (analyzeTrace t) = Some e ->
        JS.Math_abs (x e - x s)%float = JS.Math_abs (y e - y s)%float ->
        JS.gt (JS.Math_abs (x e - x s)) (JS.Math_abs (y e - y s) * 2)%float = false
        /\ JS.gt (JS.Math_abs (y e - y s)) (JS.Math_abs (x e - x s) * 2)%float = false
        /\ direction (analyzeTrace t) = "diagonal").
Proof.
  split.
  - intros t Ht. unfold analyzeTrace. rewrite Ht.
    cbn [allPoints startPoint endPoint direction]. vm_compute. repeat split.
  - intros t s e Hlen Hs He Htie. repeat split.
    + rewrite Htie. apply Binary64.abs_not_above_double.
    + rewrite <- Htie. apply Binary64.abs_not_above_double.
    + unfold analyzeTrace in *.
      cbn [allPoints startPoint endPoint direction] in *.
      rewrite Hs, He.
      apply Nat.leb_le in Hlen. rewrite Hlen.
      now apply classifyDirection_tie.
Qed.

Lemma direction_tie_is_diagonal_witness :
  let t1 := mkTrace "trace-1" "M0,0 L10,0 L10,10" 1 None None None None in
  let t2 := mkTrace "trace-2" "M1,1 l3,0 v-3" 1 None None None None in
  direction (analyzeTrace t1) = "diagonal"
  /\ startPoint (analyzeTrace t2) = Some (mkPoint 1 1)
  /\ endPoint (analyzeTrace t2) = Some (mkPoint 4 (-2))
  /\ direction (analyzeTrace t2) = "diagonal".
Proof.
  pose (t1 := mkTrace "trace-1" "M0,0 L10,0 L10,10" 1 None None None None).
  pose (t2 := mkTrace "trace-2" "M1,1 l3,0 v-3" 1 None None None None).
  destruct direction_tie_is_diagonal as [Hscenario Htie].
  split; [exact (proj2 (proj2 (proj2 (Hscenario t1 eq_refl))))|].
  split; [reflexivity|]. split; [reflexivity|].
  refine (proj2 (proj2 (Htie t2 (mkPoint 1 1) (mkPoint 4 (-2)) _ _ _ _))).
  - vm_compute. lia.
  - reflexivity.
  - reflexivity.
  - reflexivity.
Defined.

(** ** The connectivity builder *)

Lemma traceId_setConnected (t : AnalyzedTrace) (l : list string) :
  traceId (setConnected t l) = traceId t.
Proof. reflexivity. Qed.

Lemma traceId_pushConnected (b : string) (t : AnalyzedTrace) :
  traceId (pushConnected b t) = traceId t.
Proof.
  unfold pushConnected. destruct (connectedTraces t) as [l|]; [|reflexivity].
  destruct (JS.includes l b); reflexivity.
Qed.

Lemma traceId_initConnected (t : AnalyzedTrace) :
  traceId (initConnected t) = traceId t.
Proof. unfold initConnected. destruct (connectedTraces t); reflexivity. Qed.

Lemma endpointsOf_pushConnected (b : string) (t : AnalyzedTrace) :
  endpointsOf (pushConnected b t) = endpointsOf t.
Proof.
  unfold pushConnected. destruct (connectedTraces t) as [l|]; [|reflexivity].
  destruct (JS.includes l b); reflexivity.
Qed.

Lemma endpointsOf_initConnected (t : AnalyzedTrace) :
  endpointsOf (initConnected t) = endpointsOf t.
Proof. unfold initConnected. destruct (connectedTraces t); reflexivity. Qed.

Lemma includes_In (l : list string) (s : string) :
  JS.includes l s = true <-> In s l.
Proof.
  unfold JS.includes. rewrite existsb_exists. split.
  - intros [z [Hz He]]. apply String.eqb_eq in He. now subst z.
  - intros H. exists s. split; [exact H | apply String.eqb_refl].
Qed.

(** What a push adds to a trace that has its array. *)
Lemma connected_pushConnected (b : string) (t : AnalyzedTrace) (z : string) :
  connectedTraces t <> None ->
  (In z (connected (pushConnected b t)) <-> In z (connected t) \/ z = b).
Proof.
  intros Hinit. unfold pushConnected, connected.
  destruct (connectedTraces t) as [l|] eqn:E; [|congruence].
  destruct (JS.includes l b) eqn:Ei.
  - rewrite E. apply includes_In in Ei. split; [tauto|].
    intros [H|H]; [exact H | now subst z].
  - cbn [connectedTraces setConnected]. rewrite in_app_iff. cbn [In].
    split; intros [H|H]; auto.
    + destruct H as [H|[]]; auto.
Qed.

Lemma NoDup_pushConnected (b : string) (t : AnalyzedTrace) :
  NoDup (connected t) -> NoDup (connected (pushConnected b t)).
Proof.
  intros Hnd. unfold pushConnected, connected in *.
  destruct (connectedTraces t) as [l|] eqn:E; [|now rewrite E].
  destruct (JS.includes l b) eqn:Ei; [now rewrite E|].
  cbn [connectedTraces setConnected].
  apply NoDup_app; [exact Hnd | repeat constructor; intros [] |].
  intros z Hz [Hb|[]]. subst z.
  apply includes_In in Hz. congruence.
Qed.

Lemma initialised_pushConnected (b : string) (t : AnalyzedTrace) :
  connectedTraces t <> None -> connectedTraces (pushConnected b t) <> None.
Proof.
  unfold pushConnected. destruct (connectedTraces t) as [l|] eqn:E; [|congruence].
  destruct (JS.includes l b); [now rewrite E | discriminate].
Qed.

(** A push of an id that is there already changes nothing. *)
Lemma pushConnected_present (b : string) (t : AnalyzedTrace) :
  In b (connected t) -> pushConnected b t = t.
Proof.
  unfold pushConnected, connected.
  destruct (connectedTraces t) as [l|]; [|reflexivity].
  intros H. apply includes_In in H. now rewrite H.
Qed.

(** *** One pair *)

Lemma id_pushConnected (b : string) (t : AnalyzedTrace) :
  id (trace (pushConnected b t)) = id (trace t).
Proof. exact (traceId_pushConnected b t). Qed.

Lemma findTrace_connectIn (a b i : string) (ts : list AnalyzedTrace) :
  findTrace i (connectIn a b ts) =
  if String.eqb i a then option_map (pushConnected b) (findTrace i ts)
  else findTrace i ts.
Proof.
  unfold findTrace, traceId.
  induction ts as [|t rest IH]; cbn [connectIn find].
  - now destruct (String.eqb i a).
  - destruct (String.eqb (id (trace t)) a) eqn:Ea.
    + cbn [find]. rewrite id_pushConnected.
      apply String.eqb_eq in Ea. rewrite Ea.
      rewrite (String.eqb_sym i a).
      destruct (String.eqb a i); reflexivity.
    + cbn [find]. destruct (String.eqb (id (trace t)) i) eqn:Ei.
      * apply String.eqb_eq in Ei. rewrite Ei in Ea. now rewrite Ea.
      * exact IH.
Qed.

Lemma connectIn_ids (a b : string) (ts : list AnalyzedTrace) :
  map endpointsOf (connectIn a b ts) = map endpointsOf ts.
Proof.
  induction ts as [|t rest IH]; [reflexivity|]. cbn [connectIn].
  destruct (String.eqb (id (trace t)) a); cbn [map].
  - now rewrite endpointsOf_pushConnected.
  - now rewrite IH.
Qed.

Lemma connectIn_initialised (a b : string) (ts : list AnalyzedTrace) :
  allInitialised ts -> allInitialised (connectIn a b ts).
Proof.
  unfold allInitialised. induction ts as [|t rest IH]; intros H u Hu; [destruct Hu|].
  cbn [connectIn] in Hu. destruct (String.eqb (id (trace t)) a).
  - destruct Hu as [<-|Hu].
    + apply initialised_pushConnected, H. now left.
    + apply H. now right.
  - destruct Hu as [<-|Hu].
    + apply H. now left.
    + apply IH; [|exact Hu]. intros v Hv. apply H. now right.
Qed.

Lemma connectIn_duplicateFree (a b : string) (ts : list AnalyzedTrace) :
  duplicateFree ts -> duplicateFree (connectIn a b ts).
Proof.
  unfold duplicateFree. induction ts as [|t rest IH]; intros H u Hu; [destruct Hu|].
  cbn [connectIn] in Hu. destruct (String.eqb (id (trace t)) a).
  - destruct Hu as [<-|Hu].
    + apply NoDup_pushConnected, H. now left.
    + apply H. now right.
  - destruct Hu as [<-|Hu].
    + apply H. now left.
    + apply IH; [|exact Hu]. intros v Hv. apply H. now right.
Qed.

(** A pair whose target holds the id already is a no-op. *)
Lemma connectIn_present (a b : string) (ts : list AnalyzedTrace) :
  (forall t : AnalyzedTrace, findTrace a ts = Some t -> In b (connected t)) ->
  connectIn a b ts = ts.
Proof.
  unfold findTrace, traceId.
  induction ts as [|t rest IH]; intros H; [reflexivity|].
  cbn [connectIn find] in *.
  destruct (String.eqb (id (trace t)) a).
  - f_equal. apply pushConnected_present. now apply H.
  - f_equal. apply IH. exact H.
Qed.

Lemma findTrace_In (i : string) (ts : list AnalyzedTrace) (t : AnalyzedTrace) :
  findTrace i ts = Some t -> In t ts /\ traceId t = i.
Proof.
  unfold findTrace. intros H. apply find_some in H. destruct H as [H1 H2].
  apply String.eqb_eq in H2. now split.
Qed.

(** With distinct ids, [find] returns the trace one has in hand. *)
Lemma In_findTrace (ts : list AnalyzedTrace) (t : AnalyzedTrace) :
  NoDup (map traceId ts) -> In t ts -> findTrace (traceId t) ts = Some t.
Proof.
  unfold findTrace. induction ts as [|u rest IH]; intros Hnd Hin; [destruct Hin|].
  cbn [map] in Hnd. inversion Hnd as [|? ? Hnotin Hnd']; subst.
  cbn [find]. destruct Hin as [->|Hin].
  - now rewrite String.eqb_refl.
  - destruct (String.eqb (traceId u) (traceId t)) eqn:E.
    + apply String.eqb_eq in E. exfalso. apply Hnotin. rewrite E.
      now apply in_map.
    + now apply IH.
Qed.

Lemma connectPair_endpoints (ts : list AnalyzedTrace) (a b : string) :
  map endpointsOf (connectPair ts a b) = map endpointsOf ts.
Proof.
  unfold connectPair. destruct (String.eqb a b); [reflexivity|].
  apply connectIn_ids.
Qed.

Lemma connectPair_initialised (ts : list AnalyzedTrace) (a b : string) :
  allInitialised ts -> allInitialised (connectPair ts a b).
Proof.
  unfold connectPair. destruct (String.eqb a b); [tauto|].
  apply connectIn_initialised.
Qed.

Lemma connectPair_duplicateFree (ts : list AnalyzedTrace) (a b : string) :
  duplicateFree ts -> duplicateFree (connectPair ts a b).
Proof.
  unfold connectPair. destruct (String.eqb a b); [tauto|].
  apply connectIn_duplicateFree.
Qed.

Lemma findTrace_connectPair_none (ts : list AnalyzedTrace) (a b i : string) :
  findTrace i (connectPair ts a b) = None <-> findTrace i ts = None.
Proof.
  unfold connectPair. destruct (String.eqb a b); [tauto|].
  rewrite findTrace_connectIn.
  destruct (String.eqb i a); [|tauto].
  destruct (findTrace i ts); cbn [option_map]; split; congruence.
Qed.

(** What one pair adds. *)
Lemma linked_connectPair (ts : list AnalyzedTrace) (a b i z : string) :
  allInitialised ts ->
  (linked (connectPair ts a b) i z <->
   linked ts i z \/ (i = a /\ z = b /\ a <> b /\ findTrace a ts <> None)).
Proof.
  intros Hinit. unfold connectPair, linked.
  destruct (String.eqb a b) eqn:Eab.
  - apply String.eqb_eq in Eab. split; [tauto|].
    intros [H|[_ [_ [H _]]]]; [exact H | contradiction].
  - apply String.eqb_neq in Eab.
    destruct (String.eqb i a) eqn:Eia.
    + apply String.eqb_eq in Eia. subst i. split.
      * intros [t [Hf Hz]]. rewrite findTrace_connectIn, String.eqb_refl in Hf.
        destruct (findTrace a ts) as [u|] eqn:Eu; [|discriminate].
        cbn [option_map] in Hf. injection Hf as <-.
        apply connected_pushConnected in Hz.
        -- destruct Hz as [Hz|Hz].
           ++ left. now exists u.
           ++ right. repeat split; [exact Hz | exact Eab | congruence].
        -- apply Hinit. apply findTrace_In in Eu. tauto.
      * intros [[t [Hf Hz]]|[_ [Hz [_ Hsome]]]].
        -- exists (pushConnected b t).
           rewrite findTrace_connectIn, String.eqb_refl, Hf. split; [reflexivity|].
           apply connected_pushConnected; [|now left].
           apply Hinit. apply findTrace_In in Hf. tauto.
        -- destruct (findTrace a ts) as [u|] eqn:Eu; [|congruence].
           exists (pushConnected b u).
           rewrite findTrace_connectIn, String.eqb_refl, Eu. split; [reflexivity|].
           apply connected_pushConnected; [|now right].
           apply Hinit. apply findTrace_In in Eu. tauto.
    + apply String.eqb_neq in Eia. split.
      * intros [t [Hf Hz]]. rewrite findTrace_connectIn in Hf.
        apply String.eqb_neq in Eia. rewrite Eia in Hf. left. now exists t.
      * intros [[t [Hf Hz]]|[Hia _]]; [|contradiction].
        exists t. rewrite findTrace_connectIn.
        apply String.eqb_neq in Eia. rewrite Eia. now split.
Qed.

(** *** A run *)

Lemma connectAll_endpoints (pairs : list (string * string)) :
  forall ts : list AnalyzedTrace,
    map endpointsOf (connectAll ts pairs) = map endpointsOf ts.
Proof.
  unfold connectAll.
  induction pairs as [|p rest IH]; intros ts; [reflexivity|].
  cbn [fold_left]. now rewrite IH, connectPair_endpoints.
Qed.

Lemma connectAll_initialised (pairs : list (string * string)) :
  forall ts : list AnalyzedTrace,
    allInitialised ts -> allInitialised (connectAll ts pairs).
Proof.
  unfold connectAll.
  induction pairs as [|p rest IH]; intros ts H; [exact H|].
  cbn [fold_left]. apply IH. now apply connectPair_initialised.
Qed.

Lemma connectAll_duplicateFree (pairs : list (string * string)) :
  forall ts : list AnalyzedTrace,
    duplicateFree ts -> duplicateFree (connectAll ts pairs).
Proof.
  unfold connectAll.
  induction pairs as [|p rest IH]; intros ts H; [exact H|].
  cbn [fold_left]. apply IH. now apply connectPair_duplicateFree.
Qed.

(** What a run adds: [i] lists [z] after it exactly when it did before, or
    the pair [(i, z)] was visited, [i] differs from [z] and [find] returns
    a trace for [i]. *)
Lemma linked_connectAll (pairs : list (string * string)) :
  forall (ts : list AnalyzedTrace) (i z : string),
    allInitialised ts ->
    (linked (connectAll ts pairs) i z <->
     linked ts i z \/ (In (i, z) pairs /\ i <> z /\ findTrace i ts <> None)).
Proof.
  unfold connectAll.
  induction pairs as [|[a b] rest IH]; intros ts i z Hinit.
  - cbn [fold_left In]. tauto.
  - cbn [fold_left fst snd].
    rewrite IH by now apply connectPair_initialised.
    rewrite linked_connectPair by exact Hinit.
    rewrite (findTrace_connectPair_none ts a b i).
    cbn [In]. split.
    + intros [[H|[-> [-> [Hab Hf]]]]|[Hin [Hiz Hf]]].
      * now left.
      * right. repeat split; auto.
      * right. repeat split; auto.
    + intros [H|[[Heq|Hin] [Hiz Hf]]].
      * left. now left.
      * injection Heq as -> ->. left. right. repeat split; auto.
      * right. repeat split; auto.
Qed.

Lemma fold_left_flat_map {A B C : Type} (f : A -> C -> A) (g : B -> list C)
    (l : list B) :
  forall acc : A,
    fold_left f (flat_map g l) acc = fold_left (fun a b => fold_left f (g b) a) l acc.
Proof.
  induction l as [|b l IH]; intros acc; [reflexivity|].
  cbn [flat_map fold_left]. now rewrite fold_left_app, IH.
Qed.

Lemma fold_left_map {A B C : Type} (f : A -> C -> A) (h : B -> C) (l : list B) :
  forall acc : A,
    fold_left f (map h l) acc = fold_left (fun a b => f a (h b)) l acc.
Proof.
  induction l as [|b l IH]; intros acc; [reflexivity|].
  cbn [map fold_left]. now rewrite IH.
Qed.

Lemma fold_left_pointwise {A B : Type} (f g : A -> B -> A) (l : list B) :
  (forall (a : A) (b : B), f a b = g a b) ->
  forall acc : A, fold_left f l acc = fold_left g l acc.
Proof.
  intros H. induction l as [|b l IH]; intros acc; [reflexivity|].
  cbn [fold_left]. now rewrite H, IH.
Qed.

(** The nested [forEach] visit the pairs of the junction one after the
    other. *)
Lemma connectJunction_pairs (ts : list AnalyzedTrace) (junction : Junction) :
  connectJunction ts junction = connectAll ts (pairsOf junction).
Proof.
  unfold connectJunction, connectAll, pairsOf.
  rewrite fold_left_flat_map.
  apply fold_left_pointwise. intros ts1 id1. now rewrite fold_left_map.
Qed.

Lemma updateTraceConnectivity_pairs (ts : list AnalyzedTrace) (junctions : list Junction) :
  updateTraceConnectivity ts junctions =
  connectAll (map initConnected ts) (flat_map pairsOf junctions).
Proof.
  unfold updateTraceConnectivity, connectAll.
  rewrite fold_left_flat_map.
  apply fold_left_pointwise. intros ts1 j. apply connectJunction_pairs.
Qed.

Lemma In_pairsOf (junction : Junction) (a b : string) :
  In (a, b) (pairsOf junction) <->
  In a (traceIds junction) /\ In b (traceIds junction).
Proof.
  unfold pairsOf. rewrite in_flat_map. split.
  - intros [i [Hi Hp]]. apply in_map_iff in Hp. destruct Hp as [k [Hk Hb]].
    injection Hk as -> ->. now split.
  - intros [Ha Hb]. exists a. split; [exact Ha|]. now apply in_map.
Qed.

(** The pairs a run visits come in both orders. *)
Lemma In_pairs_sym (junctions : list Junction) (a b : string) :
  In (a, b) (flat_map pairsOf junctions) -> In (b, a) (flat_map pairsOf junctions).
Proof.
  rewrite !in_flat_map. intros [j [Hj Hp]]. exists j. split; [exact Hj|].
  apply In_pairsOf in Hp. apply In_pairsOf. tauto.
Qed.

Lemma initConnected_initialised (ts : list AnalyzedTrace) :
  allInitialised (map initConnected ts).
Proof.
  intros t Ht. apply in_map_iff in Ht. destruct Ht as [u [<- _]].
  unfold initConnected. destruct (connectedTraces u) eqn:E; [now rewrite E|].
  discriminate.
Qed.

Lemma connected_initConnected (t : AnalyzedTrace) :
  connected (initConnected t) = connected t.
Proof.
  unfold initConnected, connected. now destruct (connectedTraces t) eqn:E; [rewrite E|].
Qed.

Lemma traceId_of_endpoints (ts ts' : list AnalyzedTrace) :
  map endpointsOf ts = map endpointsOf ts' -> map traceId ts = map traceId ts'.
Proof.
  intros H.
  assert (G : forall l, map traceId l = map (fun e => fst (fst e)) (map endpointsOf l)).
  { intros l. rewrite map_map. reflexivity. }
  now rewrite !G, H.
Qed.

Lemma updateTraceConnectivity_endpoints (ts : list AnalyzedTrace)
    (junctions : list Junction) :
  map endpointsOf (updateTraceConnectivity ts junctions) = map endpointsOf ts.
Proof.
  rewrite updateTraceConnectivity_pairs, connectAll_endpoints, map_map.
  apply map_ext. exact endpointsOf_initConnected.
Qed.

Lemma updateTraceConnectivity_ids (ts : list AnalyzedTrace) (junctions : list Junction) :
  map traceId (updateTraceConnectivity ts junctions) = map traceId ts.
Proof. apply traceId_of_endpoints, updateTraceConnectivity_endpoints. Qed.

Lemma findTrace_of_id (ts : list AnalyzedTrace) (i : string) :
  In i (map traceId ts) -> exists t : AnalyzedTrace, findTrace i ts = Some t.
Proof.
  intros H. apply in_map_iff in H. destruct H as [u [Hu Hin]].
  unfold findTrace.
  destruct (find (fun t => String.eqb (traceId t) i) ts) as [t|] eqn:E.
  - now exists t.
  - exfalso. apply (find_none _ _ E) in Hin. cbn beta in Hin.
    rewrite Hu, String.eqb_refl in Hin. discriminate.
Qed.

(** A run of the builder keeps connectivity symmetric and duplicate-free
    when the ids are distinct. *)
Lemma updateTraceConnectivity_preserves (ts : list AnalyzedTrace)
    (junctions : list Junction) :
  NoDup (map traceId ts) ->
  symmetricConnectivity ts -> duplicateFree ts ->
  symmetricConnectivity (updateTraceConnectivity ts junctions)
  /\ duplicateFree (updateTraceConnectivity ts junctions).
Proof.
  intros Hnd Hsym Hdf.
  pose proof (updateTraceConnectivity_ids ts junctions) as Hids.
  rewrite updateTraceConnectivity_pairs in *.
  set (ts0 := map initConnected ts) in *.
  set (pairs := flat_map pairsOf junctions) in *.
  assert (Hids0 : map traceId ts0 = map traceId ts).
  { unfold ts0. rewrite map_map. apply map_ext. exact traceId_initConnected. }
  assert (Hinit : allInitialised ts0) by apply initConnected_initialised.
  assert (Hsym0 : symmetricConnectivity ts0).
  { intros A B HA HB. unfold ts0 in HA, HB.
    apply in_map_iff in HA. destruct HA as [A' [<- HA]].
    apply in_map_iff in HB. destruct HB as [B' [<- HB]].
    rewrite !traceId_initConnected, !connected_initConnected. now apply Hsym. }
  assert (Hdf0 : duplicateFree ts0).
  { intros A HA. unfold ts0 in HA.
    apply in_map_iff in HA. destruct HA as [A' [<- HA]].
    rewrite connected_initConnected. now apply Hdf. }
  split; [|now apply connectAll_duplicateFree].
  assert (Hnd1 : NoDup (map traceId (connectAll ts0 pairs))) by now rewrite Hids.
  assert (Hnd0 : NoDup (map traceId ts0)) by now rewrite Hids0.
  assert (Hlink : forall A B : AnalyzedTrace,
             In A (connectAll ts0 pairs) -> In B (connectAll ts0 pairs) ->
             In (traceId A) (connected B) -> In (traceId B) (connected A)).
  { intros A B HA HB Hin.
    pose proof (In_findTrace _ _ Hnd1 HA) as HfA.
    pose proof (In_findTrace _ _ Hnd1 HB) as HfB.
    assert (HA0 : exists A0, findTrace (traceId A) ts0 = Some A0).
    { apply findTrace_of_id. rewrite Hids0, <- Hids. now apply in_map. }
    assert (HB0 : exists B0, findTrace (traceId B) ts0 = Some B0).
    { apply findTrace_of_id. rewrite Hids0, <- Hids. now apply in_map. }
    destruct HA0 as [A0 HA0]. destruct HB0 as [B0 HB0].
    assert (L : linked (connectAll ts0 pairs) (traceId B) (traceId A))
      by (now exists B).
    apply linked_connectAll in L; [|exact Hinit].
    assert (L' : linked (connectAll ts0 pairs) (traceId A) (traceId B)).
    { apply linked_connectAll; [exact Hinit|].
      destruct L as [[t [Ht Hz]]|[Hp [Hne _]]].
      - left. exists A0. split; [exact HA0|].
        rewrite HB0 in Ht. injection Ht as <-.
        destruct (findTrace_In _ _ _ HA0) as [HinA HidA].
        destruct (findTrace_In _ _ _ HB0) as [HinB HidB].
        rewrite <- HidB. apply (Hsym0 B0 A0 HinB HinA). now rewrite HidA.
      - right. repeat split.
        + now apply In_pairs_sym.
        + congruence.
        + congruence. }
    destruct L' as [t [Ht Hz]]. rewrite HfA in Ht. now injection Ht as <-. }
  intros A B HA HB. split; intros H; now apply Hlink.
Qed.

Lemma Enriched_invariant (ts : list AnalyzedTrace) :
  Enriched ts -> NoDup (map traceId ts) ->
  symmetricConnectivity ts /\ duplicateFree ts.
Proof.
  induction 1 as [rawTraces | ts junctions Hen IH]; intros Hnd.
  - split.
    + intros A B HA HB.
      apply in_map_iff in HA. destruct HA as [a [<- _]].
      apply in_map_iff in HB. destruct HB as [b [<- _]].
      cbn. tauto.
    + intros A HA. apply in_map_iff in HA. destruct HA as [a [<- _]].
      constructor.
  - rewrite updateTraceConnectivity_ids in Hnd.
    destruct (IH Hnd) as [Hsym Hdf].
    now apply updateTraceConnectivity_preserves.
Qed.

(** C2: after any run of the connectivity builder on enriched traces with
    pairwise distinct ids, each of two traces lists the other exactly when
    the other lists it, and no trace lists an id twice. *)
Theorem connectivity_symmetric_and_duplicate_free
    (ts : list AnalyzedTrace) (junctions : list Junction) :
  Enriched ts ->
  NoDup (map traceId ts) ->
  (forall A B : AnalyzedTrace,
      In A (updateTraceConnectivity ts junctions) ->
      In B (updateTraceConnectivity ts junctions) ->
      (In (traceId A) (connected B) <-> In (traceId B) (connected A)))
  /\ (forall A : AnalyzedTrace,
        In A (updateTraceConnectivity ts junctions) -> NoDup (connected A)).
Proof.
  intros Hen Hnd.
  destruct (Enriched_invariant ts Hen Hnd) as [Hsym Hdf].
  exact (updateTraceConnectivity_preserves ts junctions Hnd Hsym Hdf).
Qed.

Lemma connectivity_symmetric_and_duplicate_free_witness :
  let rawTraces :=
    [mkTrace "a" "M0,0 L5.02,5.0" 1 None None None None;
     mkTrace "b" "M5.0,5.0 L9,9" 1 None None None None;
     mkTrace "c" "M9.01,9 L0,0.01" 1 None None None None] in
  let ts := map analyzeTrace rawTraces in
  let ts' := updateTraceConnectivity ts (findJunctions ts (mkOptions None None)) in
  map (fun t => (traceId t, connected t)) ts'
  = [("a", ["c"; "b"]); ("b", ["a"; "c"]); ("c", ["a"; "b"])]
  /\ symmetricConnectivity ts' /\ duplicateFree ts'.
Proof.
  split; [vm_compute; reflexivity|].
  apply connectivity_symmetric_and_duplicate_free.
  - apply Enriched_analyzed.
  - vm_compute. repeat constructor; cbn; intuition discriminate.
Defined.

(** ** Idempotence of the junction builder *)

(** The junction builder reads the id and the two end points of a trace
    and nothing else. *)
Lemma collectEndpoints_endpoints (minDistance : float) (ts ts' : list AnalyzedTrace) :
  map endpointsOf ts = map endpointsOf ts' ->
  collectEndpoints minDistance ts = collectEndpoints minDistance ts'.
Proof.
  intros H. unfold collectEndpoints.
  assert (G : forall l : list AnalyzedTrace,
             fold_left
               (fun pointMap t =>
                  addEndpoint minDistance (id (trace t)) (endPoint t)
                    (addEndpoint minDistance (id (trace t)) (startPoint t) pointMap))
               l []
             = fold_left
                 (fun pointMap e =>
                    addEndpoint minDistance (fst (fst e)) (snd e)
                      (addEndpoint minDistance (fst (fst e)) (snd (fst e)) pointMap))
                 (map endpointsOf l) []).
  { intros l. now rewrite fold_left_map. }
  now rewrite !G, H.
Qed.

Lemma findJunctions_endpoints (ts ts' : list AnalyzedTrace) (options : ParserOptions) :
  map endpointsOf ts = map endpointsOf ts' ->
  findJunctions ts options = findJunctions ts' options.
Proof.
  intros H. unfold findJunctions.
  now rewrite (collectEndpoints_endpoints _ ts ts' H).
Qed.

Lemma initConnected_fixed (ts : list AnalyzedTrace) :
  allInitialised ts -> map initConnected ts = ts.
Proof.
  intros H. rewrite <- (map_id ts) at 2. apply map_ext_in.
  intros t Ht. unfold initConnected.
  destruct (connectedTraces t) eqn:E; [reflexivity|].
  now apply H in Ht.
Qed.

Lemma connectAll_fixed (pairs : list (string * string)) (ts : list AnalyzedTrace) :
  (forall p, In p pairs -> connectPair ts (fst p) (snd p) = ts) ->
  connectAll ts pairs = ts.
Proof.
  unfold connectAll. induction pairs as [|p rest IH]; intros H; [reflexivity|].
  cbn [fold_left]. rewrite H by now left.
  apply IH. intros q Hq. apply H. now right.
Qed.

Lemma findTrace_connectAll_none (pairs : list (string * string)) :
  forall (ts : list AnalyzedTrace) (i : string),
    findTrace i (connectAll ts pairs) = None <-> findTrace i ts = None.
Proof.
  unfold connectAll. induction pairs as [|p rest IH]; intros ts i; [tauto|].
  cbn [fold_left]. rewrite IH. apply findTrace_connectPair_none.
Qed.

(** A second run with the same junctions changes no trace. *)
Lemma updateTraceConnectivity_idempotent (ts : list AnalyzedTrace)
    (junctions : list Junction) :
  updateTraceConnectivity (updateTraceConnectivity ts junctions) junctions
  = updateTraceConnectivity ts junctions.
Proof.
  rewrite (updateTraceConnectivity_pairs ts).
  set (ts0 := map initConnected ts).
  set (pairs := flat_map pairsOf junctions).
  assert (Hinit : allInitialised ts0) by apply initConnected_initialised.
  rewrite updateTraceConnectivity_pairs. fold pairs.
  rewrite initConnected_fixed by now apply connectAll_initialised.
  apply connectAll_fixed. intros [a b] Hp. cbn [fst snd].
  unfold connectPair. destruct (String.eqb a b) eqn:Eab; [reflexivity|].
  apply String.eqb_neq in Eab.
  apply connectIn_present. intros t Ht.
  assert (L : linked (connectAll ts0 pairs) a b).
  { apply linked_connectAll; [exact Hinit|]. right. repeat split; auto.
    intros Hnone. apply (findTrace_connectAll_none pairs) in Hnone. congruence. }
  destruct L as [u [Hu Hz]]. rewrite Ht in Hu. now injection Hu as <-.
Qed.

(** C9: a second run of the junction builder on the traces the first run
    left returns the same junctions (the same list, in the same order) and
    leaves every trace, its connected ids included, as it was. *)
Theorem junction_building_is_idempotent
    (ts : list AnalyzedTrace) (options : ParserOptions) :
  buildJunctions (fst (buildJunctions ts options)) options
  = buildJunctions ts options.
Proof.
  unfold buildJunctions. cbn [fst].
  rewrite (findJunctions_endpoints
             (updateTraceConnectivity ts (findJunctions ts options)) ts options)
    by apply updateTraceConnectivity_endpoints.
  now rewrite updateTraceConnectivity_idempotent.
Qed.

(** ** The map of buckets *)

Lemma Map_has_get (key : string) (m : PointMap) :
  Map_has key m = match Map_get key m with Some _ => true | None => false end.
Proof.
  unfold Map_has, Map_get. induction m as [|[k w] m IH]; [reflexivity|].
  cbn [existsb find fst]. destruct (String.eqb k key); [reflexivity | exact IH].
Qed.

Lemma Map_get_set_new (key k : string) (v : list string) (m : PointMap) :
  Map_get k m = None ->
  Map_get key (Map_set k v m)
  = if String.eqb k key then Some v else Map_get key m.
Proof.
  unfold Map_get. induction m as [|[k' w] m IH]; intros Hnone.
  - cbn [Map_set find fst]. now destruct (String.eqb k key).
  - cbn [find fst] in Hnone. cbn [Map_set].
    destruct (String.eqb k' k) eqn:E; [discriminate Hnone|].
    cbn [find fst]. destruct (String.eqb k' key) eqn:E'.
    + destruct (String.eqb k key) eqn:E''; [|reflexivity].
      apply String.eqb_eq in E', E''. subst. now rewrite String.eqb_refl in E.
    + now apply IH.
Qed.

(** ** The junction builder *)

(** C1 fails on a closed path: its start and its end fall into one bucket,
    the bucket holds the id twice, the test [traceIds.length > 1] is made
    before the duplicates are removed, and the junction returned has the
    single id of the trace. *)
Lemma closed_path_yields_single_trace_junction :
  let t := analyzeTrace (mkTrace "trace-1" "M0,0 L10,0 L10,10 Z" 1 None None None None) in
  startPoint t = Some (mkPoint 0 0)
  /\ endPoint t = Some (mkPoint 0 0)
  /\ collectEndpoints defaultMinDistance [t] = [("0,0", ["trace-1"; "trace-1"])]
  /\ findJunctions [t] (mkOptions None None)
     = [mkJunction (mkPoint 0 0) ["trace-1"]].
Proof. vm_compute. repeat split. Qed.

(** *** Bucket keys *)

Lemma noComma_string_of_uint (d : Decimal.uint) :
  noComma (NilEmpty.string_of_uint d) = true.
Proof. induction d; cbn [NilEmpty.string_of_uint noComma]; try rewrite IHd; reflexivity. Qed.

Lemma noComma_Rounded_toString (r : JS.Rounded) :
  noComma (JS.Rounded_toString r) = true.
Proof.
  destruct r as [|[]|z]; try reflexivity.
  unfold JS.Rounded_toString, NilZero.string_of_int, NilZero.string_of_uint.
  destruct (Z.to_int z) as [d|d]; destruct d; try reflexivity;
    cbn [noComma]; try apply noComma_string_of_uint;
    rewrite noComma_string_of_uint; reflexivity.
Qed.

Lemma Rounded_ofString_toString (r : JS.Rounded) :
  Rounded_ofString (JS.Rounded_toString r) = Some r.
Proof.
  destruct r as [|[]|z]; try reflexivity.
  unfold Rounded_ofString, JS.Rounded_toString.
  rewrite NilZero.isi.
  - now rewrite DecimalZ.of_to.
  - destruct z as [|p|p]; cbn; try discriminate.
    intros H. injection H as H. now apply Unsigned.to_uint_nonnil in H.
  - destruct z as [|p|p]; cbn; try discriminate.
    intros H. injection H as H. now apply Unsigned.to_uint_nonnil in H.
Qed.

Lemma Rounded_toString_inj (r r' : JS.Rounded) :
  JS.Rounded_toString r = JS.Rounded_toString r' -> r = r'.
Proof.
  intros H. apply (f_equal Rounded_ofString) in H.
  rewrite !Rounded_ofString_toString in H. now injection H.
Qed.

(** Two strings without comma joined by a comma can be told apart. *)
Lemma comma_join_inj (a a' b b' : string) :
  noComma a = true -> noComma a' = true ->
  (a ++ "," ++ b)%string = (a' ++ "," ++ b')%string ->
  a = a' /\ b = b'.
Proof.
  revert a'. induction a as [|c a IH]; intros [|c' a'] Ha Ha' H;
    cbn [append noComma] in *.
  - injection H as ->. now split.
  - injection H as <- _. discriminate Ha'.
  - injection H as -> _. discriminate Ha.
  - injection H as -> H.
    apply andb_prop in Ha. apply andb_prop in Ha'.
    destruct (IH a' (proj2 Ha) (proj2 Ha') H) as [-> ->]. now split.
Qed.

(** C3, as the code has it: two end points get the same bucket key exactly
    when, on each axis, their coordinates divided by the tolerance round
    to the same integer, as the end points (5.02, 5.0) and (5.0, 5.0) do at
    tolerance 0.1.  Closeness below the tolerance does not decide it. *)
Theorem bucket_key_is_the_rounded_quotient :
  (forall (minDistance : float) (p q : Point),
      bucketKey minDistance p = bucketKey minDistance q <->
      JS.Math_round (x p / minDistance) = JS.Math_round (x q / minDistance)
      /\ JS.Math_round (y p / minDistance) = JS.Math_round (y q / minDistance))
  /\ bucketKey defaultMinDistance (mkPoint 5.02 5.0)
     = bucketKey defaultMinDistance (mkPoint 5.0 5.0).
Proof.
  split; [|vm_compute; reflexivity].
  intros minDistance p q. unfold bucketKey. split.
  - intros H. apply comma_join_inj in H; try apply noComma_Rounded_toString.
    destruct H as [H1 H2]. split; now apply Rounded_toString_inj.
  - intros [-> ->]. reflexivity.
Qed.

Lemma bucket_key_is_the_rounded_quotient_witness :
  JS.Math_round (5.02 / 0.1) = JS.Math_round (5.0 / 0.1)
  /\ bucketKey 0.1 (mkPoint 5.02 5.0) = "50,50"
  /\ bucketKey 0.1 (mkPoint 5.02 5.0) = bucketKey 0.1 (mkPoint 5.0 5.0).
Proof.
  split; [vm_compute; reflexivity|]. split; [vm_compute; reflexivity|].
  apply (proj1 bucket_key_is_the_rounded_quotient 0.1%float
           (mkPoint 5.02 5.0) (mkPoint 5.0 5.0)).
  split; vm_compute; reflexivity.
Defined.

(** C3, as the specification states it, fails: (0.04, 0) and (0.06, 0) are
    0.02 apart, below the tolerance 0.1, and fall into the buckets [0,0] and
    [1,0]; two traces that end and start there are not joined. *)
Lemma close_endpoints_in_different_buckets :
  PrimFloat.ltb (distance (mkPoint 0.04 0) (mkPoint 0.06 0)) defaultMinDistance = true
  /\ bucketKey defaultMinDistance (mkPoint 0.04 0) = "0,0"
  /\ bucketKey defaultMinDistance (mkPoint 0.06 0) = "1,0"
  /\ bucketKey defaultMinDistance (mkPoint 0.04 0)
     <> bucketKey defaultMinDistance (mkPoint 0.06 0)
  /\ findJunctions
       (map analyzeTrace
          [mkTrace "a" "M10,10 L0.04,0" 1 None None None None;
           mkTrace "b" "M0.06,0 L20,20" 1 None None None None])
       (mkOptions None None)
     = [].
Proof. vm_compute. repeat split. discriminate. Qed.

(** *** The tolerance *)

(** A number below zero is truthy. *)
Lemma negative_is_truthy (v : float) :
  PrimFloat.ltb v 0 = true -> JS.truthyNumber v = true.
Proof.
  unfold JS.truthyNumber. rewrite ltb_spec, !eqb_spec.
  change (Prim2SF 0) with (S754_zero false).
  destruct (Prim2SF v) as [s|[]| |[] m e]; cbn; try discriminate; try reflexivity.
  intros _. now rewrite Z.compare_refl, Pos.compare_cont_refl.
Qed.

Lemma zero_is_falsy (v : float) :
  PrimFloat.eqb v 0 = true -> JS.truthyNumber v = false.
Proof. unfold JS.truthyNumber. now intros ->. Qed.

(** The bucket is there when the id is pushed: the key was in the map or
    has just been set. *)
Lemma addEndpoint_call_normal (minDistance : float) (tid : string) (p : option Point)
    (pointMap : PointMap) :
  addEndpoint_call minDistance tid p pointMap
  = Normal (addEndpoint minDistance tid p pointMap).
Proof.
  destruct p as [pt|]; [|reflexivity].
  unfold addEndpoint_call, addEndpoint, Map_push_call.
  set (key := bucketKey minDistance pt).
  destruct (Map_has key pointMap) eqn:Hhas.
  - rewrite Map_has_get in Hhas.
    destruct (Map_get key pointMap); [reflexivity | discriminate Hhas].
  - rewrite Map_get_set_new.
    + now rewrite String.eqb_refl.
    + rewrite Map_has_get in Hhas.
      destruct (Map_get key pointMap); [discriminate Hhas | reflexivity].
Qed.

Lemma collectEndpoints_call_normal (minDistance : float) (ts : list AnalyzedTrace) :
  forall pointMap : PointMap,
    collectEndpoints_call minDistance ts pointMap
    = Normal
        (fold_left
           (fun m t =>
              addEndpoint minDistance (id (trace t)) (endPoint t)
                (addEndpoint minDistance (id (trace t)) (startPoint t) m))
           ts pointMap).
Proof.
  induction ts as [|t rest IH]; intros pointMap; [reflexivity|].
  cbn [collectEndpoints_call fold_left].
  rewrite addEndpoint_call_normal. cbn [andThen].
  rewrite addEndpoint_call_normal. cbn [andThen].
  apply IH.
Qed.

Lemma findJunctions_call_normal (ts : list AnalyzedTrace) (options : ParserOptions) :
  findJunctions_call ts options = Normal (findJunctions ts options).
Proof.
  unfold findJunctions_call, findJunctions, collectEndpoints.
  now rewrite collectEndpoints_call_normal.
Qed.

(** A path of two points or more has a first and a last point. *)
Lemma analyzeTrace_call_normal (t : Trace) :
  analyzeTrace_call t = Normal (analyzeTrace t).
Proof.
  unfold analyzeTrace_call, analyzeTrace.
  destruct (getPointsFromCommands
              (convertToAbsoluteCoordinates (parsePathCommands (pathData t))))
    as [|p [|q rest]] eqn:E; [reflexivity | reflexivity |].
  change (2 <=? List.length (p :: q :: rest))%nat with true.
  change (0 <? List.length (p :: q :: rest))%nat with true.
  cbv beta iota. cbn [nth_error].
  destruct (nth_error (p :: q :: rest) (List.length (p :: q :: rest) - 1)) as [e|] eqn:En;
    [reflexivity|].
  apply nth_error_None in En. cbn [List.length] in En. lia.
Qed.

Lemma analyzeTraces_call_normal (rawTraces : list Trace) :
  analyzeTraces_call rawTraces = Normal (map analyzeTrace rawTraces).
Proof.
  induction rawTraces as [|t rest IH]; [reflexivity|].
  cbn [analyzeTraces_call map]. rewrite analyzeTrace_call_normal, IH. reflexivity.
Qed.

(** The checked reads do throw where the value is missing: a push into a
    bucket that was never set. *)
Example push_into_missing_bucket_throws :
  Map_push_call "0,0" "trace-1" [] = Throw TypeError
  /\ Map_push_call "0,0" "trace-1" [("5,5", ["trace-2"])] = Throw TypeError.
Proof. split; reflexivity. Qed.

(** C4, as the code has it: no tolerance is rejected and nothing is
    thrown.  [findJunctions], run with its reads checked, completes
    normally whatever the traces and the options; a tolerance equal to
    zero is replaced by the default 0.1; a tolerance below zero is used as
    it is; [analyzeTrace] completes normally on every trace, whatever its
    path data; and so does the whole analysis of the extracted traces. *)
Theorem tolerance_is_never_rejected :
  (forall (ts : list AnalyzedTrace) (options : ParserOptions),
      findJunctions_call ts options = Normal (findJunctions ts options))
  /\ (forall (ts : list AnalyzedTrace) (options : ParserOptions) (v : float),
        minJunctionDistance options = Some v ->
        PrimFloat.eqb v 0 = true ->
        findJunctions ts options = findJunctions ts (mkOptions (verbose options) None)
        /\ minDistanceOf options = defaultMinDistance)
  /\ (forall (ts : list AnalyzedTrace) (options : ParserOptions) (v : float),
        minJunctionDistance options = Some v ->
        PrimFloat.ltb v 0 = true ->
        findJunctions ts options = flat_map (junctionOf v) (collectEndpoints v ts))
  /\ (forall t : Trace, analyzeTrace_call t = Normal (analyzeTrace t))
  /\ (forall (rawTraces : list Trace) (options : ParserOptions),
        analyzeExtractedTraces_call rawTraces options
        = Normal (analyzeExtractedTraces rawTraces options)).
Proof.
  split; [exact findJunctions_call_normal|].
  split; [|split; [|split; [exact analyzeTrace_call_normal|]]].
  - intros ts options v Hv Hz. unfold findJunctions, minDistanceOf.
    rewrite Hv, (zero_is_falsy v Hz). split; reflexivity.
  - intros ts options v Hv Hneg. unfold findJunctions, minDistanceOf.
    rewrite Hv, (negative_is_truthy v Hneg). reflexivity.
  - intros rawTraces options. unfold analyzeExtractedTraces_call.
    rewrite analyzeTraces_call_normal. cbn [andThen].
    rewrite findJunctions_call_normal. reflexivity.
Qed.

Lemma tolerance_is_never_rejected_witness :
  let ts :=
    map analyzeTrace
      [mkTrace "a" "M0,0 L5.02,5.0" 1 None None None None;
       mkTrace "b" "M5.0,5.0 L9,9" 1 None None None None] in
  (findJunctions ts (mkOptions None (Some 0%float))
   = findJunctions ts (mkOptions None None)
   /\ minDistanceOf (mkOptions None (Some 0%float)) = defaultMinDistance)
  /\ findJunctions ts (mkOptions None (Some (-1)%float))
     = flat_map (junctionOf (-1)) (collectEndpoints (-1) ts)
  /\ findJunctions_call ts (mkOptions None (Some (-1)%float))
     = Normal (findJunctions ts (mkOptions None (Some (-1)%float)))
  /\ analyzeTrace_call (mkTrace "c" "M1,x L L3 q" 1 None None None None)
     = Normal (analyzeTrace (mkTrace "c" "M1,x L L3 q" 1 None None None None)).
Proof.
  intros ts.
  destruct tolerance_is_never_rejected as [Hcall [Hzero [Hneg [Htrace _]]]].
  split; [|split; [|split]].
  - exact (Hzero ts (mkOptions None (Some 0%float)) 0%float eq_refl eq_refl).
  - exact (Hneg ts (mkOptions None (Some (-1)%float)) (-1)%float eq_refl eq_refl).
  - apply Hcall.
  - apply Htrace.
Defined.

(** C4, as the specification states it, fails: with the tolerances 0 and
    -1 the builder, run with its reads checked, goes through the traces
    and returns the junction of the two traces that meet at (5, 5);
    nothing is reported to the caller. *)
Lemma nonpositive_tolerance_is_accepted :
  let ts :=
    map analyzeTrace
      [mkTrace "a" "M0,0 L5.02,5.0" 1 None None None None;
       mkTrace "b" "M5.0,5.0 L9,9" 1 None None None None] in
  findJunctions_call ts (mkOptions None (Some 0%float))
  = Normal [mkJunction (mkPoint 5 5) ["a"; "b"]]
  /\ findJunctions_call ts (mkOptions None (Some (-1)%float))
     = Normal [mkJunction (mkPoint 5 5) ["a"; "b"]].
Proof.
  vm_compute. split; reflexivity.
Qed.

(** * Further properties *)

(** ** [parsePathCommands] *)

Lemma relative_iff_lower (c : ascii) :
  isCommandLetter c = true ->
  String.eqb (JS.toLowerCase (String c EmptyString)) (String c EmptyString)
  = isLowerCommand c.
Proof.
  destruct c as [[] [] [] [] [] [] [] []]; vm_compute; intros H;
    first [reflexivity | discriminate H].
Qed.

(** The parser emits one command for each command letter of the path data,
    in order; the command has the letter as its type and is relative
    exactly when the letter is lower case. *)
Theorem parsePathCommands_letters (pathData : string) :
  map (fun cmd => (type cmd, isRelative cmd)) (parsePathCommands pathData)
  = commandLetters pathData.
Proof.
  unfold parsePathCommands.
  induction pathData as [|c s IH]; [reflexivity|].
  cbn [commandMatches commandLetters].
  destruct (isCommandLetter c) eqn:Ec; [|exact IH].
  cbn [map fst snd]. rewrite IH. f_equal.
  unfold parseCommand. cbn [type isRelative].
  now rewrite relative_iff_lower.
Qed.

(** Text before the first command letter is skipped: numbers that no
    command introduces are lost. *)
Theorem parsePathCommands_skips_leading_text (junk pathData : string) :
  noCommandLetter junk = true ->
  parsePathCommands (junk ++ pathData)%string = parsePathCommands pathData.
Proof.
  unfold parsePathCommands. intros H. f_equal.
  induction junk as [|c junk IH]; [reflexivity|].
  cbn [noCommandLetter] in H. apply andb_prop in H. destruct H as [Hc Hj].
  cbn [append commandMatches].
  apply negb_true_iff in Hc. rewrite Hc. now apply IH.
Qed.

Lemma parsePathCommands_skips_leading_text_witness :
  parsePathCommands "10,20 30 L1,2" = parsePathCommands "L1,2".
Proof.
  exact (parsePathCommands_skips_leading_text "10,20 30 " "L1,2" eq_refl).
Defined.

Lemma pairPoints_length (params : list float) :
  List.length (pairPoints params) = Nat.div2 (List.length params).
Proof.
  revert params.
  fix IH 1. intros [|a [|b rest]]; [reflexivity | reflexivity |].
  cbn [pairPoints List.length Nat.div2]. now rewrite IH.
Qed.

Lemma pairPoints_nth (params : list float) :
  forall k : nat,
    k < Nat.div2 (List.length params) ->
    nth_error (pairPoints params) k
    = Some (mkPoint (nth (2 * k) params nan) (nth (2 * k + 1) params nan)).
Proof.
  revert params.
  fix IH 1. intros [|a [|b rest]] k Hk; cbn [List.length Nat.div2] in Hk;
    [lia | lia |].
  destruct k as [|k]; [reflexivity|].
  cbn [pairPoints nth_error].
  rewrite IH by lia.
  replace (2 * S k) with (S (S (2 * k))) by lia.
  replace (S (S (2 * k)) + 1) with (S (S (2 * k + 1))) by lia.
  reflexivity.
Qed.

(** A MoveTo or LineTo command takes its parameters two at a time: [n]
    parameters give [n / 2] points, the [k]-th made of the parameters
    [2k] and [2k + 1], and an unpaired last parameter is dropped. *)
Theorem parseCommand_pairs (commandType paramsStr : string) (k : nat) :
  (JS.toUpperCase commandType = "M" \/ JS.toUpperCase commandType = "L") ->
  let params := parseParams paramsStr in
  List.length (points (parseCommand commandType paramsStr))
  = Nat.div2 (List.length params)
  /\ (k < Nat.div2 (List.length params) ->
      nth_error (points (parseCommand commandType paramsStr)) k
      = Some (mkPoint (nth (2 * k) params nan) (nth (2 * k + 1) params nan))).
Proof.
  intros Hty params.
  assert (H : points (parseCommand commandType paramsStr) = pairPoints params).
  { unfold parseCommand. cbn [points]. destruct Hty as [-> | ->]; reflexivity. }
  rewrite H. split; [apply pairPoints_length | apply pairPoints_nth].
Qed.

Lemma parseCommand_pairs_witness :
  List.length (points (parseCommand "l" " 1,2 3 4,5 ")) = 2
  /\ nth_error (points (parseCommand "l" " 1,2 3 4,5 ")) 1 = Some (mkPoint 3 4).
Proof.
  destruct (parseCommand_pairs "l" " 1,2 3 4,5 " 1 (or_intror eq_refl)) as [H1 H2].
  split; [exact H1|]. apply H2. vm_compute. lia.
Defined.

(** ** [convertToAbsoluteCoordinates] *)

Lemma resolveFrom_cons (cmd : PathCommand) (rest : list PathCommand) (c : Cursor) :
  resolveFrom c (cmd :: rest) =
  (mkPathCommand (type cmd) (fst (resolvePoints cmd c)) false
     :: fst (resolveFrom (snd (resolvePoints cmd c)) rest),
   snd (resolveFrom (snd (resolvePoints cmd c)) rest)).
Proof.
  cbn [resolveFrom]. unfold resolveCommand.
  destruct (resolvePoints cmd c) as [pts c1]. cbn [fst snd].
  destruct (resolveFrom c1 rest) as [rs c2]. reflexivity.
Qed.

(** The resolved sequence is aligned with the input: as many commands, the
    same letters in the same order, and no command is relative any more. *)
Theorem convert_keeps_letters (cmds : list PathCommand) :
  map type (convertToAbsoluteCoordinates cmds) = map type cmds
  /\ Forall (fun r => isRelative r = false) (convertToAbsoluteCoordinates cmds).
Proof.
  unfold convertToAbsoluteCoordinates. generalize initialCursor.
  induction cmds as [|cmd rest IH]; intros c; [split; constructor|].
  rewrite resolveFrom_cons. cbn [fst map].
  destruct (IH (snd (resolvePoints cmd c))) as [IH1 IH2].
  split; [now rewrite IH1 | constructor; [reflexivity | exact IH2]].
Qed.

(** *** The loops on absolute input *)

Lemma resolveLineTo_length (rel : bool) (pts : list Point) :
  forall c : Cursor, List.length (fst (resolveLineTo rel pts c)) = List.length pts.
Proof.
  induction pts as [|p rest IH]; intros c; [reflexivity|].
  cbn [resolveLineTo].
  specialize (IH (mkCursor (if rel then (currentX c + x p)%float else x p)
                    (if rel then (currentY c + y p)%float else y p)
                    (subpathStartX c) (subpathStartY c))).
  destruct (resolveLineTo rel rest _) as [out c2]. cbn [fst List.length] in *.
  now rewrite IH.
Qed.

Lemma resolveHorizontal_length (rel : bool) (pts : list Point) :
  forall c : Cursor, List.length (fst (resolveHorizontal rel pts c)) = List.length pts.
Proof.
  induction pts as [|p rest IH]; intros c; [reflexivity|].
  cbn [resolveHorizontal].
  specialize (IH (mkCursor (if rel then (currentX c + x p)%float else x p)
                    (currentY c) (subpathStartX c) (subpathStartY c))).
  destruct (resolveHorizontal rel rest _) as [out c2]. cbn [fst List.length] in *.
  now rewrite IH.
Qed.

Lemma resolveVertical_length (rel : bool) (pts : list Point) :
  forall c : Cursor, List.length (fst (resolveVertical rel pts c)) = List.length pts.
Proof.
  induction pts as [|p rest IH]; intros c; [reflexivity|].
  cbn [resolveVertical].
  specialize (IH (mkCursor (currentX c)
                    (if rel then (currentY c + y p)%float else y p)
                    (subpathStartX c) (subpathStartY c))).
  destruct (resolveVertical rel rest _) as [out c2]. cbn [fst List.length] in *.
  now rewrite IH.
Qed.

Lemma resolvePoints_count (cmd : PathCommand) (c : Cursor) :
  List.length (fst (resolvePoints cmd c)) = resolvedCount cmd.
Proof.
  unfold resolvePoints, resolvedCount, isLineCommand.
  destruct (String.eqb (JS.toUpperCase (type cmd)) "M") eqn:EM.
  { cbn [orb]. rewrite (proj1 (resolveMoveTo_as_lineTo _ _ _ _)).
    apply resolveLineTo_length. }
  destruct (String.eqb (JS.toUpperCase (type cmd)) "L").
  { cbn [orb]. apply resolveLineTo_length. }
  destruct (String.eqb (JS.toUpperCase (type cmd)) "H").
  { cbn [orb]. apply resolveHorizontal_length. }
  destruct (String.eqb (JS.toUpperCase (type cmd)) "V").
  { cbn [orb]. apply resolveVertical_length. }
  cbn [orb]. destruct (String.eqb (JS.toUpperCase (type cmd)) "Z"); reflexivity.
Qed.

(** Each M, L, H or V command resolves to as many points as it had, each
    ClosePath to one point, and a command of any other letter to none, so
    the polyline of a path has exactly that many points in all. *)
Theorem convert_point_counts (cmds : list PathCommand) :
  map (fun r => List.length (points r)) (convertToAbsoluteCoordinates cmds)
  = map resolvedCount cmds
  /\ List.length (getPointsFromCommands (convertToAbsoluteCoordinates cmds))
     = list_sum (map resolvedCount cmds).
Proof.
  unfold convertToAbsoluteCoordinates. generalize initialCursor.
  induction cmds as [|cmd rest IH]; intros c; [split; reflexivity|].
  rewrite resolveFrom_cons. cbn [fst map points list_sum].
  destruct (IH (snd (resolvePoints cmd c))) as [IH1 IH2].
  rewrite getPoints_cons, length_app. cbn [points].
  rewrite IH1, IH2, resolvePoints_count. split; reflexivity.
Qed.

(** *** Resolving twice *)

Lemma point_eta (p : Point) : mkPoint (x p) (y p) = p.
Proof. now destruct p. Qed.

Lemma cursor_eta (c : Cursor) :
  mkCursor (currentX c) (currentY c) (subpathStartX c) (subpathStartY c) = c.
Proof. now destruct c. Qed.

Lemma resolveMoveTo_again (rel : bool) (pts : list Point) :
  forall (i : nat) (c : Cursor),
    resolveMoveTo false i (fst (resolveMoveTo rel i pts c)) c
    = resolveMoveTo rel i pts c.
Proof.
  induction pts as [|p rest IH]; intros i c; [reflexivity|].
  cbn [resolveMoveTo].
  set (vx := if rel then (currentX c + x p)%float else x p).
  set (vy := if rel then (currentY c + y p)%float else y p).
  set (c' := match i with
             | O => mkCursor vx vy vx vy
             | S _ => mkCursor vx vy (subpathStartX c) (subpathStartY c)
             end).
  specialize (IH (S i) c').
  destruct (resolveMoveTo rel (S i) rest c') as [out c2].
  cbn [fst resolveMoveTo x y] in *. fold c'. now rewrite IH.
Qed.

Lemma resolveLineTo_again (rel : bool) (pts : list Point) :
  forall c : Cursor,
    resolveLineTo false (fst (resolveLineTo rel pts c)) c = resolveLineTo rel pts c.
Proof.
  induction pts as [|p rest IH]; intros c; [reflexivity|].
  cbn [resolveLineTo].
  set (c' := mkCursor (if rel then (currentX c + x p)%float else x p)
               (if rel then (currentY c + y p)%float else y p)
               (subpathStartX c) (subpathStartY c)).
  specialize (IH c').
  destruct (resolveLineTo rel rest c') as [out c2].
  cbn [fst resolveLineTo x y] in *. fold c'. now rewrite IH.
Qed.

Lemma resolveHorizontal_again (rel : bool) (pts : list Point) :
  forall c : Cursor,
    resolveHorizontal false (fst (resolveHorizontal rel pts c)) c
    = resolveHorizontal rel pts c.
Proof.
  induction pts as [|p rest IH]; intros c; [reflexivity|].
  cbn [resolveHorizontal].
  set (c' := mkCursor (if rel then (currentX c + x p)%float else x p)
               (currentY c) (subpathStartX c) (subpathStartY c)).
  specialize (IH c').
  destruct (resolveHorizontal rel rest c') as [out c2].
  cbn [fst resolveHorizontal x y] in *. fold c'.
  change (currentY c) with (currentY c') at 2. now rewrite IH.
Qed.

Lemma resolveVertical_again (rel : bool) (pts : list Point) :
  forall c : Cursor,
    resolveVertical false (fst (resolveVertical rel pts c)) c
    = resolveVertical rel pts c.
Proof.
  induction pts as [|p rest IH]; intros c; [reflexivity|].
  cbn [resolveVertical].
  set (c' := mkCursor (currentX c) (if rel then (currentY c + y p)%float else y p)
               (subpathStartX c) (subpathStartY c)).
  specialize (IH c').
  destruct (resolveVertical rel rest c') as [out c2].
  cbn [fst resolveVertical x y] in *. fold c'.
  change (currentX c) with (currentX c') at 2. now rewrite IH.
Qed.

Lemma resolvePoints_again (cmd : PathCommand) (c : Cursor) :
  resolvePoints (mkPathCommand (type cmd) (fst (resolvePoints cmd c)) false) c
  = resolvePoints cmd c.
Proof.
  unfold resolvePoints. cbn [type points isRelative].
  destruct (String.eqb (JS.toUpperCase (type cmd)) "M");
    [apply resolveMoveTo_again|].
  destruct (String.eqb (JS.toUpperCase (type cmd)) "L");
    [apply resolveLineTo_again|].
  destruct (String.eqb (JS.toUpperCase (type cmd)) "H");
    [apply resolveHorizontal_again|].
  destruct (String.eqb (JS.toUpperCase (type cmd)) "V");
    [apply resolveVertical_again|].
  destruct (String.eqb (JS.toUpperCase (type cmd)) "Z"); reflexivity.
Qed.

Lemma resolveFrom_again (cmds : list PathCommand) :
  forall c : Cursor,
    resolveFrom c (fst (resolveFrom c cmds)) = resolveFrom c cmds.
Proof.
  induction cmds as [|cmd rest IH]; intros c; [reflexivity|].
  rewrite (resolveFrom_cons cmd rest c). cbn [fst].
  rewrite resolveFrom_cons. cbn [type].
  rewrite resolvePoints_again, IH. reflexivity.
Qed.

(** Resolving is idempotent: commands that are already resolved resolve to
    themselves, so a resolved path can be passed to the resolver again. *)
Theorem convert_idempotent (cmds : list PathCommand) :
  convertToAbsoluteCoordinates (convertToAbsoluteCoordinates cmds)
  = convertToAbsoluteCoordinates cmds.
Proof.
  unfold convertToAbsoluteCoordinates. now rewrite resolveFrom_again.
Qed.

(** *** The cursor *)

Lemma last_cons {A : Type} (a : A) (l : list A) (d : A) :
  last (a :: l) d = last l a.
Proof.
  revert a d. induction l as [|b l IH]; intros a d; [reflexivity|].
  change (last (a :: b :: l) d) with (last (b :: l) d).
  now rewrite !IH.
Qed.

Lemma resolveLineTo_cursor (rel : bool) (pts : list Point) :
  forall c : Cursor,
    current (snd (resolveLineTo rel pts c))
    = last (fst (resolveLineTo rel pts c)) (current c).
Proof.
  induction pts as [|p rest IH]; intros c; [reflexivity|].
  cbn [resolveLineTo].
  set (c' := mkCursor _ _ (subpathStartX c) (subpathStartY c)).
  specialize (IH c').
  destruct (resolveLineTo rel rest c') as [out c2]. cbn [fst snd] in *.
  rewrite IH, last_cons. reflexivity.
Qed.

Lemma resolveHorizontal_cursor (rel : bool) (pts : list Point) :
  forall c : Cursor,
    current (snd (resolveHorizontal rel pts c))
    = last (fst (resolveHorizontal rel pts c)) (current c).
Proof.
  induction pts as [|p rest IH]; intros c; [reflexivity|].
  cbn [resolveHorizontal].
  set (c' := mkCursor _ _ (subpathStartX c) (subpathStartY c)).
  specialize (IH c').
  destruct (resolveHorizontal rel rest c') as [out c2]. cbn [fst snd] in *.
  rewrite IH, last_cons. reflexivity.
Qed.

Lemma resolveVertical_cursor (rel : bool) (pts : list Point) :
  forall c : Cursor,
    current (snd (resolveVertical rel pts c))
    = last (fst (resolveVertical rel pts c)) (current c).
Proof.
  induction pts as [|p rest IH]; intros c; [reflexivity|].
  cbn [resolveVertical].
  set (c' := mkCursor _ _ (subpathStartX c) (subpathStartY c)).
  specialize (IH c').
  destruct (resolveVertical rel rest c') as [out c2]. cbn [fst snd] in *.
  rewrite IH, last_cons. reflexivity.
Qed.

Lemma resolvePoints_cursor (cmd : PathCommand) (c : Cursor) :
  current (snd (resolvePoints cmd c))
  = last (fst (resolvePoints cmd c)) (current c).
Proof.
  unfold resolvePoints.
  destruct (String.eqb (JS.toUpperCase (type cmd)) "M").
  { destruct (resolveMoveTo_as_lineTo (isRelative cmd) (points cmd) 0 c) as [-> ->].
    apply resolveLineTo_cursor. }
  destruct (String.eqb (JS.toUpperCase (type cmd)) "L");
    [apply resolveLineTo_cursor|].
  destruct (String.eqb (JS.toUpperCase (type cmd)) "H");
    [apply resolveHorizontal_cursor|].
  destruct (String.eqb (JS.toUpperCase (type cmd)) "V");
    [apply resolveVertical_cursor|].
  destruct (String.eqb (JS.toUpperCase (type cmd)) "Z"); reflexivity.
Qed.

Lemma last_app_default {A : Type} (l1 l2 : list A) (d : A) :
  last (l1 ++ l2) d = last l2 (last l1 d).
Proof.
  revert d. induction l1 as [|a l1 IH]; intros d; [reflexivity|].
  cbn [app]. now rewrite !last_cons, IH.
Qed.

Lemma resolveFrom_cursor (cmds : list PathCommand) :
  forall c : Cursor,
    current (snd (resolveFrom c cmds))
    = last (getPointsFromCommands (fst (resolveFrom c cmds))) (current c).
Proof.
  induction cmds as [|cmd rest IH]; intros c; [reflexivity|].
  rewrite resolveFrom_cons. cbn [fst snd].
  rewrite getPoints_cons. cbn [points].
  rewrite last_app_default, <- resolvePoints_cursor. apply IH.
Qed.

(** The pen is where the polyline ends: after any command sequence the
    cursor is the last point emitted, and (0,0) when no point was emitted;
    commands of other letters do not move it. *)
Theorem cursor_is_last_point (cmds : list PathCommand) :
  current (snd (resolveFrom initialCursor cmds))
  = last (getPointsFromCommands (convertToAbsoluteCoordinates cmds)) origin.
Proof. exact (resolveFrom_cursor cmds initialCursor). Qed.

(** *** Commands that are absolute already *)

Lemma resolveLineTo_absolute (pts : list Point) :
  forall c : Cursor, fst (resolveLineTo false pts c) = pts.
Proof.
  induction pts as [|p rest IH]; intros c; [reflexivity|].
  cbn [resolveLineTo].
  specialize (IH (mkCursor (x p) (y p) (subpathStartX c) (subpathStartY c))).
  destruct (resolveLineTo false rest _) as [out c2]. cbn [fst] in *.
  now rewrite IH, point_eta.
Qed.

(** Absolute MoveTo and LineTo commands pass through the resolver
    unchanged, whatever stands before them. *)
Theorem convert_absolute_lines_unchanged (cmds : list PathCommand) :
  Forall (fun cmd => isRelative cmd = false
                     /\ (JS.toUpperCase (type cmd) = "M"
                         \/ JS.toUpperCase (type cmd) = "L")) cmds ->
  convertToAbsoluteCoordinates cmds = cmds.
Proof.
  unfold convertToAbsoluteCoordinates. generalize initialCursor.
  induction cmds as [|cmd rest IH]; intros c H; [reflexivity|].
  inversion H as [|? ? [Hrel Hty] Hrest]; subst.
  rewrite resolveFrom_cons. cbn [fst]. rewrite IH by exact Hrest.
  f_equal. destruct cmd as [ty pts rel]. cbn [type points isRelative] in *.
  subst rel. f_equal. unfold resolvePoints. cbn [type points isRelative].
  destruct Hty as [-> | ->]; cbn [String.eqb Ascii.eqb Bool.eqb].
  - rewrite (proj1 (resolveMoveTo_as_lineTo _ _ _ _)). apply resolveLineTo_absolute.
  - apply resolveLineTo_absolute.
Qed.

Lemma convert_absolute_lines_unchanged_witness :
  convertToAbsoluteCoordinates (parsePathCommands "M0,0 L10,0 L10,10 5,5")
  = parsePathCommands "M0,0 L10,0 L10,10 5,5".
Proof.
  apply convert_absolute_lines_unchanged.
  vm_compute.
  repeat (apply Forall_cons;
          [split; [reflexivity | first [left; reflexivity | right; reflexivity]]|]).
  apply Forall_nil.
Defined.

(** *** Horizontal and vertical lines *)

Lemma resolveHorizontal_keeps_y (rel : bool) (pts : list Point) :
  forall c : Cursor,
    Forall (fun p => y p = currentY c) (fst (resolveHorizontal rel pts c))
    /\ currentY (snd (resolveHorizontal rel pts c)) = currentY c.
Proof.
  induction pts as [|p rest IH]; intros c; [split; constructor|].
  cbn [resolveHorizontal].
  specialize (IH (mkCursor (if rel then (currentX c + x p)%float else x p)
                    (currentY c) (subpathStartX c) (subpathStartY c))).
  destruct (resolveHorizontal rel rest _) as [out c2].
  cbn [fst snd currentY] in *. destruct IH as [IH1 IH2].
  split; [constructor; [reflexivity | exact IH1] | exact IH2].
Qed.

Lemma resolveVertical_keeps_x (rel : bool) (pts : list Point) :
  forall c : Cursor,
    Forall (fun p => x p = currentX c) (fst (resolveVertical rel pts c))
    /\ currentX (snd (resolveVertical rel pts c)) = currentX c.
Proof.
  induction pts as [|p rest IH]; intros c; [split; constructor|].
  cbn [resolveVertical].
  specialize (IH (mkCursor (currentX c)
                    (if rel then (currentY c + y p)%float else y p)
                    (subpathStartX c) (subpathStartY c))).
  destruct (resolveVertical rel rest _) as [out c2].
  cbn [fst snd currentX] in *. destruct IH as [IH1 IH2].
  split; [constructor; [reflexivity | exact IH1] | exact IH2].
Qed.

(** A horizontal command emits points at the height of the cursor and
    leaves the height as it was, whatever placeholder the parser wrote
    for [y]; a vertical command does the same with [x]. *)
Theorem horizontal_and_vertical_keep_the_other_axis (cmd : PathCommand) (c : Cursor) :
  (JS.toUpperCase (type cmd) = "H" ->
   Forall (fun p => y p = currentY c) (points (fst (resolveCommand cmd c)))
   /\ currentY (snd (resolveCommand cmd c)) = currentY c)
  /\ (JS.toUpperCase (type cmd) = "V" ->
      Forall (fun p => x p = currentX c) (points (fst (resolveCommand cmd c)))
      /\ currentX (snd (resolveCommand cmd c)) = currentX c).
Proof.
  unfold resolveCommand, resolvePoints. split; intros ->;
    cbn [String.eqb Ascii.eqb Bool.eqb].
  - pose proof (resolveHorizontal_keeps_y (isRelative cmd) (points cmd) c) as H.
    destruct (resolveHorizontal _ _ c) as [out c2]. exact H.
  - pose proof (resolveVertical_keeps_x (isRelative cmd) (points cmd) c) as H.
    destruct (resolveVertical _ _ c) as [out c2]. exact H.
Qed.

Lemma horizontal_and_vertical_keep_the_other_axis_witness :
  points (fst (resolveCommand (mkPathCommand "h" [mkPoint 3 0; mkPoint 4 0] true)
                 (mkCursor 1 7 0 0)))
  = [mkPoint 4 7; mkPoint 8 7]
  /\ Forall (fun p => y p = 7%float)
       (points (fst (resolveCommand (mkPathCommand "h" [mkPoint 3 0; mkPoint 4 0] true)
                       (mkCursor 1 7 0 0)))).
Proof.
  split; [reflexivity|].
  exact (proj1 (proj1 (horizontal_and_vertical_keep_the_other_axis
                         (mkPathCommand "h" [mkPoint 3 0; mkPoint 4 0] true)
                         (mkCursor 1 7 0 0)) eq_refl)).
Defined.

(** ** [analyzeTrace] *)

Lemma classifyDirection_known (s e : Point) :
  classifyDirection s e = "horizontal"
  \/ classifyDirection s e = "vertical"
  \/ classifyDirection s e = "diagonal".
Proof.
  unfold classifyDirection.
  destruct (JS.gt _ _); [now left|].
  destruct (JS.gt _ _); [right; now left | right; now right].
Qed.

Lemma nth_error_last {A : Type} (l : list A) (a d : A) :
  nth_error (a :: l) (List.length (a :: l) - 1) = Some (last (a :: l) d).
Proof.
  revert a. induction l as [|b l IH]; intros a; [reflexivity|].
  specialize (IH b). cbn [List.length] in *.
  replace (S (S (List.length l)) - 1) with (S (S (List.length l) - 1)) by lia.
  cbn [nth_error]. rewrite IH. reflexivity.
Qed.

(** The start point is the first point of the polyline and the end point
    its last one; both are absent exactly when the path resolves to no
    point, and a path of one point starts and ends on it. *)
Theorem analyzeTrace_endpoints (t : Trace) :
  let a := analyzeTrace t in
  allPoints a
  = getPointsFromCommands (convertToAbsoluteCoordinates (parsePathCommands (pathData t)))
  /\ startPoint a = hd_error (allPoints a)
  /\ endPoint a = match allPoints a with
                  | [] => None
                  | p :: rest => Some (last rest p)
                  end
  /\ (startPoint a = None <-> allPoints a = [])
  /\ (endPoint a = None <-> allPoints a = []).
Proof.
  unfold analyzeTrace. cbn [allPoints startPoint endPoint].
  set (pts := getPointsFromCommands _).
  split; [reflexivity|].
  destruct pts as [|p rest].
  - cbn. repeat split; reflexivity.
  - change (0 <? List.length (p :: rest))%nat with true. cbv beta iota.
    rewrite (nth_error_last rest p p), last_cons.
    cbn [nth_error hd_error].
    repeat split; try reflexivity; discriminate.
Qed.

(** The direction is [unknown] exactly when the path resolves to fewer
    than two points; otherwise it is one of [horizontal], [vertical] and
    [diagonal]. *)
Theorem direction_unknown_iff_short (t : Trace) :
  (direction (analyzeTrace t) = "unknown"
   <-> List.length (allPoints (analyzeTrace t)) < 2)
  /\ (2 <= List.length (allPoints (analyzeTrace t)) ->
      direction (analyzeTrace t) = "horizontal"
      \/ direction (analyzeTrace t) = "vertical"
      \/ direction (analyzeTrace t) = "diagonal").
Proof.
  unfold analyzeTrace. cbn [allPoints direction].
  set (pts := getPointsFromCommands _).
  destruct pts as [|p [|q rest]].
  - cbn. split; [split; [lia | reflexivity] | lia].
  - cbn. split; [split; [lia | reflexivity] | lia].
  - change (0 <? List.length (p :: q :: rest))%nat with true.
    change (2 <=? List.length (p :: q :: rest))%nat with true. cbv beta iota.
    rewrite (nth_error_last (q :: rest) p p). cbn [nth_error].
    pose proof (classifyDirection_known p (last (p :: q :: rest) p)) as H.
    split; [|intros _; exact H].
    cbn [List.length]. split; [|lia].
    intros Hu. rewrite Hu in H. destruct H as [H|[H|H]]; discriminate H.
Qed.

Lemma direction_unknown_iff_short_witness :
  direction (analyzeTrace (mkTrace "t" "M3,4 C1,2 3,4 5,6" 1 None None None None))
  = "unknown"
  /\ (direction (analyzeTrace (mkTrace "t" "M3,4 h5" 1 None None None None)) = "horizontal"
      \/ direction (analyzeTrace (mkTrace "t" "M3,4 h5" 1 None None None None)) = "vertical"
      \/ direction (analyzeTrace (mkTrace "t" "M3,4 h5" 1 None None None None)) = "diagonal").
Proof.
  split.
  - apply (proj1 (direction_unknown_iff_short
                    (mkTrace "t" "M3,4 C1,2 3,4 5,6" 1 None None None None))).
    vm_compute. lia.
  - apply (proj2 (direction_unknown_iff_short
                    (mkTrace "t" "M3,4 h5" 1 None None None None))).
    vm_compute. lia.
Defined.

(** *** Reversing a trace *)

Lemma binary_round_sign (m : positive) (e : Z) :
  SFabs (binary_round prec emax true m e) = SFabs (binary_round prec emax false m e).
Proof.
  unfold binary_round, binary_round_aux.
  destruct (shl_align m e _) as [mz ez].
  destruct (shr_fexp prec emax (Z.pos mz) ez loc_Exact) as [mrs e'].
  destruct (shr_fexp prec emax _ e' loc_Exact) as [mrs' e''].
  destruct (shr_m mrs'); [reflexivity | | reflexivity].
  destruct (e'' <=? emax - prec)%Z; reflexivity.
Qed.

Lemma binary_normalize_opp (m e : Z) :
  SFabs (binary_normalize prec emax (- m) e false)
  = SFabs (binary_normalize prec emax m e false).
Proof.
  destruct m as [|p|p]; cbn [Z.opp binary_normalize]; [reflexivity | |].
  - apply binary_round_sign.
  - symmetry. apply binary_round_sign.
Qed.

Lemma SFsub_swap (a b : spec_float) :
  SFabs (SFsub prec emax a b) = SFabs (SFsub prec emax b a).
Proof.
  destruct a as [sa|sa| |sa ma ea]; destruct b as [sb|sb| |sb mb eb];
    try (destruct sa; destruct sb; reflexivity);
    try (destruct sa; reflexivity); try (destruct sb; reflexivity);
    try reflexivity.
  unfold SFsub. rewrite (Z.min_comm eb ea).
  rewrite <- binary_normalize_opp. f_equal. f_equal. lia.
Qed.

(** In binary64, [|a - b|] and [|b - a|] are the same number. *)
Lemma abs_sub_swap (a b : float) :
  JS.Math_abs (a - b)%float = JS.Math_abs (b - a)%float.
Proof.
  unfold JS.Math_abs. apply Prim2SF_inj.
  rewrite !abs_spec, !sub_spec. apply SFsub_swap.
Qed.

(** The classification does not depend on which end of the trace is taken
    for its start: swapping the two points gives the same direction. *)
Theorem classifyDirection_symmetric (s e : Point) :
  classifyDirection s e = classifyDirection e s.
Proof.
  unfold classifyDirection.
  now rewrite (abs_sub_swap (x e) (x s)), (abs_sub_swap (y e) (y s)).
Qed.

(** ** [findJunctions] *)

(** *** The map of buckets *)

Lemma Map_get_push (key k tid : string) (m : PointMap) :
  Map_get key (Map_push k tid m)
  = if String.eqb k key
    then option_map (fun w => w ++ [tid]) (Map_get key m)
    else Map_get key m.
Proof.
  unfold Map_get. induction m as [|[k' w] m IH].
  - cbn. now destruct (String.eqb k key).
  - cbn [Map_push]. destruct (String.eqb k' k) eqn:E.
    + apply String.eqb_eq in E. subst k'. cbn [find fst].
      destruct (String.eqb k key); reflexivity.
    + cbn [find fst]. destruct (String.eqb k' key) eqn:E'.
      * destruct (String.eqb k key) eqn:E''; [|reflexivity].
        apply String.eqb_eq in E', E''. subst. now rewrite String.eqb_refl in E.
      * exact IH.
Qed.

(** What one end point does to the bucket [key]. *)
Lemma Map_get_addContribution (key : string) (m : PointMap) (c : string * string) :
  Map_get key (addContribution m c)
  = if String.eqb (fst c) key
    then Some (match Map_get key m with Some w => w | None => [] end ++ [snd c])
    else Map_get key m.
Proof.
  unfold addContribution. rewrite Map_get_push, Map_has_get.
  destruct (String.eqb (fst c) key) eqn:E.
  - apply String.eqb_eq in E. rewrite E.
    destruct (Map_get key m) as [w|] eqn:G; [now rewrite G|].
    rewrite Map_get_set_new by exact G. now rewrite String.eqb_refl.
  - destruct (Map_get (fst c) m) eqn:G; [reflexivity|].
    rewrite Map_get_set_new by exact G. now rewrite E.
Qed.

Lemma Map_push_keys (k tid : string) (m : PointMap) :
  map fst (Map_push k tid m) = map fst m.
Proof.
  induction m as [|[k' w] m IH]; [reflexivity|].
  cbn [Map_push]. destruct (String.eqb k' k); cbn [map fst]; [reflexivity|].
  now rewrite IH.
Qed.

Lemma Map_set_keys_new (k : string) (v : list string) (m : PointMap) :
  Map_get k m = None -> map fst (Map_set k v m) = map fst m ++ [k].
Proof.
  unfold Map_get. induction m as [|[k' w] m IH]; intros H; [reflexivity|].
  cbn [find fst] in H. cbn [Map_set].
  destruct (String.eqb k' k); [discriminate H|].
  cbn [map fst app]. now rewrite IH.
Qed.

Lemma Map_get_none_keys (k : string) (m : PointMap) :
  Map_get k m = None <-> ~ In k (map fst m).
Proof.
  unfold Map_get. induction m as [|[k' w] m IH]; [cbn; tauto|].
  cbn [find fst map In]. destruct (String.eqb k' k) eqn:E.
  - apply String.eqb_eq in E. cbn. split; [discriminate | tauto].
  - apply String.eqb_neq in E. rewrite IH. tauto.
Qed.

Lemma addContribution_keys (m : PointMap) (c : string * string) :
  NoDup (map fst m) -> NoDup (map fst (addContribution m c)).
Proof.
  intros H. unfold addContribution. rewrite Map_push_keys, Map_has_get.
  destruct (Map_get (fst c) m) eqn:G; [exact H|].
  rewrite Map_set_keys_new by exact G.
  apply NoDup_app; [exact H | repeat constructor; intros [] |].
  intros k Hk [<-|[]]. now apply Map_get_none_keys in G.
Qed.

Lemma fold_addContribution_keys (cs : list (string * string)) :
  forall m : PointMap,
    NoDup (map fst m) -> NoDup (map fst (fold_left addContribution cs m)).
Proof.
  induction cs as [|c cs IH]; intros m H; [exact H|].
  cbn [fold_left]. apply IH. now apply addContribution_keys.
Qed.

(** The bucket [key] after a run holds what it held, followed by the ids
    brought to it, in order; it exists once an id was brought to it. *)
Lemma Map_get_fold (key : string) (cs : list (string * string)) :
  forall m : PointMap,
    Map_get key (fold_left addContribution cs m)
    = match Map_get key m, idsAt key cs with
      | None, [] => None
      | None, ids => Some ids
      | Some w, ids => Some (w ++ ids)
      end.
Proof.
  unfold idsAt. induction cs as [|c cs IH]; intros m.
  - cbn. destruct (Map_get key m); [now rewrite app_nil_r | reflexivity].
  - cbn [fold_left filter]. rewrite IH, Map_get_addContribution.
    destruct (String.eqb (fst c) key).
    + cbn [map]. destruct (Map_get key m) as [w|].
      * now rewrite <- app_assoc.
      * reflexivity.
    + reflexivity.
Qed.

Lemma Map_get_In (key : string) (w : list string) (m : PointMap) :
  NoDup (map fst m) -> (In (key, w) m <-> Map_get key m = Some w).
Proof.
  unfold Map_get. induction m as [|[k' w'] m IH]; intros Hnd.
  - cbn. split; [tauto | discriminate].
  - cbn [map fst] in Hnd. inversion Hnd as [|? ? Hnotin Hnd']; subst.
    cbn [In find fst]. destruct (String.eqb k' key) eqn:E.
    + apply String.eqb_eq in E. subst k'. cbn [option_map snd]. split.
      * intros [H|H]; [now injection H as -> | ].
        exfalso. apply Hnotin. now apply (in_map fst) in H.
      * intros H. injection H as ->. now left.
    + apply String.eqb_neq in E. rewrite <- (IH Hnd'). split.
      * intros [H|H]; [injection H as -> _; contradiction | exact H].
      * tauto.
Qed.

(** The first [forEach] adds the end points one after the other. *)
Lemma collectEndpoints_contributions (minDistance : float) (ts : list AnalyzedTrace) :
  collectEndpoints minDistance ts
  = fold_left addContribution (contributions minDistance ts) [].
Proof.
  unfold collectEndpoints, contributions. rewrite fold_left_flat_map.
  apply fold_left_pointwise. intros m t.
  unfold contributionsOf, addEndpoint, traceId.
  destruct (startPoint t), (endPoint t); reflexivity.
Qed.

Lemma collectEndpoints_keys (minDistance : float) (ts : list AnalyzedTrace) :
  NoDup (map fst (collectEndpoints minDistance ts)).
Proof.
  rewrite collectEndpoints_contributions.
  apply fold_addContribution_keys. constructor.
Qed.

(** The map has one entry for each bucket an end point falls into, and the
    entry lists the ids of these end points, in order. *)
Lemma collectEndpoints_entries (minDistance : float) (ts : list AnalyzedTrace)
    (key : string) (w : list string) :
  In (key, w) (collectEndpoints minDistance ts)
  <-> w = idsAt key (contributions minDistance ts) /\ w <> [].
Proof.
  rewrite (Map_get_In key w _ (collectEndpoints_keys minDistance ts)).
  rewrite collectEndpoints_contributions, Map_get_fold. cbn [Map_get find option_map].
  destruct (idsAt key (contributions minDistance ts)) as [|i ids].
  - split; [discriminate | intros [-> H]; contradiction].
  - split.
    + intros H. injection H as <-. split; [reflexivity | discriminate].
    + intros [-> _]. reflexivity.
Qed.

(** *** Removing duplicates *)

Lemma uniq_In (l : list string) (i : string) : In i (JS.uniq l) <-> In i l.
Proof.
  induction l as [|s l IH]; [tauto|].
  cbn [JS.uniq In]. rewrite filter_In, IH.
  destruct (String.eqb i s) eqn:E.
  - apply String.eqb_eq in E. subst. split; [tauto | now left].
  - cbn [negb]. apply String.eqb_neq in E. split.
    + tauto.
    + intros [H|H]; [now left | right; tauto].
Qed.

Lemma uniq_NoDup (l : list string) : NoDup (JS.uniq l).
Proof.
  induction l as [|s l IH]; [constructor|].
  cbn [JS.uniq]. constructor.
  - rewrite filter_In, String.eqb_refl. cbn. intros [_ H]. discriminate H.
  - now apply NoDup_filter.
Qed.

(** *** What a junction lists *)

Lemma In_idsAt (key i : string) (cs : list (string * string)) :
  In i (idsAt key cs) <-> In (key, i) cs.
Proof.
  unfold idsAt. rewrite in_map_iff. split.
  - intros [[k j] [Hj Hin]]. cbn [snd] in Hj. subst j.
    apply filter_In in Hin. destruct Hin as [Hin Hk]. cbn [fst] in Hk.
    apply String.eqb_eq in Hk. now subst k.
  - intros H. exists (key, i). split; [reflexivity|].
    apply filter_In. split; [exact H|]. cbn [fst]. apply String.eqb_refl.
Qed.

Lemma In_contributionsOf (minDistance : float) (t : AnalyzedTrace) (key i : string) :
  In (key, i) (contributionsOf minDistance t)
  <-> traceId t = i /\ exists p, endpointOf t p /\ bucketKey minDistance p = key.
Proof.
  unfold contributionsOf, endpointOf. rewrite in_app_iff. split.
  - intros [H|H].
    + destruct (startPoint t) as [p|]; [|destruct H].
      destruct H as [H|[]]. injection H as <- <-.
      split; [reflexivity|]. exists p. split; [now left | reflexivity].
    + destruct (endPoint t) as [p|]; [|destruct H].
      destruct H as [H|[]]. injection H as <- <-.
      split; [reflexivity|]. exists p. split; [now right | reflexivity].
  - intros [<- [p [[H|H] <-]]]; rewrite H; [left | right]; now left.
Qed.

Lemma In_contributions (minDistance : float) (ts : list AnalyzedTrace) (key i : string) :
  In (key, i) (contributions minDistance ts)
  <-> exists (t : AnalyzedTrace) (p : Point),
        In t ts /\ traceId t = i /\ endpointOf t p /\ bucketKey minDistance p = key.
Proof.
  unfold contributions. rewrite in_flat_map. split.
  - intros [t [Ht H]]. apply In_contributionsOf in H.
    destruct H as [Hid [p [Hp Hk]]]. now exists t, p.
  - intros [t [p [Ht [Hid [Hp Hk]]]]]. exists t. split; [exact Ht|].
    apply In_contributionsOf. split; [exact Hid|]. now exists p.
Qed.

Lemma In_findJunctions (ts : list AnalyzedTrace) (options : ParserOptions) (j : Junction) :
  In j (findJunctions ts options)
  <-> exists key : string,
        let ids := idsAt key (contributions (minDistanceOf options) ts) in
        2 <= List.length ids
        /\ j = mkJunction (pointOfKey (minDistanceOf options) key) (JS.uniq ids).
Proof.
  unfold findJunctions. rewrite in_flat_map. split.
  - intros [[key w] [Hin Hj]]. apply collectEndpoints_entries in Hin.
    destruct Hin as [-> _]. exists key. cbn zeta.
    unfold junctionOf in Hj.
    destruct (1 <? List.length _)%nat eqn:E; [|destruct Hj].
    apply Nat.ltb_lt in E. destruct Hj as [<-|[]]. split; [lia | reflexivity].
  - intros [key [Hlen ->]].
    exists (key, idsAt key (contributions (minDistanceOf options) ts)). split.
    + apply collectEndpoints_entries. split; [reflexivity|].
      intros H. rewrite H in Hlen. cbn in Hlen. lia.
    + unfold junctionOf.
      replace (1 <? List.length _)%nat with true
        by (symmetry; apply Nat.ltb_lt; lia).
      now left.
Qed.

(** Every junction comes from one bucket that at least two end points fell
    into: its point is computed back from the key of the bucket, it lists
    no id twice, and it lists exactly the ids of the traces that have an
    end point in the bucket. *)
Theorem junction_lists_the_traces_of_its_bucket
    (ts : list AnalyzedTrace) (options : ParserOptions) (j : Junction) :
  In j (findJunctions ts options) ->
  exists key : string,
    point j = pointOfKey (minDistanceOf options) key
    /\ 2 <= List.length (idsAt key (contributions (minDistanceOf options) ts))
    /\ NoDup (traceIds j)
    /\ traceIds j <> []
    /\ (forall i : string,
           In i (traceIds j)
           <-> exists (t : AnalyzedTrace) (p : Point),
                 In t ts /\ traceId t = i /\ endpointOf t p
                 /\ bucketKey (minDistanceOf options) p = key).
Proof.
  intros Hj. apply In_findJunctions in Hj. destruct Hj as [key [Hlen ->]].
  exists key. cbn [point traceIds].
  split; [reflexivity|]. split; [exact Hlen|]. split; [apply uniq_NoDup|].
  split.
  - destruct (idsAt key _) as [|i ids]; [cbn in Hlen; lia | discriminate].
  - intros i. now rewrite uniq_In, In_idsAt, In_contributions.
Qed.

Lemma junction_lists_the_traces_of_its_bucket_witness :
  let ts :=
    map analyzeTrace
      [mkTrace "a" "M0,0 L5.02,5.0" 1 None None None None;
       mkTrace "b" "M5.0,5.0 L9,9" 1 None None None None] in
  exists key : string,
    mkPoint 5 5 = pointOfKey (minDistanceOf (mkOptions None None)) key
    /\ 2 <= List.length (idsAt key (contributions (minDistanceOf (mkOptions None None)) ts))
    /\ NoDup ["a"; "b"]
    /\ ["a"; "b"] <> []
    /\ (forall i : string,
           In i ["a"; "b"]
           <-> exists (t : AnalyzedTrace) (p : Point),
                 In t ts /\ traceId t = i /\ endpointOf t p
                 /\ bucketKey (minDistanceOf (mkOptions None None)) p = key).
Proof.
  intros ts.
  apply (junction_lists_the_traces_of_its_bucket ts (mkOptions None None)
           (mkJunction (mkPoint 5 5) ["a"; "b"])).
  vm_compute. now left.
Defined.

(** *** Traces that meet *)

Lemma idsAt_app (key : string) (cs cs' : list (string * string)) :
  idsAt key (cs ++ cs') = idsAt key cs ++ idsAt key cs'.
Proof. unfold idsAt. now rewrite filter_app, map_app. Qed.

Lemma list_sum_cons (a : nat) (l : list nat) : list_sum (a :: l) = a + list_sum l.
Proof. reflexivity. Qed.

Lemma idsAt_contributions_length (minDistance : float) (key : string)
    (ts : list AnalyzedTrace) :
  List.length (idsAt key (contributions minDistance ts))
  = list_sum (map (fun t => List.length (idsAt key (contributionsOf minDistance t))) ts).
Proof.
  unfold contributions. induction ts as [|t ts IH]; [reflexivity|].
  cbn [flat_map map]. now rewrite list_sum_cons, idsAt_app, length_app, IH.
Qed.

Lemma list_sum_nth (f : AnalyzedTrace -> nat) (ts : list AnalyzedTrace) :
  forall (n : nat) (t : AnalyzedTrace),
    nth_error ts n = Some t -> f t <= list_sum (map f ts).
Proof.
  induction ts as [|u ts IH]; intros [|n] t H; try discriminate H;
    cbn [nth_error map] in *; rewrite list_sum_cons.
  - injection H as ->. lia.
  - specialize (IH n t H). lia.
Qed.

Lemma list_sum_two (f : AnalyzedTrace -> nat) (ts : list AnalyzedTrace) :
  forall (n1 n2 : nat) (t1 t2 : AnalyzedTrace),
    n1 <> n2 ->
    nth_error ts n1 = Some t1 -> nth_error ts n2 = Some t2 ->
    f t1 + f t2 <= list_sum (map f ts).
Proof.
  induction ts as [|u ts IH]; intros [|n1] [|n2] t1 t2 Hne H1 H2;
    try discriminate H1; try discriminate H2; try (now contradiction Hne);
    cbn [nth_error map] in *; rewrite list_sum_cons.
  - injection H1 as ->. pose proof (list_sum_nth f ts n2 t2 H2). lia.
  - injection H2 as ->. pose proof (list_sum_nth f ts n1 t1 H1). lia.
  - assert (Hne' : n1 <> n2) by congruence.
    specialize (IH n1 n2 t1 t2 Hne' H1 H2). lia.
Qed.

(** Two traces, at different places of the sequence, that each have an end
    point in the same bucket are listed together by a junction, whose
    point is computed back from the key of the bucket. *)
Theorem traces_in_one_bucket_share_a_junction
    (ts : list AnalyzedTrace) (options : ParserOptions)
    (n1 n2 : nat) (t1 t2 : AnalyzedTrace) (p1 p2 : Point) :
  n1 <> n2 ->
  nth_error ts n1 = Some t1 ->
  nth_error ts n2 = Some t2 ->
  endpointOf t1 p1 ->
  endpointOf t2 p2 ->
  bucketKey (minDistanceOf options) p1 = bucketKey (minDistanceOf options) p2 ->
  exists j : Junction,
    In j (findJunctions ts options)
    /\ In (traceId t1) (traceIds j)
    /\ In (traceId t2) (traceIds j)
    /\ point j
       = pointOfKey (minDistanceOf options) (bucketKey (minDistanceOf options) p1).
Proof.
  intros Hne H1 H2 Hp1 Hp2 Hkey.
  set (tol := minDistanceOf options) in *.
  set (key := bucketKey tol p1) in *.
  exists (mkJunction (pointOfKey tol key) (JS.uniq (idsAt key (contributions tol ts)))).
  assert (Hin : forall t p, In t ts -> endpointOf t p -> bucketKey tol p = key ->
                       In (traceId t) (idsAt key (contributions tol ts))).
  { intros t p Ht Hp Hk. apply In_idsAt, In_contributions. now exists t, p. }
  assert (Hone : forall t p, endpointOf t p -> bucketKey tol p = key ->
                        1 <= List.length (idsAt key (contributionsOf tol t))).
  { intros t p Hp Hk.
    assert (H : In (traceId t) (idsAt key (contributionsOf tol t))).
    { apply In_idsAt, In_contributionsOf. split; [reflexivity|]. now exists p. }
    destruct (idsAt key (contributionsOf tol t)); [destruct H | cbn; lia]. }
  split; [|cbn [traceIds point]; repeat split].
  - apply In_findJunctions. exists key. split; [|reflexivity].
    rewrite idsAt_contributions_length.
    pose proof (list_sum_two
                  (fun t => List.length (idsAt key (contributionsOf tol t)))
                  ts n1 n2 t1 t2 Hne H1 H2) as Hsum.
    pose proof (Hone t1 p1 Hp1 eq_refl). pose proof (Hone t2 p2 Hp2 (eq_sym Hkey)).
    cbn beta in Hsum. fold tol. lia.
  - apply uniq_In. apply (Hin t1 p1); [now apply nth_error_In in H1 | exact Hp1 | reflexivity].
  - apply uniq_In. apply (Hin t2 p2); [now apply nth_error_In in H2 | exact Hp2 | now symmetry].
Qed.

Lemma traces_in_one_bucket_share_a_junction_witness :
  let ts :=
    map analyzeTrace
      [mkTrace "a" "M0,0 L5.02,5.0" 1 None None None None;
       mkTrace "b" "M5.0,5.0 L9,9" 1 None None None None] in
  exists j : Junction,
    In j (findJunctions ts (mkOptions None None))
    /\ In "a" (traceIds j) /\ In "b" (traceIds j)
    /\ point j = pointOfKey 0.1 "50,50".
Proof.
  intros ts.
  exact (traces_in_one_bucket_share_a_junction ts (mkOptions None None) 0 1
           (analyzeTrace (mkTrace "a" "M0,0 L5.02,5.0" 1 None None None None))
           (analyzeTrace (mkTrace "b" "M5.0,5.0 L9,9" 1 None None None None))
           (mkPoint 5.02 5.0) (mkPoint 5.0 5.0)
           (fun H => O_S 0 H) eq_refl eq_refl
           (or_intror eq_refl) (or_introl eq_refl) eq_refl).
Defined.

(** *** Traces without end point, and how many junctions there can be *)

Lemma contributionsOf_none (minDistance : float) (t : AnalyzedTrace) :
  hasEndpoint t = false -> contributionsOf minDistance t = [].
Proof.
  unfold hasEndpoint, contributionsOf.
  destruct (startPoint t), (endPoint t); intros H; try discriminate H; reflexivity.
Qed.

Lemma contributions_filter (minDistance : float) (ts : list AnalyzedTrace) :
  contributions minDistance (filter hasEndpoint ts) = contributions minDistance ts.
Proof.
  unfold contributions. induction ts as [|t ts IH]; [reflexivity|].
  cbn [filter flat_map]. destruct (hasEndpoint t) eqn:E.
  - cbn [flat_map]. now rewrite IH.
  - now rewrite contributionsOf_none, IH.
Qed.

(** A trace that has no start and no end point, as a trace whose path
    resolves to no point, is ignored by the junction builder: the junctions
    are those of the other traces. *)
Theorem findJunctions_ignores_traces_without_points
    (ts : list AnalyzedTrace) (options : ParserOptions) :
  findJunctions (filter hasEndpoint ts) options = findJunctions ts options.
Proof.
  unfold findJunctions.
  now rewrite !collectEndpoints_contributions, contributions_filter.
Qed.

Lemma heldIds_cons (k : string) (w : list string) (m : PointMap) :
  heldIds ((k, w) :: m) = List.length w + heldIds m.
Proof. reflexivity. Qed.

Lemma heldIds_push (k tid : string) (m : PointMap) :
  Map_get k m <> None -> heldIds (Map_push k tid m) = S (heldIds m).
Proof.
  unfold Map_get. induction m as [|[k' w] m IH]; intros H; [now contradiction H|].
  cbn [find fst] in H. cbn [Map_push]. destruct (String.eqb k' k).
  - rewrite !heldIds_cons, length_app. cbn [List.length]. lia.
  - rewrite !heldIds_cons, IH by exact H. lia.
Qed.

Lemma heldIds_set_new (k : string) (m : PointMap) :
  Map_get k m = None -> heldIds (Map_set k [] m) = heldIds m.
Proof.
  unfold Map_get. induction m as [|[k' w] m IH]; intros H; [reflexivity|].
  cbn [find fst] in H. cbn [Map_set]. destruct (String.eqb k' k); [discriminate H|].
  now rewrite !heldIds_cons, IH.
Qed.

(** No end point is lost and none is counted twice. *)
Lemma heldIds_addContribution (m : PointMap) (c : string * string) :
  heldIds (addContribution m c) = S (heldIds m).
Proof.
  unfold addContribution. rewrite Map_has_get.
  destruct (Map_get (fst c) m) eqn:G.
  - apply heldIds_push. congruence.
  - rewrite heldIds_push, heldIds_set_new by
      (try exact G; rewrite Map_get_set_new, String.eqb_refl by exact G; discriminate).
    reflexivity.
Qed.

Lemma heldIds_fold (cs : list (string * string)) :
  forall m : PointMap,
    heldIds (fold_left addContribution cs m) = List.length cs + heldIds m.
Proof.
  induction cs as [|c cs IH]; intros m; [reflexivity|].
  cbn [fold_left List.length]. rewrite IH, heldIds_addContribution. lia.
Qed.

Lemma junctions_le_heldIds (minDistance : float) (m : PointMap) :
  2 * List.length (flat_map (junctionOf minDistance) m) <= heldIds m.
Proof.
  induction m as [|[k w] m IH]; [cbn; lia|].
  cbn [flat_map]. rewrite length_app, heldIds_cons.
  unfold junctionOf at 1. destruct (1 <? List.length w)%nat eqn:E.
  - apply Nat.ltb_lt in E. cbn [List.length]. lia.
  - cbn [List.length]. lia.
Qed.

Lemma contributions_length (minDistance : float) (ts : list AnalyzedTrace) :
  List.length (contributions minDistance ts) <= 2 * List.length ts.
Proof.
  unfold contributions. induction ts as [|t ts IH]; [cbn; lia|].
  cbn [flat_map List.length]. rewrite length_app.
  assert (H : List.length (contributionsOf minDistance t) <= 2).
  { unfold contributionsOf. destruct (startPoint t), (endPoint t); cbn; lia. }
  lia.
Qed.

(** The buckets hold each end point once, and a junction takes two end
    points at least: there are never more junctions than traces. *)
Theorem junctions_no_more_than_traces
    (ts : list AnalyzedTrace) (options : ParserOptions) :
  heldIds (collectEndpoints (minDistanceOf options) ts)
  = List.length (contributions (minDistanceOf options) ts)
  /\ List.length (findJunctions ts options) <= List.length ts.
Proof.
  pose proof (junctions_le_heldIds (minDistanceOf options)
                (collectEndpoints (minDistanceOf options) ts)) as H.
  pose proof (contributions_length (minDistanceOf options) ts) as H'.
  unfold findJunctions.
  rewrite collectEndpoints_contributions in *. rewrite heldIds_fold in *.
  change (heldIds []) with 0 in *. split; lia.
Qed.

(** ** [updateTraceConnectivity] *)

(** *** A run only appends *)

Lemma grownFrom_refl (t : AnalyzedTrace) : grownFrom t t.
Proof. split; [reflexivity|]. exists []. now rewrite app_nil_r. Qed.

Lemma grownFrom_trans (t t' t'' : AnalyzedTrace) :
  grownFrom t t' -> grownFrom t' t'' -> grownFrom t t''.
Proof.
  intros [H1 [a1 G1]] [H2 [a2 G2]]. split; [congruence|].
  exists (a1 ++ a2). now rewrite G2, G1, app_assoc.
Qed.

Lemma grownFrom_pushConnected (b : string) (t : AnalyzedTrace) :
  grownFrom t (pushConnected b t).
Proof.
  unfold pushConnected. destruct (connectedTraces t) as [l|] eqn:E;
    [|apply grownFrom_refl].
  destruct (JS.includes l b); [apply grownFrom_refl|].
  split; [reflexivity|]. exists [b]. unfold connected.
  cbn [setConnected connectedTraces]. now rewrite E.
Qed.

Lemma grownFrom_initConnected (t : AnalyzedTrace) : grownFrom t (initConnected t).
Proof.
  unfold initConnected. destruct (connectedTraces t) eqn:E; [apply grownFrom_refl|].
  split; [reflexivity|]. exists []. unfold connected.
  cbn [setConnected connectedTraces]. now rewrite E.
Qed.

Lemma Forall2_grownFrom_refl (ts : list AnalyzedTrace) : Forall2 grownFrom ts ts.
Proof. induction ts; constructor; [apply grownFrom_refl | assumption]. Qed.

Lemma Forall2_grownFrom_trans (ts ts' ts'' : list AnalyzedTrace) :
  Forall2 grownFrom ts ts' -> Forall2 grownFrom ts' ts'' -> Forall2 grownFrom ts ts''.
Proof.
  intros H. revert ts''. induction H as [|t t' ts ts' Ht Hts IH]; intros ts'' H';
    inversion H'; subst; constructor.
  - eapply grownFrom_trans; eassumption.
  - now apply IH.
Qed.

Lemma connectIn_grows (a b : string) (ts : list AnalyzedTrace) :
  Forall2 grownFrom ts (connectIn a b ts).
Proof.
  induction ts as [|t rest IH]; [constructor|].
  cbn [connectIn]. destruct (String.eqb (id (trace t)) a).
  - constructor; [apply grownFrom_pushConnected | apply Forall2_grownFrom_refl].
  - constructor; [apply grownFrom_refl | exact IH].
Qed.

Lemma connectAll_grows (pairs : list (string * string)) :
  forall ts : list AnalyzedTrace, Forall2 grownFrom ts (connectAll ts pairs).
Proof.
  unfold connectAll.
  induction pairs as [|p rest IH]; intros ts; [apply Forall2_grownFrom_refl|].
  cbn [fold_left]. eapply Forall2_grownFrom_trans; [|apply IH].
  unfold connectPair. destruct (String.eqb (fst p) (snd p));
    [apply Forall2_grownFrom_refl | apply connectIn_grows].
Qed.

(** A run of the connectivity builder only appends ids: the traces stay in
    their order, every field but the connected ids keeps its value, and
    the ids a trace listed before are still listed, at the same places. *)
Theorem updateTraceConnectivity_only_appends
    (ts : list AnalyzedTrace) (junctions : list Junction) :
  Forall2
    (fun t t' =>
       restOf t' = restOf t
       /\ exists added : list string, connected t' = connected t ++ added)
    ts (updateTraceConnectivity ts junctions).
Proof.
  change (Forall2 grownFrom ts (updateTraceConnectivity ts junctions)).
  rewrite updateTraceConnectivity_pairs.
  eapply Forall2_grownFrom_trans; [|apply connectAll_grows].
  induction ts; constructor; [apply grownFrom_initConnected | assumption].
Qed.

(** *** No trace is connected to itself *)

Lemma connectIn_noSelf (a b : string) (ts : list AnalyzedTrace) :
  a <> b -> noSelfConnection ts -> noSelfConnection (connectIn a b ts).
Proof.
  unfold noSelfConnection. intros Hab.
  induction ts as [|t rest IH]; intros H u Hu; [destruct Hu|].
  cbn [connectIn] in Hu. destruct (String.eqb (id (trace t)) a) eqn:E.
  - destruct Hu as [<-|Hu]; [|apply H; now right].
    rewrite traceId_pushConnected. intros Hin.
    unfold pushConnected, connected in Hin.
    destruct (connectedTraces t) as [l|] eqn:El.
    + destruct (JS.includes l b).
      * apply (H t (or_introl eq_refl)). unfold connected. now rewrite El in *.
      * cbn [setConnected connectedTraces] in Hin.
        apply in_app_iff in Hin. destruct Hin as [Hin|[Hin|[]]].
        -- apply (H t (or_introl eq_refl)). unfold connected. now rewrite El.
        -- apply String.eqb_eq in E. unfold traceId in Hin. congruence.
    + apply (H t (or_introl eq_refl)). unfold connected. now rewrite El in *.
  - destruct Hu as [<-|Hu]; [apply H; now left|].
    apply IH; [|exact Hu]. intros v Hv. apply H. now right.
Qed.

Lemma connectAll_noSelf (pairs : list (string * string)) :
  forall ts : list AnalyzedTrace,
    noSelfConnection ts -> noSelfConnection (connectAll ts pairs).
Proof.
  unfold connectAll.
  induction pairs as [|p rest IH]; intros ts H; [exact H|].
  cbn [fold_left]. apply IH. unfold connectPair.
  destruct (String.eqb (fst p) (snd p)) eqn:E; [exact H|].
  apply connectIn_noSelf; [now apply String.eqb_neq | exact H].
Qed.

(** The builder never connects a trace to itself: when no trace lists its
    own id before a run, as after the analysis, none does after it, even
    when a junction lists one id only or two traces share an id. *)
Theorem updateTraceConnectivity_no_self_connection
    (ts : list AnalyzedTrace) (junctions : list Junction) :
  (forall t : AnalyzedTrace, In t ts -> ~ In (traceId t) (connected t)) ->
  forall t : AnalyzedTrace,
    In t (updateTraceConnectivity ts junctions) -> ~ In (traceId t) (connected t).
Proof.
  intros H. rewrite updateTraceConnectivity_pairs.
  apply connectAll_noSelf. intros t Ht.
  apply in_map_iff in Ht. destruct Ht as [u [<- Hu]].
  rewrite traceId_initConnected, connected_initConnected. now apply H.
Qed.

Lemma updateTraceConnectivity_no_self_connection_witness :
  let ts :=
    map analyzeTrace
      [mkTrace "a" "M0,0 L5,5 Z" 1 None None None None;
       mkTrace "b" "M5,5 L0,0" 1 None None None None] in
  Forall (fun t => ~ In (traceId t) (connected t))
    (updateTraceConnectivity ts (findJunctions ts (mkOptions None None))).
Proof.
  intros ts. apply Forall_forall.
  apply updateTraceConnectivity_no_self_connection.
  intros t Ht. apply in_map_iff in Ht. destruct Ht as [u [<- _]].
  cbn. tauto.
Defined.

(** *** Which ids a trace lists *)

Lemma In_pairs (junctions : list Junction) (a b : string) :
  In (a, b) (flat_map pairsOf junctions)
  <-> exists j : Junction,
        In j junctions /\ In a (traceIds j) /\ In b (traceIds j).
Proof.
  rewrite in_flat_map. split; intros [j [Hj H]]; exists j; split; try exact Hj;
    now apply In_pairsOf.
Qed.

(** From traces that list nothing, as the analysis leaves them, and with
    distinct ids, a trace lists an id after the run exactly when the id is
    not its own and some junction lists both. *)
Theorem connected_iff_share_a_junction
    (ts : list AnalyzedTrace) (junctions : list Junction)
    (A : AnalyzedTrace) (z : string) :
  NoDup (map traceId ts) ->
  (forall t : AnalyzedTrace, In t ts -> connected t = []) ->
  In A (updateTraceConnectivity ts junctions) ->
  (In z (connected A)
   <-> z <> traceId A
       /\ exists j : Junction,
            In j junctions /\ In (traceId A) (traceIds j) /\ In z (traceIds j)).
Proof.
  intros Hnd Hempty HA.
  pose proof (updateTraceConnectivity_ids ts junctions) as Hids.
  assert (Hnd1 : NoDup (map traceId (updateTraceConnectivity ts junctions)))
    by now rewrite Hids.
  pose proof (In_findTrace _ _ Hnd1 HA) as HfA.
  rewrite updateTraceConnectivity_pairs in *.
  set (ts0 := map initConnected ts) in *.
  assert (Hinit : allInitialised ts0) by apply initConnected_initialised.
  assert (Hids0 : map traceId ts0 = map traceId ts).
  { unfold ts0. rewrite map_map. apply map_ext. exact traceId_initConnected. }
  assert (Hnone : forall i y, ~ linked ts0 i y).
  { intros i y [t [Ht Hy]]. apply findTrace_In in Ht. destruct Ht as [Ht _].
    unfold ts0 in Ht. apply in_map_iff in Ht. destruct Ht as [u [<- Hu]].
    rewrite connected_initConnected, (Hempty u Hu) in Hy. destruct Hy. }
  assert (Hsome : findTrace (traceId A) ts0 <> None).
  { destruct (findTrace_of_id ts0 (traceId A)) as [t Ht]; [|congruence].
    rewrite Hids0, <- Hids. now apply in_map. }
  assert (L : In z (connected A)
              <-> linked (connectAll ts0 (flat_map pairsOf junctions)) (traceId A) z).
  { split.
    - intros H. now exists A.
    - intros [t [Ht H]]. rewrite HfA in Ht. now injection Ht as <-. }
  rewrite L, linked_connectAll by exact Hinit. rewrite In_pairs. split.
  - intros [H|[Hp [Hne _]]]; [now apply Hnone in H|].
    split; [congruence | exact Hp].
  - intros [Hne Hp]. right. repeat split; [exact Hp | congruence | exact Hsome].
Qed.

Lemma connected_iff_share_a_junction_witness :
  let ts :=
    map analyzeTrace
      [mkTrace "a" "M0,0 L5.02,5.0" 1 None None None None;
       mkTrace "b" "M5.0,5.0 L9,9" 1 None None None None] in
  let junctions := [mkJunction (mkPoint 5 5) ["a"; "b"]] in
  let A := setConnected
             (analyzeTrace (mkTrace "a" "M0,0 L5.02,5.0" 1 None None None None)) ["b"] in
  In "b" (connected A)
  <-> "b" <> traceId A
      /\ exists j : Junction,
           In j junctions /\ In (traceId A) (traceIds j) /\ In "b" (traceIds j).
Proof.
  intros ts junctions A.
  apply (connected_iff_share_a_junction ts junctions A "b").
  - vm_compute. repeat constructor; cbn; intuition discriminate.
  - intros t Ht. apply in_map_iff in Ht. destruct Ht as [u [<- _]]. reflexivity.
  - vm_compute. now left.
Defined.

(** ** [analyzeTracesInSVG], after the extraction *)

Lemma analyzeTrace_ids (rawTraces : list Trace) :
  map traceId (map analyzeTrace rawTraces) = map id rawTraces.
Proof. rewrite map_map. reflexivity. Qed.

Lemma endpointOf_endpoints (t t' : AnalyzedTrace) (p : Point) :
  endpointsOf t = endpointsOf t' -> endpointOf t p -> endpointOf t' p.
Proof.
  unfold endpointsOf, endpointOf. intros H. injection H as _ Hs He.
  now rewrite Hs, He.
Qed.

Lemma same_id_same_trace (ts : list AnalyzedTrace) (t u : AnalyzedTrace) :
  NoDup (map traceId ts) -> In t ts -> In u ts -> traceId t = traceId u -> t = u.
Proof.
  intros Hnd Ht Hu Hid.
  pose proof (In_findTrace ts t Hnd Ht) as H1.
  pose proof (In_findTrace ts u Hnd Hu) as H2.
  rewrite Hid in H1. congruence.
Qed.

Lemma nth_error_endpoints (ts ts' : list AnalyzedTrace) (n : nat) (t' : AnalyzedTrace) :
  map endpointsOf ts' = map endpointsOf ts ->
  nth_error ts' n = Some t' ->
  exists t : AnalyzedTrace, nth_error ts n = Some t /\ endpointsOf t = endpointsOf t'.
Proof.
  intros Hmap Hn.
  apply (map_nth_error endpointsOf) in Hn. rewrite Hmap in Hn.
  rewrite nth_error_map in Hn.
  destruct (nth_error ts n) as [t|]; [|discriminate Hn].
  exists t. split; [reflexivity|]. cbn in Hn. congruence.
Qed.

(** The whole analysis, on traces with distinct ids: of two traces of the
    result, one lists the other exactly when an end point of the one and
    an end point of the other fall into the same bucket. *)
Theorem connected_iff_endpoints_share_a_bucket
    (rawTraces : list Trace) (options : ParserOptions)
    (n1 n2 : nat) (A B : AnalyzedTrace) :
  NoDup (map id rawTraces) ->
  n1 <> n2 ->
  nth_error (fst (analyzeExtractedTraces rawTraces options)) n1 = Some A ->
  nth_error (fst (analyzeExtractedTraces rawTraces options)) n2 = Some B ->
  (In (traceId B) (connected A)
   <-> exists pA pB : Point,
         endpointOf A pA /\ endpointOf B pB
         /\ bucketKey (minDistanceOf options) pA
            = bucketKey (minDistanceOf options) pB).
Proof.
  unfold analyzeExtractedTraces, buildJunctions. cbn [fst].
  set (ts := map analyzeTrace rawTraces).
  set (js := findJunctions ts options).
  intros Hnd Hne HA HB.
  assert (Hnd0 : NoDup (map traceId ts))
    by (unfold ts; now rewrite analyzeTrace_ids).
  pose proof (updateTraceConnectivity_endpoints ts js) as Hend.
  pose proof (updateTraceConnectivity_ids ts js) as Hids.
  destruct (nth_error_endpoints ts _ n1 A Hend HA) as [A0 [HA0 HeA]].
  destruct (nth_error_endpoints ts _ n2 B Hend HB) as [B0 [HB0 HeB]].
  assert (HidA : traceId A0 = traceId A)
    by (unfold endpointsOf in HeA; congruence).
  assert (HidB : traceId B0 = traceId B)
    by (unfold endpointsOf in HeB; congruence).
  assert (Hdiff : traceId B <> traceId A).
  { intros Heq. apply Hne.
    assert (Hlt : n1 < List.length (map traceId ts)).
    { rewrite length_map. apply nth_error_Some. congruence. }
    apply (proj1 (NoDup_nth_error _) Hnd0 n1 n2 Hlt).
    rewrite (map_nth_error traceId n1 ts HA0), (map_nth_error traceId n2 ts HB0).
    congruence. }
  assert (Hempty : forall t, In t ts -> connected t = []).
  { intros t Ht. unfold ts in Ht. apply in_map_iff in Ht.
    destruct Ht as [u [<- _]]. reflexivity. }
  rewrite (connected_iff_share_a_junction ts js A (traceId B) Hnd0 Hempty
             (nth_error_In _ _ HA)).
  split.
  - intros [_ [j [Hj [HjA HjB]]]].
    destruct (junction_lists_the_traces_of_its_bucket ts options j Hj)
      as [key [_ [_ [_ [_ Hlist]]]]].
    apply Hlist in HjA. apply Hlist in HjB.
    destruct HjA as [tA [pA [HtA [HiA [HpA HkA]]]]].
    destruct HjB as [tB [pB [HtB [HiB [HpB HkB]]]]].
    assert (tA = A0).
    { apply (same_id_same_trace ts); try assumption;
        [now apply nth_error_In in HA0 | congruence]. }
    assert (tB = B0).
    { apply (same_id_same_trace ts); try assumption;
        [now apply nth_error_In in HB0 | congruence]. }
    subst tA tB. exists pA, pB. repeat split.
    + now apply (endpointOf_endpoints A0 A).
    + now apply (endpointOf_endpoints B0 B).
    + congruence.
  - intros [pA [pB [HpA [HpB Hkey]]]]. split; [exact Hdiff|].
    destruct (traces_in_one_bucket_share_a_junction ts options n1 n2 A0 B0 pA pB
                Hne HA0 HB0
                (endpointOf_endpoints A A0 pA (eq_sym HeA) HpA)
                (endpointOf_endpoints B B0 pB (eq_sym HeB) HpB) Hkey)
      as [j [Hj [HjA [HjB _]]]].
    exists j. rewrite <- HidA, <- HidB. now repeat split.
Qed.

Lemma connected_iff_endpoints_share_a_bucket_witness :
  let rawTraces :=
    [mkTrace "a" "M0,0 L5.02,5.0" 1 None None None None;
     mkTrace "b" "M5.0,5.0 L9,9" 1 None None None None] in
  let A := setConnected (analyzeTrace (mkTrace "a" "M0,0 L5.02,5.0" 1 None None None None)) ["b"] in
  let B := setConnected (analyzeTrace (mkTrace "b" "M5.0,5.0 L9,9" 1 None None None None)) ["a"] in
  In (traceId B) (connected A)
  <-> exists pA pB : Point,
        endpointOf A pA /\ endpointOf B pB
        /\ bucketKey (minDistanceOf (mkOptions None None)) pA
           = bucketKey (minDistanceOf (mkOptions None None)) pB.
Proof.
  intros rawTraces A B.
  apply (connected_iff_endpoints_share_a_bucket rawTraces (mkOptions None None) 0 1 A B).
  - vm_compute. repeat constructor; cbn; intuition discriminate.
  - exact (O_S 0).
  - vm_compute. reflexivity.
  - vm_compute. reflexivity.
Defined.

(** ** [extractTraces] *)

Lemma spanClass_word (s : string) :
  allWordChars (fst (spanClass isWordChar s)) = true.
Proof.
  induction s as [|c s IH]; [reflexivity|].
  cbn [spanClass]. destruct (isWordChar c) eqn:E; [|reflexivity].
  destruct (spanClass isWordChar s) as [run rest]. cbn [fst allWordChars] in *.
  now rewrite E, IH.
Qed.

Lemma attrMatchAt_word (s name value : string) (len : nat) :
  attrMatchAt s = Some (name, value, len) -> allWordChars name = true.
Proof.
  unfold attrMatchAt. pose proof (spanClass_word s) as H.
  destruct (spanClass isWordChar s) as [run r]. cbn [fst] in H.
  destruct run as [|c run]; [discriminate|].
  destruct r as [|a [|b r2]]; try discriminate.
  destruct (Ascii.eqb a "=" && Ascii.eqb b doubleQuote); [|discriminate].
  destruct (untilChar doubleQuote r2) as [[v rest]|]; [|discriminate].
  intros G. injection G as <- _ _. exact H.
Qed.

(** The name of an attribute match is made of word characters: of
    [stroke-width] the expression reads [width]. *)
Lemma attrMatches_word (s : string) :
  forall skip : nat,
    Forall (fun a => allWordChars (fst a) = true) (attrMatchesFrom skip s).
Proof.
  induction s as [|c s IH]; intros skip; [constructor|].
  cbn [attrMatchesFrom]. destruct skip as [|k]; [|apply IH].
  destruct (attrMatchAt (String c s)) as [[[name value] len]|] eqn:E; [|apply IH].
  constructor; [|apply IH]. cbn [fst]. exact (attrMatchAt_word _ _ _ _ E).
Qed.

Lemma applyAttribute_word (t : Trace) (attr : string * string) :
  allWordChars (fst attr) = true ->
  width (applyAttribute t attr) = width t /\ layer (applyAttribute t attr) = layer t.
Proof.
  destruct attr as [name value]. cbn [fst]. intros Hw. unfold applyAttribute.
  destruct (String.eqb name "d"); [split; reflexivity|].
  destruct (String.eqb name "stroke-width") eqn:E.
  { apply String.eqb_eq in E. subst name. discriminate Hw. }
  destruct (String.eqb name "id"); [split; reflexivity|].
  destruct (String.eqb name "stroke"); [split; reflexivity|].
  destruct (String.eqb name "fill"); [split; reflexivity|].
  destruct (String.eqb name "transform"); split; reflexivity.
Qed.

Lemma traceOfPath_width (pathCount : nat) (pathAttrs : string) :
  width (traceOfPath pathCount pathAttrs) = 1%float
  /\ layer (traceOfPath pathCount pathAttrs) = None.
Proof.
  unfold traceOfPath, attrMatches.
  pose proof (attrMatches_word pathAttrs 0) as H.
  set (t0 := mkTrace _ _ _ _ _ _ _).
  change (width (fold_left applyAttribute (attrMatchesFrom 0 pathAttrs) t0) = width t0
          /\ layer (fold_left applyAttribute (attrMatchesFrom 0 pathAttrs) t0) = layer t0).
  generalize t0. induction H as [|a attrs Ha Hattrs IH]; intros t; [split; reflexivity|].
  cbn [fold_left]. destruct (IH (applyAttribute t a)) as [-> ->].
  exact (applyAttribute_word t a Ha).
Qed.

Lemma In_extractFrom (groups : list string) :
  forall (pathCount : nat) (t : Trace),
    In t (extractFrom pathCount groups) ->
    JS.truthyString (pathData t) = true
    /\ exists (k : nat) (pathAttrs : string),
         nth_error groups k = Some pathAttrs
         /\ t = traceOfPath (S (pathCount + k)) pathAttrs.
Proof.
  induction groups as [|g rest IH]; intros pathCount t Ht; [destruct Ht|].
  cbn [extractFrom] in Ht.
  assert (Hrest : In t (extractFrom (S pathCount) rest) ->
                  JS.truthyString (pathData t) = true
                  /\ exists k pathAttrs,
                       nth_error (g :: rest) k = Some pathAttrs
                       /\ t = traceOfPath (S (pathCount + k)) pathAttrs).
  { intros H. destruct (IH _ _ H) as [H1 [k [a [Hk Ha]]]]. split; [exact H1|].
    exists (S k), a. split; [exact Hk|].
    now replace (pathCount + S k) with (S pathCount + k) by lia. }
  destruct (JS.truthyString (pathData (traceOfPath (S pathCount) g))) eqn:E;
    [|exact (Hrest Ht)].
  destruct Ht as [<-|Ht]; [|exact (Hrest Ht)].
  split; [exact E|]. exists 0, g. split; [reflexivity|].
  now rewrite Nat.add_0_r.
Qed.

(** The extractor never reads the stroke width: the attribute expression
    takes the name of [stroke-width] to be [width], which the [switch] has
    no case for, so every trace it returns has the width 1 it was created
    with; and no trace gets a layer. *)
Theorem extractTraces_width_is_always_one
    (svgContent : string) (options : ParserOptions) (t : Trace) :
  In t (extractTraces svgContent options) ->
  width t = 1%float /\ layer t = None.
Proof.
  unfold extractTraces. intros Ht. apply In_extractFrom in Ht.
  destruct Ht as [_ [k [a [_ ->]]]]. apply traceOfPath_width.
Qed.

Lemma extractTraces_width_is_always_one_witness :
  let svg := ("<path id=" ++ quoted "p1" ++ " stroke-width=" ++ quoted "2.5"
              ++ " d=" ++ quoted "M0,0 L5,5" ++ "/>")%string in
  extractTraces svg (mkOptions None None)
  = [mkTrace "p1" "M0,0 L5,5" 1 None None None None]
  /\ width (mkTrace "p1" "M0,0 L5,5" 1 None None None None) = 1%float
  /\ layer (mkTrace "p1" "M0,0 L5,5" 1 None None None None) = None.
Proof.
  intros svg. split; [vm_compute; reflexivity|].
  apply (extractTraces_width_is_always_one svg (mkOptions None None)).
  vm_compute. now left.
Defined.

Lemma extractFrom_length (groups : list string) :
  forall pathCount : nat,
    List.length (extractFrom pathCount groups) <= List.length groups.
Proof.
  induction groups as [|g rest IH]; intros pathCount; [constructor|].
  cbn [extractFrom List.length]. specialize (IH (S pathCount)).
  destruct (JS.truthyString _); cbn [List.length]; lia.
Qed.

(** Every trace the extractor returns has path data: a path element
    without [d] attribute, or with an empty one, is dropped, so there are
    at most as many traces as path elements. *)
Theorem extractTraces_have_path_data
    (svgContent : string) (options : ParserOptions) :
  (forall t : Trace, In t (extractTraces svgContent options) -> pathData t <> EmptyString)
  /\ List.length (extractTraces svgContent options)
     <= List.length (pathMatches svgContent).
Proof.
  unfold extractTraces. split; [|apply extractFrom_length].
  intros t Ht. apply In_extractFrom in Ht. destruct Ht as [H _].
  unfold JS.truthyString in H. apply negb_true_iff in H.
  now apply String.eqb_neq in H.
Qed.

(** *** Which attribute counts *)

Lemma fold_applyAttribute_fields (attrs : list (string * string)) :
  forall t : Trace,
    pathData (fold_left applyAttribute attrs t)
    = last (valuesOf "d" attrs) (pathData t)
    /\ id (fold_left applyAttribute attrs t)
       = last (valuesOf "id" attrs) (id t).
Proof.
  unfold valuesOf.
  induction attrs as [|[name value] attrs IH]; intros t; [split; reflexivity|].
  cbn [fold_left filter fst]. destruct (IH (applyAttribute t (name, value))) as [-> ->].
  unfold applyAttribute.
  destruct (String.eqb name "d") eqn:Ed.
  { apply String.eqb_eq in Ed. subst name. cbn [String.eqb Ascii.eqb Bool.eqb map snd].
    rewrite last_cons. split; reflexivity. }
  destruct (String.eqb name "stroke-width") eqn:Ew.
  { apply String.eqb_eq in Ew. subst name. split; reflexivity. }
  destruct (String.eqb name "id") eqn:Ei.
  { cbn [map snd]. rewrite last_cons. split; reflexivity. }
  destruct (String.eqb name "stroke");
    [split; reflexivity|].
  destruct (String.eqb name "fill");
    [split; reflexivity|].
  destruct (String.eqb name "transform"); split; reflexivity.
Qed.

Lemma traceOfPath_fields (pathCount : nat) (pathAttrs : string) :
  pathData (traceOfPath pathCount pathAttrs)
  = last (valuesOf "d" (attrMatches pathAttrs)) EmptyString
  /\ id (traceOfPath pathCount pathAttrs)
     = last (valuesOf "id" (attrMatches pathAttrs)) (defaultId pathCount).
Proof. unfold traceOfPath. apply fold_applyAttribute_fields. Qed.

(** Every trace comes from a path element of the document.  Of several
    attributes of one name the last one counts: the path data is the
    value of the last attribute match named [d] and the id that of the
    last match named [id].  Without such a match the id is [trace-k],
    where [k] is the rank of the element among all path elements of the
    document, those that were dropped for want of path data included. *)
Theorem extractTraces_last_attribute_counts
    (svgContent : string) (options : ParserOptions) (t : Trace) :
  In t (extractTraces svgContent options) ->
  exists (k : nat) (pathAttrs : string),
    nth_error (pathMatches svgContent) k = Some pathAttrs
    /\ pathData t = last (valuesOf "d" (attrMatches pathAttrs)) EmptyString
    /\ id t = last (valuesOf "id" (attrMatches pathAttrs)) (defaultId (S k)).
Proof.
  unfold extractTraces. intros Ht. apply In_extractFrom in Ht.
  destruct Ht as [_ [k [a [Hk ->]]]]. exists k, a. split; [exact Hk|].
  apply traceOfPath_fields.
Qed.

Lemma extractTraces_last_attribute_counts_witness :
  let svg := ("<svg><path  stroke=" ++ quoted "red" ++ "/><path d=" ++ quoted "M0,0"
              ++ " d=" ++ quoted "M1,1 L2,2" ++ "/></svg>")%string in
  extractTraces svg (mkOptions None None)
  = [mkTrace "trace-2" "M1,1 L2,2" 1 None None None None]
  /\ exists (k : nat) (pathAttrs : string),
       nth_error (pathMatches svg) k = Some pathAttrs
       /\ "M1,1 L2,2"%string = last (valuesOf "d" (attrMatches pathAttrs)) EmptyString
       /\ "trace-2"%string = last (valuesOf "id" (attrMatches pathAttrs)) (defaultId (S k)).
Proof.
  intros svg. split; [vm_compute; reflexivity|].
  apply (extractTraces_last_attribute_counts svg (mkOptions None None)
           (mkTrace "trace-2" "M1,1 L2,2" 1 None None None None)).
  vm_compute. now left.
Defined.

(** ** [analyzeTracesInSVG] *)

Lemma restOf_trace (ts ts' : list AnalyzedTrace) :
  Forall2 grownFrom ts ts' -> map trace ts' = map trace ts.
Proof.
  induction 1 as [|t t' ts ts' [Hr _] _ IH]; [reflexivity|].
  cbn [map]. rewrite IH. f_equal. unfold restOf in Hr. congruence.
Qed.

(** The analysis returns one analysed trace for each extracted trace, in
    the order of extraction, and each carries its extracted record
    unchanged; its points are those of its own path data. *)
Theorem analyzeTracesInSVG_keeps_the_extracted_traces
    (svgContent : string) (options : ParserOptions) :
  map trace (fst (analyzeTracesInSVG svgContent options))
  = extractTraces svgContent options
  /\ map allPoints (fst (analyzeTracesInSVG svgContent options))
     = map (fun t => getPointsFromCommands
                       (convertToAbsoluteCoordinates (parsePathCommands (pathData t))))
         (extractTraces svgContent options).
Proof.
  unfold analyzeTracesInSVG, analyzeExtractedTraces, buildJunctions. cbn [fst].
  set (raw := extractTraces svgContent options).
  pose proof (updateTraceConnectivity_only_appends (map analyzeTrace raw)
                (findJunctions (map analyzeTrace raw) options)) as H.
  split.
  - rewrite (restOf_trace _ _ H), map_map. apply map_id.
  - assert (G : map allPoints
                  (updateTraceConnectivity (map analyzeTrace raw)
                     (findJunctions (map analyzeTrace raw) options))
                = map allPoints (map analyzeTrace raw)).
    { induction H as [|t t' ts ts' [Hr _] _ IH]; [reflexivity|].
      cbn [map]. rewrite IH. f_equal. unfold restOf in Hr. congruence. }
    rewrite G, map_map. reflexivity.
Qed.
